(** * AI-Path-Finder: a shallow embedding of [main.py]

    The search engine of the pygame application: the grid, the neighbour
    generator, the obstacle injector, the six search strategies, the path
    reconstruction, the controller ([run_algorithm]) and the grid editing
    ([handle_grid_click]).  Rendering ([draw], [pygame.display.flip],
    [pygame.time.wait], [print]) has no effect on the modelled state and is
    left out.

    Conventions.
    - Python integers are [Z]; a position is a pair [(row, col)].
    - The grid is the list of rows of the source, read and written by index.
    - A cost is kept in tenths: the source's float constants [1.0] and [1.4]
      are [10] and [14], and sums of them are compared exactly.
    - The outside world is part of the state: the values drawn from
      [random] ([rng], read at [rng_pos]) and the batches returned by
      [pygame.event.get()] ([events], read at [polls]). *)

From Stdlib Require Import ZArith QArith Lia ZifyNat List Permutation.
From stdpp Require Import gmap list sets.

Local Open Scope Z_scope.

(** ** Data *)

Inductive CellType :=
  | EMPTY | WALL | START | TARGET | FRONTIER | EXPLORED | PATH
  | DYNAMIC_OBSTACLE.

#[global] Instance CellType_eq_dec : EqDecision CellType.
Proof. solve_decision. Defined.

Abbreviation pos := (Z * Z)%type.

(** [Node]: [parent] is a reference to the node this one was generated
    from ([None] for a root). *)
Unset Elimination Schemes.
Inductive Node := mkNode (x y : Z) (cost : Z) (parent : option Node).
Set Elimination Schemes.

Definition x (n : Node) : Z := let 'mkNode a _ _ _ := n in a.
Definition y (n : Node) : Z := let 'mkNode _ b _ _ := n in b.
Definition cost (n : Node) : Z := let 'mkNode _ _ c _ := n in c.
Definition parent (n : Node) : option Node := let 'mkNode _ _ _ p := n in p.

Definition npos (n : Node) : pos := (x n, y n).

(** [Node.__lt__] *)
Definition node_lt (a b : Node) : bool := cost a <? cost b.

Inductive Algorithm := BFS | DFS | UCS | DLS | IDDFS | Bidirectional.
Inductive Mode := MODE_WALL | MODE_START | MODE_TARGET.

Inductive Key := K_SPACE | K_r | K_other.
Inductive Event := QUIT | KEYDOWN (key : Key) | MOUSEBUTTONDOWN | OTHER_EVENT.

Record Pathfinder := mkPathfinder {
  grid_size : Z;
  rows : Z;
  cols : Z;
  grid : list (list CellType);
  start : pos;
  target : pos;
  current_algorithm : Algorithm;
  is_searching : bool;
  search_complete : bool;
  paused : bool;
  current_mode : Mode;
  dynamic_obstacle_probability : Q;
  enable_dynamic_obstacles : bool;
  dynamic_obstacles_added : list pos;
  (* the outside world *)
  rng : nat -> Q * nat;
  rng_pos : nat;
  events : nat -> list Event;
  polls : nat
}.

Definition with_grid (g : list (list CellType)) (s : Pathfinder) : Pathfinder :=
  mkPathfinder (grid_size s) (rows s) (cols s) g (start s) (target s)
    (current_algorithm s) (is_searching s) (search_complete s) (paused s)
    (current_mode s) (dynamic_obstacle_probability s)
    (enable_dynamic_obstacles s) (dynamic_obstacles_added s)
    (rng s) (rng_pos s) (events s) (polls s).

Definition with_start (p : pos) (s : Pathfinder) : Pathfinder :=
  mkPathfinder (grid_size s) (rows s) (cols s) (grid s) p (target s)
    (current_algorithm s) (is_searching s) (search_complete s) (paused s)
    (current_mode s) (dynamic_obstacle_probability s)
    (enable_dynamic_obstacles s) (dynamic_obstacles_added s)
    (rng s) (rng_pos s) (events s) (polls s).

Definition with_target (p : pos) (s : Pathfinder) : Pathfinder :=
  mkPathfinder (grid_size s) (rows s) (cols s) (grid s) (start s) p
    (current_algorithm s) (is_searching s) (search_complete s) (paused s)
    (current_mode s) (dynamic_obstacle_probability s)
    (enable_dynamic_obstacles s) (dynamic_obstacles_added s)
    (rng s) (rng_pos s) (events s) (polls s).

Definition with_flags (searching complete pause : bool) (s : Pathfinder)
  : Pathfinder :=
  mkPathfinder (grid_size s) (rows s) (cols s) (grid s) (start s) (target s)
    (current_algorithm s) searching complete pause
    (current_mode s) (dynamic_obstacle_probability s)
    (enable_dynamic_obstacles s) (dynamic_obstacles_added s)
    (rng s) (rng_pos s) (events s) (polls s).

Definition with_paused (b : bool) (s : Pathfinder) : Pathfinder :=
  with_flags (is_searching s) (search_complete s) b s.

Definition with_obstacles (l : list pos) (s : Pathfinder) : Pathfinder :=
  mkPathfinder (grid_size s) (rows s) (cols s) (grid s) (start s) (target s)
    (current_algorithm s) (is_searching s) (search_complete s) (paused s)
    (current_mode s) (dynamic_obstacle_probability s)
    (enable_dynamic_obstacles s) l
    (rng s) (rng_pos s) (events s) (polls s).

Definition with_rng_pos (k : nat) (s : Pathfinder) : Pathfinder :=
  mkPathfinder (grid_size s) (rows s) (cols s) (grid s) (start s) (target s)
    (current_algorithm s) (is_searching s) (search_complete s) (paused s)
    (current_mode s) (dynamic_obstacle_probability s)
    (enable_dynamic_obstacles s) (dynamic_obstacles_added s)
    (rng s) k (events s) (polls s).

Definition with_polls (k : nat) (s : Pathfinder) : Pathfinder :=
  mkPathfinder (grid_size s) (rows s) (cols s) (grid s) (start s) (target s)
    (current_algorithm s) (is_searching s) (search_complete s) (paused s)
    (current_mode s) (dynamic_obstacle_probability s)
    (enable_dynamic_obstacles s) (dynamic_obstacles_added s)
    (rng s) (rng_pos s) (events s) k.

(** ** The grid *)

(** [g[row][col]].  Every index the source uses lies inside the grid (it is
    bounds-checked, or is the stored start or target, or belongs to a node
    that passed [is_valid_position]); outside of it the model reads
    [EMPTY] and writes nothing. *)
Definition cell_at (g : list (list CellType)) (p : pos) : CellType :=
  if (0 <=? p.1) && (0 <=? p.2) then
    match g !! Z.to_nat p.1 with
    | Some row => default EMPTY (row !! Z.to_nat p.2)
    | None => EMPTY
    end
  else EMPTY.

(** [g[row][col] = v] *)
Definition set_cell_at (g : list (list CellType)) (p : pos) (v : CellType)
  : list (list CellType) :=
  if (0 <=? p.1) && (0 <=? p.2) then
    alter (fun row => <[Z.to_nat p.2 := v]> row) (Z.to_nat p.1) g
  else g.

Definition cell (s : Pathfinder) (p : pos) : CellType := cell_at (grid s) p.

Definition set_cell (p : pos) (v : CellType) (s : Pathfinder) : Pathfinder :=
  with_grid (set_cell_at (grid s) p v) s.

Definition in_grid (s : Pathfinder) (p : pos) : bool :=
  (0 <=? p.1) && (p.1 <? rows s) && (0 <=? p.2) && (p.2 <? cols s).

Definition is_valid_position (s : Pathfinder) (row col : Z) : bool :=
  (0 <=? row) && (row <? rows s) && (0 <=? col) && (col <? cols s) &&
  negb (bool_decide (cell s (row, col) ∈ [WALL; DYNAMIC_OBSTACLE])).

(** Movement directions, in the order of [self.directions]. *)
Definition directions : list (Z * Z) :=
  [ (-1, 0); (0, 1); (1, 0); (1, 1); (0, -1); (-1, -1); (-1, 1); (1, -1) ].

(** [1.4 if abs(dr) + abs(dc) == 2 else 1.0], in tenths. *)
Definition step_cost (d : Z * Z) : Z :=
  if Z.abs d.1 + Z.abs d.2 =? 2 then 14 else 10.

Definition get_neighbors (s : Pathfinder) (node : Node) : list Node :=
  omap (fun d : Z * Z =>
          let new_row := x node + d.1 in
          let new_col := y node + d.2 in
          if is_valid_position s new_row new_col
          then Some (mkNode new_row new_col (cost node + step_cost d) (Some node))
          else None)
       directions.

(** ** The obstacle injector *)

Definition empty_cells (s : Pathfinder) : list pos :=
  row ← seqZ 0 (rows s);
  col ← seqZ 0 (cols s);
  if decide (cell s (row, col) = EMPTY) then [(row, col)] else [].

(** One call draws [random.random()] and, when it is below the probability,
    [random.choice(empty_cells)]: the pair [rng s (rng_pos s)] holds the
    value and the number that selects the cell. *)
Definition add_dynamic_obstacle (s : Pathfinder) : bool * Pathfinder :=
  if negb (enable_dynamic_obstacles s) then (false, s)
  else
    let '(r, k) := rng s (rng_pos s) in
    let s1 := with_rng_pos (S (rng_pos s)) s in
    if Qlt_le_dec r (dynamic_obstacle_probability s) then
      let cells := empty_cells s in
      match cells !! (k mod length cells)%nat with
      | Some p =>
          (true,
           with_obstacles (dynamic_obstacles_added s ++ [p])
             (set_cell p DYNAMIC_OBSTACLE s1))
      | None => (false, s1)
      end
    else (false, s1).

(** ** Overlay *)

(** The positions of the grid, row by row, as the two nested [for] loops
    over [range(self.rows)] and [range(self.cols)] visit them. *)
Definition grid_positions (s : Pathfinder) : list pos :=
  row ← seqZ 0 (rows s); col ← seqZ 0 (cols s); [(row, col)].

(** [self.start] and [self.target] are pairs, which are always true in the
    tests [if self.start:] and [if self.target:]. *)
Definition clear_search_visualization (s : Pathfinder) : Pathfinder :=
  let s :=
    foldl (fun s p =>
             if bool_decide (cell s p ∈ [FRONTIER; EXPLORED; PATH])
             then set_cell p EMPTY s else s)
          s (grid_positions s) in
  let s := set_cell (start s) START s in
  set_cell (target s) TARGET s.

Definition clear_all (s : Pathfinder) : Pathfinder :=
  let s :=
    foldl (fun s p =>
             if bool_decide (cell s p ∉ [START; TARGET])
             then set_cell p EMPTY s else s)
          s (grid_positions s) in
  with_obstacles [] s.

(** ** Paths *)

(** The positions from [node] back to the root, as the [while current] loop
    collects them. *)
Fixpoint chain (n : Node) : list pos :=
  match n with
  | mkNode a b _ p =>
      (a, b) :: match p with Some q => chain q | None => [] end
  end.

Definition reconstruct_path (node : Node) : list pos := reverse (chain node).

Definition visualize_path (path : list pos) (s : Pathfinder) : Pathfinder :=
  foldl (fun s p =>
           if bool_decide (p ≠ start s) && bool_decide (p ≠ target s)
           then set_cell p PATH s else s)
        s path.

(** ** Events during a search *)

Fixpoint handle_events (evs : list Event) (pause : bool) : bool * bool :=
  match evs with
  | [] => (true, pause)
  | QUIT :: _ => (false, pause)
  | KEYDOWN K_SPACE :: evs' => handle_events evs' (negb pause)
  | _ :: evs' => handle_events evs' pause
  end.

Definition handle_events_during_search (s : Pathfinder) : bool * Pathfinder :=
  let '(ok, pause) := handle_events (events s (polls s)) (paused s) in
  (ok, with_paused pause (with_polls (S (polls s)) s)).

(** ** [heapq] on a list of nodes, ordered by [Node.__lt__]

    [heappush] and [heappop] are those of the module [heapq] of the Python
    library, which the source imports, with its helpers [_siftdown] and
    [_siftup].  Their loops move an index towards the root,
    respectively towards the leaves; [fuel] bounds their iterations and is
    large enough at every call below. *)

Fixpoint siftdown_loop (fuel : nat) (heap : list Node) (startpos pos : nat)
    (newitem : Node) : list Node :=
  match fuel with
  | O => <[pos := newitem]> heap
  | S fuel' =>
      if decide (startpos < pos)%nat then
        let parentpos := ((pos - 1) / 2)%nat in
        match heap !! parentpos with
        | Some parent =>
            if node_lt newitem parent
            then siftdown_loop fuel' (<[pos := parent]> heap) startpos
                   parentpos newitem
            else <[pos := newitem]> heap
        | None => <[pos := newitem]> heap
        end
      else <[pos := newitem]> heap
  end.

Definition _siftdown (heap : list Node) (startpos pos : nat) : list Node :=
  match heap !! pos with
  | Some newitem => siftdown_loop pos heap startpos pos newitem
  | None => heap
  end.

(** The first loop of [_siftup]: the smaller child moves up until a leaf is
    reached; the result is the list and the position of the leaf. *)
Fixpoint siftup_loop (fuel : nat) (heap : list Node) (endpos pos : nat)
  : list Node * nat :=
  match fuel with
  | O => (heap, pos)
  | S fuel' =>
      let childpos := (2 * pos + 1)%nat in
      if decide (childpos < endpos)%nat then
        let rightpos := (childpos + 1)%nat in
        let childpos :=
          match heap !! childpos, heap !! rightpos with
          | Some l, Some r =>
              if bool_decide (rightpos < endpos)%nat && negb (node_lt l r)
              then rightpos else childpos
          | _, _ => childpos
          end in
        match heap !! childpos with
        | Some c => siftup_loop fuel' (<[pos := c]> heap) endpos childpos
        | None => (heap, pos)
        end
      else (heap, pos)
  end.

Definition _siftup (heap : list Node) (pos : nat) : list Node :=
  match heap !! pos with
  | Some newitem =>
      let '(heap', leaf) := siftup_loop (length heap) heap (length heap) pos in
      _siftdown (<[leaf := newitem]> heap') pos leaf
  | None => heap
  end.

Definition heappush (heap : list Node) (item : Node) : list Node :=
  _siftdown (heap ++ [item]) 0 (length heap).

(** [None] stands for the [IndexError] of popping an empty heap. *)
Definition heappop (heap : list Node) : option (Node * list Node) :=
  match last heap with
  | None => None
  | Some lastelt =>
      match removelast heap with
      | [] => Some (lastelt, [])
      | returnitem :: rest =>
          Some (returnitem, _siftup (lastelt :: rest) 0)
      end
  end.

(** ** The search strategies

    A strategy returns [True] after drawing the path it found, and [False]
    otherwise; the model keeps the path that was drawn. *)

Inductive Result := RetTrue (path : list pos) | RetFalse.

Definition success (r : Result) : bool :=
  match r with RetTrue _ => true | RetFalse => false end.

(** One pass through the body of a [while] loop ends in a [return], in a
    [continue], or at the bottom of the body, where the frame is drawn and
    [handle_events_during_search] is called. *)
Inductive Body (L : Type) :=
  | Return (r : Result) (s : Pathfinder)
  | Skip (s : Pathfinder) (l : L)
  | Poll (s : Pathfinder) (l : L).
Arguments Return {L} r s.
Arguments Skip {L} s l.
Arguments Poll {L} s l.

Inductive Run (L : Type) :=
  | Done (r : Result) (s : Pathfinder)
  | Running (s : Pathfinder) (l : L).
Arguments Done {L} r s.
Arguments Running {L} s l.

Section Loop.
Context {L : Type} (body : Pathfinder -> L -> Body L).

Definition iterate (s : Pathfinder) (l : L) : Run L :=
  match body s l with
  | Return r s' => Done r s'
  | Skip s' l' => Running s' l'
  | Poll s' l' =>
      let '(ok, s'') := handle_events_during_search s' in
      if ok then Running s'' l' else Done RetFalse s''
  end.

(** The state after at most [fuel] iterations. *)
Fixpoint loop (fuel : nat) (s : Pathfinder) (l : L) : Run L :=
  match fuel with
  | O => Running s l
  | S fuel' =>
      match iterate s l with
      | Done r s' => Done r s'
      | Running s' l' => loop fuel' s' l'
      end
  end.
End Loop.

Definition start_node (s : Pathfinder) : Node :=
  mkNode (start s).1 (start s).2 0 None.

Definition target_node (s : Pathfinder) : Node :=
  mkNode (target s).1 (target s).2 0 None.

Definition mark_explored (p : pos) (root : pos) (s : Pathfinder) : Pathfinder :=
  if bool_decide (p ≠ root) then set_cell p EXPLORED s else s.

Definition mark_frontier (p : pos) (other : pos) (s : Pathfinder) : Pathfinder :=
  if bool_decide (p ≠ other) then set_cell p FRONTIER s else s.

(** *** BFS *)

Definition bfs_visit (acc : Pathfinder * list Node * gset pos)
    (neighbor : Node) : Pathfinder * list Node * gset pos :=
  let '(s, queue, visited) := acc in
  let p := npos neighbor in
  if bool_decide (p ∉ visited) && is_valid_position s (x neighbor) (y neighbor)
  then (mark_frontier p (target s) s, queue ++ [neighbor], {[p]} ∪ visited)
  else acc.

Definition bfs_body (s : Pathfinder) (l : list Node * gset pos)
  : Body (list Node * gset pos) :=
  let '(queue, visited) := l in
  match queue with
  | [] => Return RetFalse s
  | current :: queue' =>
      if paused s then Return RetFalse s
      else
        let s := (add_dynamic_obstacle s).2 in
        if bool_decide (npos current = target s) then
          let path := reconstruct_path current in
          Return (RetTrue path) (visualize_path path s)
        else
          let s := mark_explored (npos current) (start s) s in
          let '(s, queue', visited) :=
            foldl bfs_visit (s, queue', visited) (get_neighbors s current) in
          Poll s (queue', visited)
  end.

Definition breadth_first_search (fuel : nat) (s : Pathfinder)
  : Run (list Node * gset pos) :=
  loop bfs_body fuel s ([start_node s], {[start s]}).

(** *** DFS: the stack is the Python list, its top is the last element. *)

Definition dfs_body (s : Pathfinder) (l : list Node * gset pos)
  : Body (list Node * gset pos) :=
  let '(stack, visited) := l in
  match last stack with
  | None => Return RetFalse s
  | Some current =>
      if paused s then Return RetFalse s
      else
        let s := (add_dynamic_obstacle s).2 in
        let stack' := removelast stack in
        if bool_decide (npos current = target s) then
          let path := reconstruct_path current in
          Return (RetTrue path) (visualize_path path s)
        else
          let s := mark_explored (npos current) (start s) s in
          let neighbors := get_neighbors s current in
          let '(s, stack', visited) :=
            foldl bfs_visit (s, stack', visited) (reverse neighbors) in
          Poll s (stack', visited)
  end.

Definition depth_first_search (fuel : nat) (s : Pathfinder)
  : Run (list Node * gset pos) :=
  loop dfs_body fuel s ([start_node s], {[start s]}).

(** *** UCS *)

Definition ucs_visit (visited : gset pos)
    (acc : Pathfinder * list Node * gmap pos Z) (neighbor : Node)
  : Pathfinder * list Node * gmap pos Z :=
  let '(s, priority_queue, costs) := acc in
  let p := npos neighbor in
  if bool_decide (p ∉ visited) && is_valid_position s (x neighbor) (y neighbor)
  then
    if match costs !! p with
       | None => true
       | Some c => cost neighbor <? c
       end
    then (mark_frontier p (target s) s, heappush priority_queue neighbor,
          <[p := cost neighbor]> costs)
    else acc
  else acc.

Definition ucs_body (s : Pathfinder) (l : list Node * gset pos * gmap pos Z)
  : Body (list Node * gset pos * gmap pos Z) :=
  let '(priority_queue, visited, costs) := l in
  match heappop priority_queue with
  | None => Return RetFalse s
  | Some (current, priority_queue') =>
      if paused s then Return RetFalse s
      else
        let s := (add_dynamic_obstacle s).2 in
        if bool_decide (npos current ∈ visited) then
          Skip s (priority_queue', visited, costs)
        else
          let visited := {[npos current]} ∪ visited in
          if bool_decide (npos current = target s) then
            let path := reconstruct_path current in
            Return (RetTrue path) (visualize_path path s)
          else
            let s := mark_explored (npos current) (start s) s in
            let '(s, priority_queue', costs) :=
              foldl (ucs_visit visited) (s, priority_queue', costs)
                    (get_neighbors s current) in
            Poll s (priority_queue', visited, costs)
  end.

Definition uniform_cost_search (fuel : nat) (s : Pathfinder)
  : Run (list Node * gset pos * gmap pos Z) :=
  loop ucs_body fuel s ([start_node s], ∅, {[start s := 0]}).

(** *** Depth-limited search

    [dls_recursive] is called with [depth1 = depth + 1], so that the test
    [depth < 0] of the source is the case [O]; [visited] is the caller's
    copy of the set, [rec] in [dls_for] the recursive call on a neighbour. *)

Fixpoint dls_for (rec : Pathfinder -> Node -> Result * Pathfinder)
    (visited : gset pos) (s : Pathfinder) (neighbors : list Node)
  : Result * Pathfinder :=
  match neighbors with
  | [] => (RetFalse, s)
  | neighbor :: rest =>
      let neighbor_pos := npos neighbor in
      if bool_decide (neighbor_pos ∉ visited) &&
         is_valid_position s (x neighbor) (y neighbor)
      then
        let s := mark_frontier neighbor_pos (target s) s in
        match handle_events_during_search s with
        | (false, s) => (RetFalse, s)
        | (true, s) =>
            match rec s neighbor with
            | (RetTrue path, s) => (RetTrue path, s)
            | (RetFalse, s) => dls_for rec visited s rest
            end
        end
      else dls_for rec visited s rest
  end.

Fixpoint dls_recursive (depth1 : nat) (s : Pathfinder) (node : Node)
    (visited : gset pos) (path : list pos) : Result * Pathfinder :=
  match depth1 with
  | O => (RetFalse, s)
  | S depth =>
      if paused s then (RetFalse, s)
      else
        let s := (add_dynamic_obstacle s).2 in
        let p := npos node in
        if bool_decide (p = target s) then
          let full_path := path ++ [p] in
          (RetTrue full_path, visualize_path full_path s)
        else
          let s := mark_explored p (start s) s in
          let visited := {[p]} ∪ visited in
          dls_for (fun s' neighbor =>
                     dls_recursive depth s' neighbor visited (path ++ [p]))
                  visited s (get_neighbors s node)
  end.

Definition depth_limited_search (depth_limit : Z) (s : Pathfinder)
  : Result * Pathfinder :=
  dls_recursive (Z.to_nat (depth_limit + 1)) s (start_node s) ∅ [].

(** *** Iterative deepening *)

Fixpoint iddfs_loop (depths : list nat) (s : Pathfinder)
  : Result * Pathfinder :=
  match depths with
  | [] => (RetFalse, s)
  | depth :: rest =>
      let s := clear_search_visualization s in
      match depth_limited_search (Z.of_nat depth) s with
      | (RetTrue path, s) => (RetTrue path, s)
      | (RetFalse, s) =>
          if paused s then (RetFalse, s) else iddfs_loop rest s
      end
  end.

Definition iterative_deepening_dfs (s : Pathfinder) : Result * Pathfinder :=
  iddfs_loop (seq 0 30) s.

(** *** Bidirectional search *)

Definition join_paths (forward_node backward_node : Node) : list pos :=
  let forward_path := reconstruct_path forward_node in
  let backward_path := reverse (reconstruct_path backward_node) in
  forward_path ++ drop 1 backward_path.

Definition bidi_visit (other : pos)
    (acc : Pathfinder * list Node * gmap pos Node) (neighbor : Node)
  : Pathfinder * list Node * gmap pos Node :=
  let '(s, queue, visited) := acc in
  let neighbor_pos := npos neighbor in
  if bool_decide (visited !! neighbor_pos = None) &&
     is_valid_position s (x neighbor) (y neighbor)
  then (mark_frontier neighbor_pos other s, queue ++ [neighbor],
        <[neighbor_pos := neighbor]> visited)
  else acc.

Record BidiLocals := mkBidi {
  forward_queue : list Node;
  backward_queue : list Node;
  forward_visited : gmap pos Node;
  backward_visited : gmap pos Node
}.

(** The [if forward_queue:] block: a path, or the state it leaves. *)
Definition bidi_forward (s : Pathfinder) (l : BidiLocals)
  : list pos + Pathfinder * BidiLocals :=
  match forward_queue l with
  | [] => inr (s, l)
  | current :: queue' =>
      match backward_visited l !! npos current with
      | Some other => inl (join_paths current other)
      | None =>
          let s := mark_explored (npos current) (start s) s in
          let '(s, queue', visited) :=
            foldl (bidi_visit (target s)) (s, queue', forward_visited l)
                  (get_neighbors s current) in
          inr (s, mkBidi queue' (backward_queue l) visited (backward_visited l))
      end
  end.

(** The [if backward_queue:] block. *)
Definition bidi_backward (s : Pathfinder) (l : BidiLocals)
  : list pos + Pathfinder * BidiLocals :=
  match backward_queue l with
  | [] => inr (s, l)
  | current :: queue' =>
      match forward_visited l !! npos current with
      | Some other => inl (join_paths other current)
      | None =>
          let s := mark_explored (npos current) (target s) s in
          let '(s, queue', visited) :=
            foldl (bidi_visit (start s)) (s, queue', backward_visited l)
                  (get_neighbors s current) in
          inr (s, mkBidi (forward_queue l) queue' (forward_visited l) visited)
      end
  end.

Definition bidi_body (s : Pathfinder) (l : BidiLocals) : Body BidiLocals :=
  match forward_queue l, backward_queue l with
  | [], [] => Return RetFalse s
  | _, _ =>
      if paused s then Return RetFalse s
      else
        let s := (add_dynamic_obstacle s).2 in
        match bidi_forward s l with
        | inl path => Return (RetTrue path) (visualize_path path s)
        | inr (s, l) =>
            match bidi_backward s l with
            | inl path => Return (RetTrue path) (visualize_path path s)
            | inr (s, l) => Poll s l
            end
        end
  end.

Definition bidirectional_search (fuel : nat) (s : Pathfinder)
  : Run BidiLocals :=
  loop bidi_body fuel s
    (mkBidi [start_node s] [target_node s]
            {[start s := start_node s]} {[target s := target_node s]}).

(** ** The controller *)

Definition finish {L : Type} (r : Run L) : option (Result * Pathfinder) :=
  match r with
  | Done res s => Some (res, s)
  | Running _ _ => None
  end.

(** [None]: the loop of the strategy is still running after [fuel]
    iterations. *)
Definition run_strategy (fuel : nat) (s : Pathfinder)
  : option (Result * Pathfinder) :=
  match current_algorithm s with
  | BFS => finish (breadth_first_search fuel s)
  | DFS => finish (depth_first_search fuel s)
  | UCS => finish (uniform_cost_search fuel s)
  | DLS => Some (depth_limited_search 15 s)
  | IDDFS => Some (iterative_deepening_dfs s)
  | Bidirectional => finish (bidirectional_search fuel s)
  end.

Inductive Message := Path_found | No_path_found.

(** The result line that [run_algorithm] prints: ["Path found!"] or
    ["No path found!"]; no line when a run is already active. *)
Definition run_algorithm (fuel : nat) (s : Pathfinder)
  : option (option Message * Pathfinder) :=
  if is_searching s then Some (None, s)
  else
    let s := clear_search_visualization s in
    let s := with_flags true false false s in
    match run_strategy fuel s with
    | None => None
    | Some (r, s) =>
        let s := with_flags false true (paused s) s in
        Some (Some (if success r then Path_found else No_path_found), s)
    end.

(** ** Editing the grid *)

Definition grid_height (s : Pathfinder) : Z := rows s * grid_size s.
Definition grid_width (s : Pathfinder) : Z := cols s * grid_size s.

(** [click] is the pixel position [(pos[0], pos[1])] of the mouse. *)
Definition handle_grid_click (click : Z * Z) (s : Pathfinder) : Pathfinder :=
  if click.2 >? grid_height s then s
  else
    let col := click.1 / grid_size s in
    let row := click.2 / grid_size s in
    if (0 <=? row) && (row <? rows s) && (0 <=? col) && (col <? cols s) then
      match current_mode s with
      | MODE_START =>
          let s := set_cell (start s) EMPTY s in
          let s := with_start (row, col) s in
          set_cell (row, col) START s
      | MODE_TARGET =>
          let s := set_cell (target s) EMPTY s in
          let s := with_target (row, col) s in
          set_cell (row, col) TARGET s
      | MODE_WALL =>
          if decide (cell s (row, col) = EMPTY) then set_cell (row, col) WALL s
          else if decide (cell s (row, col) = WALL)
               then set_cell (row, col) EMPTY s
               else s
      end
    else s.

(** ** Building a pathfinder *)

Definition wall_positions : list pos :=
  [ (5, 8); (6, 8); (7, 8); (8, 8); (9, 8);
    (12, 5); (12, 6); (12, 7); (12, 8); (12, 9); (12, 10);
    (15, 15); (15, 16); (15, 17); (16, 17); (17, 17);
    (3, 15); (4, 15); (10, 20); (11, 20) ].

(** [setup_sample_maze], for any list of walls. *)
Definition setup_walls (walls : list pos) (s : Pathfinder) : Pathfinder :=
  foldl (fun s p => if in_grid s p then set_cell p WALL s else s) s walls.

(** A pathfinder of the given dimensions, as [__init__] builds it: an empty
    grid, the two markers, then the walls. *)
Definition configure (nrows ncols : Z) (walls : list pos) (st tg : pos)
    (dynamic : bool) (r : nat -> Q * nat) (ev : nat -> list Event)
  : Pathfinder :=
  let g := replicate (Z.to_nat nrows) (replicate (Z.to_nat ncols) EMPTY) in
  let s := mkPathfinder 25 nrows ncols g st tg BFS false false false
             MODE_WALL (1 # 1000) dynamic [] r 0 ev 0 in
  setup_walls walls (set_cell tg TARGET (set_cell st START s)).

(** [GOODPERFORMANCETIMEAPPathfinder()] *)
Definition init (r : nat -> Q * nat) (ev : nat -> list Event) : Pathfinder :=
  configure 20 25 wall_positions (1, 1) (18, 23) true r ev.

Definition with_algorithm (a : Algorithm) (s : Pathfinder) : Pathfinder :=
  mkPathfinder (grid_size s) (rows s) (cols s) (grid s) (start s) (target s)
    a (is_searching s) (search_complete s) (paused s)
    (current_mode s) (dynamic_obstacle_probability s)
    (enable_dynamic_obstacles s) (dynamic_obstacles_added s)
    (rng s) (rng_pos s) (events s) (polls s).

Definition with_mode (m : Mode) (s : Pathfinder) : Pathfinder :=
  mkPathfinder (grid_size s) (rows s) (cols s) (grid s) (start s) (target s)
    (current_algorithm s) (is_searching s) (search_complete s) (paused s)
    m (dynamic_obstacle_probability s)
    (enable_dynamic_obstacles s) (dynamic_obstacles_added s)
    (rng s) (rng_pos s) (events s) (polls s).

(** No obstacle is ever drawn; no event ever arrives. *)
Definition no_rng : nat -> Q * nat := fun _ => (1%Q, O).
Definition no_events : nat -> list Event := fun _ => [].

(** ** Vocabulary of the statements *)

(** The grid has [rows] rows of [cols] cells. *)
Definition grid_wf (s : Pathfinder) : Prop :=
  length (grid s) = Z.to_nat (rows s) ∧
  Forall (fun row => length row = Z.to_nat (cols s)) (grid s).

(** Two pathfinders that differ in nothing but the cells of the grid and
    the outside world. *)
Definition same_setup (s s' : Pathfinder) : Prop :=
  rows s' = rows s ∧ cols s' = cols s ∧ start s' = start s ∧
  target s' = target s ∧
  enable_dynamic_obstacles s' = enable_dynamic_obstacles s ∧
  dynamic_obstacle_probability s' = dynamic_obstacle_probability s ∧
  rng s' = rng s ∧ events s' = events s.

(** The heap property of [heapq]: no node is smaller than its parent, the
    node at index [(j - 1) / 2]. *)
Definition heap_ordered (h : list Node) : Prop :=
  ∀ j c p, (0 < j)%nat → h !! j = Some c → h !! ((j - 1) / 2)%nat = Some p →
           cost p <= cost c.

(** *** Paths

    A position [q] is one move away from [p] when the difference is one of
    the eight directions; the move costs what [get_neighbors] adds. *)
Definition adjacent (p q : pos) : Prop := (q.1 - p.1, q.2 - p.2) ∈ directions.

Definition move_cost (p q : pos) : Z := step_cost (q.1 - p.1, q.2 - p.2).

(** Every move of the path goes to an adjacent position that
    [is_valid_position] accepts. *)
Fixpoint passable_path (s : Pathfinder) (l : list pos) : Prop :=
  match l with
  | p :: (q :: _) as rest =>
      adjacent p q ∧ is_valid_position s q.1 q.2 = true ∧ passable_path s rest
  | _ => True
  end.

(** Every move of the path goes to an adjacent position. *)
Fixpoint connected_path (l : list pos) : Prop :=
  match l with
  | p :: (q :: _) as rest => adjacent p q ∧ connected_path rest
  | _ => True
  end.

Fixpoint path_cost (l : list pos) : Z :=
  match l with
  | p :: (q :: _) as rest => move_cost p q + path_cost rest
  | _ => 0
  end.

(** A passable path from [a] to [b]. *)
Definition connects (s : Pathfinder) (l : list pos) (a b : pos) : Prop :=
  head l = Some a ∧ last l = Some b ∧ passable_path s l.

(** The parent links of [n] lead back to a root at [root], every link is
    a move onto a valid position, and the costs add up. *)
Fixpoint node_ok (s : Pathfinder) (root : pos) (n : Node) : Prop :=
  match n with
  | mkNode a b c None => (a, b) = root ∧ c = 0
  | mkNode a b c (Some p) =>
      node_ok s root p ∧ adjacent (npos p) (a, b) ∧
      is_valid_position s a b = true ∧ c = cost p + move_cost (npos p) (a, b)
  end.


(** *** The outside world *)

(** A batch of events with no window close and no space key. *)
Definition quiet (evs : list Event) : Prop :=
  (QUIT ∉ evs) ∧ (KEYDOWN K_SPACE ∉ evs).

(** Dynamic obstacles are disabled, the run is not paused and nothing will
    pause or cancel it. *)
Definition calm (s : Pathfinder) : Prop :=
  enable_dynamic_obstacles s = false ∧ paused s = false ∧
  ∀ k, quiet (events s k).

(** [s'] is [s] after some steps of a search that nothing disturbs: the
    same setup and the same valid positions. *)
Definition same_world (s s' : Pathfinder) : Prop :=
  same_setup s s' ∧ paused s' = paused s ∧
  ∀ r c, is_valid_position s' r c = is_valid_position s r c.

(** The positions of the grid. *)
Definition all_cells (s : Pathfinder) : gset pos :=
  list_to_set (grid_positions s).

(** *** The invariant of uniform-cost search

    [s0] is the pathfinder the search started in; [priority_queue],
    [visited] and [costs] are the locals of the loop. *)

(** The frontier: a heap of well-formed nodes; [costs] holds, for every
    position that was pushed, the least cost pushed so far, and a node of
    that cost is still in the heap while the position is open. *)
Record ucs_frontier (s0 : Pathfinder) (priority_queue : list Node)
    (visited : gset pos) (costs : gmap pos Z) : Prop := {
  ucs_heap : heap_ordered priority_queue;
  ucs_nodes : ∀ n, n ∈ priority_queue → node_ok s0 (start s0) n;
  ucs_costs_le : ∀ n, n ∈ priority_queue →
    ∃ c, costs !! npos n = Some c ∧ c <= cost n;
  ucs_costs_in : ∀ p c, costs !! p = Some c → p ∉ visited →
    ∃ n, n ∈ priority_queue ∧ npos n = p ∧ cost n = c
}.

(** The closed set: a closed position has its least cost in [costs], and
    each of its valid neighbours is closed or waits in the heap at no more
    than that cost plus the move. *)
Record ucs_closed (s0 : Pathfinder) (priority_queue : list Node)
    (visited : gset pos) (costs : gmap pos Z) : Prop := {
  ucs_settled : ∀ u, u ∈ visited →
    ∃ c, costs !! u = Some c ∧
      (∀ l, connects s0 l (start s0) u → c <= path_cost l) ∧
      (∀ v, adjacent u v → is_valid_position s0 v.1 v.2 = true →
         v ∈ visited ∨
         ∃ n, n ∈ priority_queue ∧ npos n = v ∧ cost n <= c + move_cost u v);
  ucs_start :
    start s0 ∈ visited ∨
    (priority_queue = [start_node s0] ∧ visited = ∅ ∧
     costs = {[start s0 := 0]});
  ucs_target : target s0 ∉ visited
}.

(** What is left to do: the nodes to pop, and eight pushes for every
    position that is not closed yet. *)
Definition ucs_measure (s0 : Pathfinder) (priority_queue : list Node)
    (visited : gset pos) : nat :=
  (length priority_queue + 8 * size (all_cells s0 ∖ visited) +
   (if decide (start s0 ∈ visited) then 0 else 8))%nat.

(** *** Observing a run of uniform-cost search *)



(** *** Example grids *)

(** The grid of the application, with obstacles that are never drawn. *)
Definition maze : Pathfinder := init no_rng no_events.

(** An open square grid without dynamic obstacles and without events. *)
Definition open_grid (n : Z) (st tg : pos) : Pathfinder :=
  configure n n [] st tg false no_rng no_events.

(** The sample maze with a random source that converts a cell at once. *)
Definition maze_hit : Pathfinder := init (fun _ => (0%Q, 7%nat)) no_events.

(** A corridor of one row and six cells: five moves from end to end. *)
Definition corridor : Pathfinder :=
  configure 1 6 [] (0, 0) (0, 5) false no_rng no_events.

(** *** The invariant of bidirectional search *)





(** *** What a run leaves in place *)

Definition run_state {L : Type} (r : Run L) : Pathfinder :=
  match r with Done _ s => s | Running s _ => s end.

(** The markers of [s0] are where they were, and their cells say so. *)
Definition markers_kept (s0 s : Pathfinder) : Prop :=
  start s = start s0 ∧ target s = target s0 ∧
  cell s (start s0) = START ∧ cell s (target s0) = TARGET.

(** [markers_kept], and the grid is well formed if it was. *)
Definition steady (s0 s : Pathfinder) : Prop :=
  markers_kept s0 s ∧ (grid_wf s0 → grid_wf s).

(** The cell of [p] carries a marker or a colour of the search: it is
    neither empty nor blocked. *)
Definition marked (s : Pathfinder) (p : pos) : Prop :=
  cell s p ∈ [START; TARGET; FRONTIER; EXPLORED].

Definition queued_ok (s : Pathfinder) (queue : list Node) : Prop :=
  ∀ n, n ∈ queue → marked s (npos n).

(** The two visited maps keep their roots, and both queues are
    [queued_ok] on a well-formed grid. *)
Definition bidi_steady (s0 s : Pathfinder) (l : BidiLocals) : Prop :=
  steady s0 s ∧ is_Some (forward_visited l !! start s0) ∧
  is_Some (backward_visited l !! target s0) ∧
  (grid_wf s0 →
   queued_ok s (forward_queue l) ∧ queued_ok s (backward_queue l)).

(** The space key, respectively a window close, in the first batch of
    events; nothing afterwards. *)
Definition space_once : nat → list Event :=
  fun k => match k with O => [KEYDOWN K_SPACE] | S _ => [] end.

Definition quit_once : nat → list Event :=
  fun k => match k with O => [QUIT] | S _ => [] end.

(** The open 3 x 3 grid, from corner to corner, with these events. *)
Definition small_grid (ev : nat → list Event) : Pathfinder :=
  configure 3 3 [] (0, 0) (2, 2) false no_rng ev.

(** A 3 x 3 grid whose middle row is a wall: the target cannot be
    reached. *)
Definition walled_grid : Pathfinder :=
  configure 3 3 [(1, 0); (1, 1); (1, 2)] (0, 0) (2, 2) false no_rng no_events.

(** What the caller of [run_algorithm] gets to see: the printed line and
    the flags. *)
Definition report (r : option (option Message * Pathfinder))
  : option (option Message * bool * bool) :=
  match r with
  | Some (m, s) => Some (m, is_searching s, search_complete s)
  | None => None
  end.

(** ** Vocabulary of the further properties *)

Definition is_space_key (e : Event) : bool :=
  match e with KEYDOWN K_SPACE => true | _ => false end.

(** The number of [K_SPACE] key presses in a batch of events. *)
Definition space_presses (evs : list Event) : nat :=
  length (List.filter is_space_key evs).

(** The number of positions on the way from the root to [n]. *)
Definition depth (n : Node) : nat := length (chain n).

(** The invariant of BFS and DFS in a world that nothing disturbs: [queue]
    is the queue or the stack, [visited] the set of the loop. *)
Record search_inv (s0 : Pathfinder) (queue : list Node) (visited : gset pos)
  : Prop := {
  search_nodes : ∀ n, n ∈ queue →
    node_ok s0 (start s0) n ∧ NoDup (chain n) ∧ ∀ p, p ∈ chain n → p ∈ visited;
  search_closed : ∀ u, u ∈ visited →
    (∃ n, n ∈ queue ∧ npos n = u) ∨
    (∀ v, adjacent u v → is_valid_position s0 v.1 v.2 = true → v ∈ visited);
  search_start : start s0 ∈ visited;
  search_target : target s0 ∈ visited → ∃ n, n ∈ queue ∧ npos n = target s0
}.

Definition search_measure (s0 : Pathfinder) (queue : list Node)
    (visited : gset pos) : nat :=
  (length queue + size (all_cells s0 ∖ visited))%nat.

(** The queue of BFS holds the nodes of one depth followed by those of the
    next, and no path to the position of a queued node is shorter than the
    node's own. *)
Definition bfs_levels (s0 : Pathfinder) (queue : list Node) : Prop :=
  (∃ d A B, queue = A ++ B ∧ (∀ n, n ∈ A → depth n = d) ∧
            (∀ n, n ∈ B → depth n = S d)) ∧
  (∀ n l, n ∈ queue → connects s0 l (start s0) (npos n) →
          (depth n ≤ length l)%nat).

(** What a finished run of a complete strategy returns. *)
Definition found_or_unreachable (s0 : Pathfinder) (r : Result) : Prop :=
  match r with
  | RetTrue path => connects s0 path (start s0) (target s0) ∧ NoDup path
  | RetFalse => ¬ ∃ l, connects s0 l (start s0) (target s0)
  end.

(** One of the two searches of [bidirectional_search] in a world that
    nothing disturbs: the nodes of its queue and of its visited map lead
    back to its root over valid positions. *)
Record bidi_calm_side (s0 : Pathfinder) (root : pos) (queue : list Node)
    (visited : gmap pos Node) : Prop := {
  side_nodes : ∀ n, n ∈ queue → node_ok s0 root n ∧ npos n ∈ dom visited;
  side_map : ∀ p n, visited !! p = Some n → npos n = p ∧ node_ok s0 root n;
  side_root : root ∈ dom visited
}.

(** A visited position still waits in the queue, or all of its valid
    neighbours are visited. *)
Definition bidi_closed (s0 : Pathfinder) (queue : list Node)
    (visited : gmap pos Node) : Prop :=
  ∀ u, u ∈ dom visited →
    (∃ n, n ∈ queue ∧ npos n = u) ∨
    (∀ v, adjacent u v → is_valid_position s0 v.1 v.2 = true → v ∈ dom visited).

(** Both sides, and a position that both have visited waits in one of the
    two queues. *)
Definition bidi_calm_inv (s0 : Pathfinder) (l : BidiLocals) : Prop :=
  bidi_calm_side s0 (start s0) (forward_queue l) (forward_visited l) ∧
  bidi_calm_side s0 (target s0) (backward_queue l) (backward_visited l) ∧
  bidi_closed s0 (forward_queue l) (forward_visited l) ∧
  (∀ p, p ∈ dom (forward_visited l) → p ∈ dom (backward_visited l) →
     (∃ n, n ∈ forward_queue l ∧ npos n = p) ∨
     (∃ n, n ∈ backward_queue l ∧ npos n = p)).

Definition bidi_measure (s0 : Pathfinder) (l : BidiLocals) : nat :=
  (length (forward_queue l) + size (all_cells s0 ∖ dom (forward_visited l)) +
   (length (backward_queue l) +
    size (all_cells s0 ∖ dom (backward_visited l))))%nat.

(** The paths that a strategy can find: all of them, or those of a bounded
    number of positions for the two depth-bounded strategies (limit 15,
    respectively depths 0 to 29). *)
Definition within_reach (a : Algorithm) (l : list pos) : Prop :=
  match a with
  | DLS => (length l ≤ 16)%nat
  | IDDFS => (length l ≤ 30)%nat
  | _ => True
  end.






(** ** The control panel

    A [Button] is its rectangle ([pygame.Rect]); its text, its colour and
    its [hovered] flag are read by [Button.draw] only.  [Rect.collidepoint]
    holds for the points inside the rectangle, the right and the bottom
    edge excluded. *)

Record Rect := mkRect { rect_x : Z; rect_y : Z; rect_w : Z; rect_h : Z }.

Definition collidepoint (r : Rect) (pos : Z * Z) : bool :=
  (rect_x r <=? pos.1) && (pos.1 <? rect_x r + rect_w r) &&
  (rect_y r <=? pos.2) && (pos.2 <? rect_y r + rect_h r).

(** [Button(x, y, width, height, text)] and [Button.is_clicked] *)
Definition Button (left top width height : Z) : Rect :=
  mkRect left top width height.

Definition is_clicked (b : Rect) (pos : Z * Z) : bool := collidepoint b pos.

(** [setup_ui] *)
Definition algorithms : list Algorithm :=
  [BFS; DFS; UCS; DLS; IDDFS; Bidirectional].

Definition modes : list Mode := [MODE_WALL; MODE_START; MODE_TARGET].

Definition panel_x (s : Pathfinder) : Z := grid_width s + 10.

Definition algo_buttons (s : Pathfinder) : list (Rect * Algorithm) :=
  imap (fun i algo => (Button (panel_x s) (50 + Z.of_nat i * 35) 120 30, algo))
       algorithms.

Definition start_button (s : Pathfinder) : Rect := Button (panel_x s) 280 80 30.
Definition pause_button (s : Pathfinder) : Rect :=
  Button (panel_x s + 90) 280 80 30.
Definition reset_button (s : Pathfinder) : Rect := Button (panel_x s) 320 80 30.
Definition clear_button (s : Pathfinder) : Rect :=
  Button (panel_x s + 90) 320 80 30.

Definition mode_buttons (s : Pathfinder) : list (Rect * Mode) :=
  imap (fun i mode => (Button (panel_x s) (380 + Z.of_nat i * 35) 120 30, mode))
       modes.

(** The speed buttons with their delays: Slow, Normal, Fast. *)
Definition speed_buttons (s : Pathfinder) : list (Rect * Z) :=
  imap (fun i delay =>
          (Button (panel_x s + 140) (50 + Z.of_nat i * 35) 80 30, delay))
       [200; 100; 50].

Definition dynamic_toggle (s : Pathfinder) : Rect :=
  Button (panel_x s) 500 150 30.

(** The buttons in the order of [update_button_hover], which sets the
    [hovered] flag of each. *)
Definition all_buttons (s : Pathfinder) : list Rect :=
  (algo_buttons s).*1 ++
  [start_button s; pause_button s; reset_button s; clear_button s] ++
  (mode_buttons s).*1 ++ (speed_buttons s).*1 ++ [dynamic_toggle s].

Definition update_button_hover (s : Pathfinder) (pos : Z * Z) : list bool :=
  (fun b => is_clicked b pos) <$> all_buttons s.

(** The application: the pathfinder and the delay of a step, which only
    [pygame.time.wait] reads. *)
Record App := mkApp { pathfinder : Pathfinder; step_delay : Z }.

Definition with_dynamic (b : bool) (s : Pathfinder) : Pathfinder :=
  mkPathfinder (grid_size s) (rows s) (cols s) (grid s) (start s) (target s)
    (current_algorithm s) (is_searching s) (search_complete s) (paused s)
    (current_mode s) (dynamic_obstacle_probability s)
    b (dynamic_obstacles_added s)
    (rng s) (rng_pos s) (events s) (polls s).

(** The Reset button and the key [r]. *)
Definition reset (s : Pathfinder) : Pathfinder :=
  let s := clear_search_visualization s in
  with_flags false (search_complete s) false s.

(** The [if]/[elif] chain of the four control buttons; [None] when the
    search that the Start button runs is not over after [fuel]
    iterations. *)
Definition control_buttons (fuel : nat) (pos : Z * Z) (s : Pathfinder)
  : option Pathfinder :=
  if is_clicked (start_button s) pos && negb (is_searching s) then
    snd <$> run_algorithm fuel s
  else if is_clicked (pause_button s) pos then
    Some (with_paused (negb (paused s)) s)
  else if is_clicked (reset_button s) pos then Some (reset s)
  else if is_clicked (clear_button s) pos then
    let s := clear_all s in
    Some (with_flags false (search_complete s) false s)
  else Some s.

Definition handle_button_click (fuel : nat) (pos : Z * Z) (a : App)
  : option App :=
  let s := pathfinder a in
  match List.find (fun b => is_clicked b.1 pos) (algo_buttons s) with
  | Some (_, algo) =>
      Some (mkApp (clear_search_visualization (with_algorithm algo s))
                  (step_delay a))
  | None =>
      match List.find (fun b => is_clicked b.1 pos) (speed_buttons s) with
      | Some (_, delay) => Some (mkApp s delay)
      | None =>
          match control_buttons fuel pos s with
          | None => None
          | Some s1 =>
              match List.find (fun b => is_clicked b.1 pos) (mode_buttons s)
              with
              | Some (_, mode) => Some (mkApp (with_mode mode s1) (step_delay a))
              | None =>
                  if is_clicked (dynamic_toggle s) pos
                  then Some (mkApp (with_dynamic
                                      (negb (enable_dynamic_obstacles s1)) s1)
                                   (step_delay a))
                  else Some (mkApp s1 (step_delay a))
              end
          end
      end
  end.

(** ** The main loop

    The events of the main loop carry the mouse button and position. *)
Inductive UIEvent :=
  | UI_QUIT
  | UI_MOUSEBUTTONDOWN (button : Z) (pos : Z * Z)
  | UI_KEYDOWN (key : Key)
  | UI_OTHER.

(** The body of [for event in pygame.event.get()] in [run]: the flag
    [running] and the application after one event. *)
Definition handle_main_event (fuel : nat) (e : UIEvent) (st : bool * App)
  : option (bool * App) :=
  let '(running, a) := st in
  let s := pathfinder a in
  match e with
  | UI_QUIT => Some (false, a)
  | UI_MOUSEBUTTONDOWN button pos =>
      if button =? 1 then
        if (pos.1 <? grid_width s) && (pos.2 <? grid_height s) then
          if negb (is_searching s)
          then Some (running, mkApp (handle_grid_click pos s) (step_delay a))
          else Some (running, a)
        else if grid_width s <=? pos.1 then
          pair running <$> handle_button_click fuel pos a
        else Some (running, a)
      else Some (running, a)
  | UI_KEYDOWN key =>
      match key with
      | K_SPACE =>
          if negb (is_searching s)
          then (fun r => (running, mkApp r.2 (step_delay a))) <$>
                 run_algorithm fuel s
          else Some (running, a)
      | K_r => Some (running, mkApp (reset s) (step_delay a))
      | K_other => Some (running, a)
      end
  | UI_OTHER => Some (running, a)
  end.

Definition is_ui_quit (e : UIEvent) : bool :=
  match e with UI_QUIT => true | _ => false end.

(** One pass of the [while running] loop over a batch of events. *)
Fixpoint run_frame (fuel : nat) (evs : list UIEvent) (st : bool * App)
  : option (bool * App) :=
  match evs with
  | [] => Some st
  | e :: evs' =>
      match handle_main_event fuel e st with
      | Some st' => run_frame fuel evs' st'
      | None => None
      end
  end.

(** * Properties *)
Ltac divlia := zify; Z.to_euclidean_division_equations; lia.


(** ** Reading and writing cells *)

Lemma in_grid_spec s p :
  in_grid s p = true ↔ 0 <= p.1 < rows s ∧ 0 <= p.2 < cols s.
Proof.
  unfold in_grid. rewrite !andb_true_iff, !Z.leb_le, !Z.ltb_lt. lia.
Qed.

Lemma is_valid_position_spec s r c :
  is_valid_position s r c = true ↔
  in_grid s (r, c) = true ∧ cell s (r, c) ≠ WALL ∧
  cell s (r, c) ≠ DYNAMIC_OBSTACLE.
Proof.
  unfold is_valid_position, in_grid. simpl.
  rewrite (andb_true_iff _ (negb _)), negb_true_iff, bool_decide_eq_false.
  rewrite !elem_of_cons, elem_of_nil. tauto.
Qed.

Lemma cell_at_set_other g p q v :
  p ≠ q → cell_at (set_cell_at g p v) q = cell_at g q.
Proof.
  intros Hne. unfold cell_at, set_cell_at.
  destruct ((0 <=? p.1) && (0 <=? p.2)) eqn:Hp; [|done].
  destruct ((0 <=? q.1) && (0 <=? q.2)) eqn:Hq; [|done].
  apply andb_true_iff in Hp as [Hp1 Hp2]. apply andb_true_iff in Hq as [Hq1 Hq2].
  apply Z.leb_le in Hp1, Hp2, Hq1, Hq2.
  destruct (decide (Z.to_nat p.1 = Z.to_nat q.1)) as [Hr|Hr].
  - rewrite Hr, list_lookup_alter_eq.
    destruct (g !! Z.to_nat q.1) as [row|]; simpl; [|done].
    rewrite list_lookup_insert_ne; [done|].
    intros Hc. apply Hne. destruct p, q; simpl in *. f_equal; lia.
  - by rewrite list_lookup_alter_ne.
Qed.

Lemma cell_at_set_same g p v :
  cell_at (set_cell_at g p v) p = v ∨
  cell_at (set_cell_at g p v) p = cell_at g p.
Proof.
  unfold cell_at, set_cell_at.
  destruct ((0 <=? p.1) && (0 <=? p.2)) eqn:Hp; [|by right].
  rewrite list_lookup_alter_eq.
  destruct (g !! Z.to_nat p.1) as [row|]; simpl; [|by right].
  destruct (decide (Z.to_nat p.2 < length row)%nat).
  - left. by rewrite list_lookup_insert_eq.
  - right. by rewrite list_insert_ge by lia.
Qed.

Lemma cell_set_other s p q v : p ≠ q → cell (set_cell p v s) q = cell s q.
Proof. apply cell_at_set_other. Qed.

Lemma cell_set_cases s p q v :
  cell (set_cell p v s) q = cell s q ∨ (p = q ∧ cell (set_cell p v s) q = v).
Proof.
  destruct (decide (p = q)) as [->|Hne].
  - destruct (cell_at_set_same (grid s) q v); [right|left]; done.
  - left. by apply cell_set_other.
Qed.

Lemma cell_set_same s p v :
  grid_wf s → in_grid s p = true → cell (set_cell p v s) p = v.
Proof.
  intros [Hlen Hrows] Hin. apply in_grid_spec in Hin.
  unfold cell, set_cell, cell_at, set_cell_at; simpl.
  replace ((0 <=? p.1) && (0 <=? p.2)) with true
    by (symmetry; apply andb_true_iff; split; apply Z.leb_le; lia).
  rewrite list_lookup_alter_eq.
  destruct (lookup_lt_is_Some_2 (grid s) (Z.to_nat p.1)) as [row Hrow]; [lia|].
  rewrite Hrow; simpl.
  rewrite list_lookup_insert_eq; [done|].
  rewrite Forall_forall in Hrows.
  rewrite (Hrows row) by (by eapply list_elem_of_lookup_2). lia.
Qed.

Lemma grid_wf_set_cell s p v : grid_wf s → grid_wf (set_cell p v s).
Proof.
  intros [Hlen Hrows]. unfold grid_wf, set_cell, set_cell_at; simpl.
  destruct ((0 <=? p.1) && (0 <=? p.2)); [|done].
  split; [by rewrite length_alter|].
  apply Forall_alter; [done|]. intros row _ Hrow.
  by rewrite length_insert.
Qed.

Lemma same_setup_refl s : same_setup s s.
Proof. by repeat split. Qed.

Lemma same_setup_trans s1 s2 s3 :
  same_setup s1 s2 → same_setup s2 s3 → same_setup s1 s3.
Proof. unfold same_setup. intros H1 H2. destruct_and!. repeat split; congruence. Qed.

Lemma same_setup_set_cell s p v : same_setup s (set_cell p v s).
Proof. by repeat split. Qed.

(** ** The obstacle injector *)

Lemma elem_of_empty_cells s p :
  p ∈ empty_cells s ↔ in_grid s p = true ∧ cell s p = EMPTY.
Proof.
  rewrite in_grid_spec. unfold empty_cells. rewrite list_elem_of_bind. split.
  - intros (r & Hc & Hr). apply list_elem_of_bind in Hc as (c & Hp & Hc).
    apply elem_of_seqZ in Hr, Hc. case_decide; [|by apply elem_of_nil in Hp].
    apply list_elem_of_singleton in Hp as ->. simpl. split; [lia|done].
  - intros [Hin He]. destruct p as [r c]. simpl in *.
    exists r. split; [|apply elem_of_seqZ; lia].
    apply list_elem_of_bind. exists c. split; [|apply elem_of_seqZ; lia].
    rewrite decide_True by done. apply list_elem_of_singleton. done.
Qed.

Lemma add_dynamic_obstacle_cases s :
  (add_dynamic_obstacle s).1 = false ∧
    grid (add_dynamic_obstacle s).2 = grid s ∧
    dynamic_obstacles_added (add_dynamic_obstacle s).2 =
      dynamic_obstacles_added s ∧
    same_setup s (add_dynamic_obstacle s).2 ∧
    paused (add_dynamic_obstacle s).2 = paused s ∧
    polls (add_dynamic_obstacle s).2 = polls s ∧
    ((∀ p, in_grid s p = true → cell s p ≠ EMPTY) ∨
     ¬ ((rng s (rng_pos s)).1 < dynamic_obstacle_probability s)%Q ∨
     enable_dynamic_obstacles s = false)
  ∨
  ∃ p, (add_dynamic_obstacle s).1 = true ∧
    p ∈ empty_cells s ∧
    enable_dynamic_obstacles s = true ∧
    ((rng s (rng_pos s)).1 < dynamic_obstacle_probability s)%Q ∧
    (add_dynamic_obstacle s).2 =
      with_obstacles (dynamic_obstacles_added s ++ [p])
        (set_cell p DYNAMIC_OBSTACLE (with_rng_pos (S (rng_pos s)) s)).
Proof.
  unfold add_dynamic_obstacle.
  destruct (enable_dynamic_obstacles s) eqn:Hen; simpl.
  2:{ left. repeat split; auto. }
  destruct (rng s (rng_pos s)) as [r k] eqn:Hr; simpl.
  destruct (Qlt_le_dec r (dynamic_obstacle_probability s)) as [Hlt|Hle].
  2:{ left. simpl. repeat split; auto. right. left. by apply Qle_not_lt. }
  destruct (empty_cells s !! (k mod length (empty_cells s))%nat) as [p|] eqn:Hp.
  - right. exists p. simpl. repeat split; auto.
    by eapply list_elem_of_lookup_2.
  - left. simpl. repeat split; auto. left. intros p Hin He.
    assert (Hmem : p ∈ empty_cells s) by by apply elem_of_empty_cells.
    apply lookup_ge_None in Hp.
    destruct (empty_cells s) as [|c cs] eqn:Hcells; [by apply elem_of_nil in Hmem|].
    pose proof (Nat.mod_upper_bound k (length (c :: cs))) as Hb.
    simpl in *. lia.
Qed.

(** C9. [add_dynamic_obstacle] converts only a cell that is [EMPTY]: when it
    returns [True], one cell of the grid that was [EMPTY] is now
    [DYNAMIC_OBSTACLE], it is the position appended to the log, and every
    other cell is as before; a cell in any state other than [EMPTY] keeps
    its state in every case; when no cell is [EMPTY], or the value drawn is
    not below the probability, or obstacles are disabled, it returns
    [False] and leaves the grid and the log as they were. *)
Theorem add_dynamic_obstacle_only_empty (s : Pathfinder) :
  grid_wf s →
  let s' := (add_dynamic_obstacle s).2 in
  ((add_dynamic_obstacle s).1 = true →
     ∃ p, in_grid s p = true ∧ cell s p = EMPTY ∧
          cell s' p = DYNAMIC_OBSTACLE ∧
          (∀ q, q ≠ p → cell s' q = cell s q) ∧
          dynamic_obstacles_added s' = dynamic_obstacles_added s ++ [p]) ∧
  (∀ q, cell s q ≠ EMPTY → cell s' q = cell s q) ∧
  ((∀ p, in_grid s p = true → cell s p ≠ EMPTY) ∨
   ¬ ((rng s (rng_pos s)).1 < dynamic_obstacle_probability s)%Q ∨
   enable_dynamic_obstacles s = false →
     (add_dynamic_obstacle s).1 = false ∧ grid s' = grid s ∧
     dynamic_obstacles_added s' = dynamic_obstacles_added s).
Proof.
  intros Hwf s'. subst s'.
  destruct (add_dynamic_obstacle_cases s)
    as [(Hb & Hg & Hlog & _ & _ & _ & Hwhy)|(p & Hb & Hp & Hen & Hlt & Hs')].
  - split; [rewrite Hb; done|]. split; [|done].
    intros q _. unfold cell. by rewrite Hg.
  - apply elem_of_empty_cells in Hp as [Hin He].
    rewrite Hs'. split; [|split].
    + intros _. exists p. repeat split; auto.
      * by apply (cell_set_same (with_rng_pos _ s)).
      * intros q Hq. by apply (cell_set_other (with_rng_pos _ s)).
    + intros q Hq. apply (cell_set_other (with_rng_pos _ s)). congruence.
    + intros [Hno|[Hdraw|Hoff]].
      * by destruct (Hno p Hin).
      * by destruct Hdraw.
      * congruence.
Qed.

(** ** Editing the grid *)

(** C7, as the code has it.  A click on a cell of the grid in START mode
    (respectively TARGET mode) is never rejected, whatever the state of the
    cell, a wall included: the cell of the prior start (target) is set to
    [EMPTY], the marker moves to the clicked cell, whose state becomes
    [START] ([TARGET]), and every other cell is as before. *)
Theorem handle_grid_click_moves_marker (s : Pathfinder) (click : Z * Z) :
  grid_wf s →
  0 < grid_size s →
  let p := (click.2 / grid_size s, click.1 / grid_size s) in
  in_grid s p = true →
  let s' := handle_grid_click click s in
  (current_mode s = MODE_START →
     start s' = p ∧ target s' = target s ∧ cell s' p = START ∧
     (start s ≠ p → in_grid s (start s) = true → cell s' (start s) = EMPTY) ∧
     (∀ q, q ≠ start s → q ≠ p → cell s' q = cell s q)) ∧
  (current_mode s = MODE_TARGET →
     target s' = p ∧ start s' = start s ∧ cell s' p = TARGET ∧
     (target s ≠ p → in_grid s (target s) = true → cell s' (target s) = EMPTY) ∧
     (∀ q, q ≠ target s → q ≠ p → cell s' q = cell s q)).
Proof.
  intros Hwf Hsize p Hin s'. subst s'. unfold handle_grid_click.
  pose proof Hin as Hin'. unfold in_grid in Hin'. simpl in Hin'.
  assert (Hguard : (click.2 >? grid_height s) = false).
  { apply in_grid_spec in Hin. simpl in Hin. unfold grid_height.
    destruct (Z.gtb_spec click.2 (rows s * grid_size s)) as [Hgt|]; [|done].
    exfalso.
    assert (rows s <= click.2 / grid_size s); [|lia].
    apply Z.div_le_lower_bound; lia. }
  rewrite Hguard, Hin'. fold p.
  split; intros Hmode; rewrite Hmode.
  - set (s1 := with_start p (set_cell (start s) EMPTY s)).
    assert (Hwf1 : grid_wf s1) by by apply (grid_wf_set_cell s).
    repeat split; try done.
    + by apply (cell_set_same s1).
    + intros Hne Hst. rewrite cell_set_other by done.
      by apply (cell_set_same s).
    + intros q Hq1 Hq2. rewrite cell_set_other by done.
      by apply (cell_set_other s).
  - set (s1 := with_target p (set_cell (target s) EMPTY s)).
    assert (Hwf1 : grid_wf s1) by by apply (grid_wf_set_cell s).
    repeat split; try done.
    + by apply (cell_set_same s1).
    + intros Hne Hst. rewrite cell_set_other by done.
      by apply (cell_set_same s).
    + intros q Hq1 Hq2. rewrite cell_set_other by done.
      by apply (cell_set_other s).
Qed.

(** ** [heapq] keeps the heap property and returns a least node *)

Lemma heap_root_min h r :
  heap_ordered h → h !! 0%nat = Some r → ∀ n, n ∈ h → cost r <= cost n.
Proof.
  intros Hh Hr n Hn. apply list_elem_of_lookup in Hn as [j Hj].
  revert n Hj. induction (lt_wf j) as [j _ IH]. intros n Hj.
  destruct (decide (j = 0)%nat) as [->|Hne]; [by simplify_eq|].
  assert (Hlt : ((j - 1) / 2 < j)%nat) by divlia.
  destruct (lookup_lt_is_Some_2 h ((j - 1) / 2)) as [p Hp].
  { apply lookup_lt_Some in Hj. lia. }
  specialize (IH _ Hlt p Hp). specialize (Hh j n p). lia.
Qed.

Lemma insert_swap_head {A} (l : list A) j a b :
  l !! j = Some b → b :: <[j := a]> l ≡ₚ a :: l.
Proof.
  revert j. induction l as [|c l IH]; intros [|j] Hj; simplify_eq/=.
  - apply perm_swap.
  - rewrite (perm_swap c b), (IH _ Hj). apply perm_swap.
Qed.

Lemma insert_swap_head' {A} (l : list A) i a b :
  (i < length l)%nat → a :: <[i := b]> l ≡ₚ b :: <[i := a]> l.
Proof.
  revert i. induction l as [|d l IH]; intros [|i] Hi; simpl in *; try lia.
  - apply perm_swap.
  - rewrite (perm_swap d a), (IH i) by lia. apply perm_swap.
Qed.

Lemma insert_swap_perm {A} (l : list A) i j a b :
  i ≠ j → l !! j = Some b → (i < length l)%nat →
  <[j := a]> (<[i := b]> l) ≡ₚ <[i := a]> l.
Proof.
  revert i j. induction l as [|c l IH]; intros [|i] [|j] Hne Hj Hi;
    simplify_eq/=; try lia.
  - by apply insert_swap_head.
  - apply insert_swap_head'. lia.
  - f_equiv. apply IH; [congruence|done|lia].
Qed.

Lemma siftdown_loop_spec fuel heap pos newitem :
  (pos ≤ fuel)%nat → (pos < length heap)%nat →
  (∀ j c p, (0 < j)%nat → j ≠ pos → heap !! j = Some c →
            heap !! ((j - 1) / 2)%nat = Some p → cost p <= cost c) →
  (∀ c n, (0 < c)%nat → ((c - 1) / 2)%nat = pos → heap !! c = Some n →
          cost newitem <= cost n) →
  (∀ c n g, (0 < pos)%nat → (0 < c)%nat → ((c - 1) / 2)%nat = pos →
            heap !! c = Some n → heap !! ((pos - 1) / 2)%nat = Some g →
            cost g <= cost n) →
  heap_ordered (siftdown_loop fuel heap 0 pos newitem) ∧
  siftdown_loop fuel heap 0 pos newitem ≡ₚ <[pos := newitem]> heap.
Proof.
  revert heap pos. induction fuel as [|fuel IH]; intros heap pos Hfuel Hpos Hord Hch Hgr.
  - assert (pos = 0)%nat as -> by lia. simpl. split; [|done].
    intros j c p Hj Hc Hp. rewrite list_lookup_insert_ne in Hc by lia.
    assert ((j - 1) / 2 = 0 ∨ (j - 1) / 2 ≠ 0)%nat as [Hz|Hz] by lia.
    + rewrite Hz in Hp. rewrite list_lookup_insert_eq in Hp by done.
      simplify_eq. by eapply Hch.
    + rewrite list_lookup_insert_ne in Hp by lia. eapply Hord; eauto; lia.
  - cbn [siftdown_loop]. destruct (decide (0 < pos)%nat) as [Hgt|Hz].
    2:{ assert (pos = 0)%nat as -> by lia. split; [|done].
        intros j c p Hj Hc Hp. rewrite list_lookup_insert_ne in Hc by lia.
        assert ((j - 1) / 2 = 0 ∨ (j - 1) / 2 ≠ 0)%nat as [Hz'|Hz'] by lia.
        + rewrite Hz' in Hp. rewrite list_lookup_insert_eq in Hp by done.
          simplify_eq. by eapply Hch.
        + rewrite list_lookup_insert_ne in Hp by lia. eapply Hord; eauto; lia. }
    assert (Hpp : ((pos - 1) / 2 < pos)%nat) by divlia.
    destruct (lookup_lt_is_Some_2 heap ((pos - 1) / 2)) as [par Hpar]; [lia|].
    rewrite Hpar. unfold node_lt. destruct (Z.ltb_spec (cost newitem) (cost par)) as [Hlt|Hge].
    + destruct (IH (<[pos := par]> heap) ((pos - 1) / 2)%nat) as [Ho Hp].
      * lia.
      * rewrite length_insert. lia.
      * intros j c p Hj Hne Hc Hp.
        destruct (decide (j = pos)) as [->|Hjp].
        -- rewrite list_lookup_insert_eq in Hc by done.
           rewrite list_lookup_insert_ne in Hp by lia. simplify_eq. lia.
        -- rewrite list_lookup_insert_ne in Hc by done.
           destruct (decide ((j - 1) / 2 = pos)%nat) as [Hjc|Hjc].
           ++ rewrite Hjc, list_lookup_insert_eq in Hp by done. simplify_eq.
              eapply (Hgr j); eauto.
           ++ rewrite list_lookup_insert_ne in Hp by done. eapply Hord; eauto.
      * intros c n Hc Hcp Hn.
        destruct (decide (c = pos)) as [->|Hcne].
        -- rewrite list_lookup_insert_eq in Hn by done. simplify_eq. lia.
        -- rewrite list_lookup_insert_ne in Hn by done.
           assert (cost par <= cost n); [|lia].
           eapply (Hord c); eauto. by rewrite Hcp.
      * intros c n g Hpos' Hc Hcp Hn Hg.
        rewrite list_lookup_insert_ne in Hg by lia.
        assert (Hgp : cost g <= cost par).
        { eapply (Hord ((pos - 1) / 2)%nat); eauto; lia. }
        destruct (decide (c = pos)) as [->|Hcne].
        -- rewrite list_lookup_insert_eq in Hn by done. simplify_eq. lia.
        -- rewrite list_lookup_insert_ne in Hn by done.
           assert (cost par <= cost n); [|lia].
           eapply (Hord c); eauto. by rewrite Hcp.
      * split; [done|]. rewrite Hp. apply insert_swap_perm; [lia|done|done].
    + split; [|done].
      intros j c p Hj Hc Hp.
      destruct (decide (j = pos)) as [->|Hjp].
      * rewrite list_lookup_insert_eq in Hc by done.
        rewrite list_lookup_insert_ne in Hp by lia. simplify_eq. lia.
      * rewrite list_lookup_insert_ne in Hc by done.
        destruct (decide ((j - 1) / 2 = pos)%nat) as [Hjc|Hjc].
        -- rewrite Hjc, list_lookup_insert_eq in Hp by done. simplify_eq.
           eapply (Hch j); eauto.
        -- rewrite list_lookup_insert_ne in Hp by done. eapply Hord; eauto.
Qed.

Lemma siftup_loop_spec fuel heap pos newitem heap' leaf :
  (length heap ≤ fuel + pos)%nat → (pos < length heap)%nat →
  (∀ j c p, (0 < j)%nat → ((j - 1) / 2)%nat ≠ pos → heap !! j = Some c →
            heap !! ((j - 1) / 2)%nat = Some p → cost p <= cost c) →
  (∀ c n g, (0 < pos)%nat → (0 < c)%nat → ((c - 1) / 2)%nat = pos →
            heap !! c = Some n → heap !! ((pos - 1) / 2)%nat = Some g →
            cost g <= cost n) →
  siftup_loop fuel heap (length heap) pos = (heap', leaf) →
  length heap' = length heap ∧ (leaf < length heap)%nat ∧
  (length heap ≤ 2 * leaf + 1)%nat ∧ heap_ordered heap' ∧
  <[leaf := newitem]> heap' ≡ₚ <[pos := newitem]> heap.
Proof.
  revert heap pos. induction fuel as [|fuel IH];
    intros heap pos Hfuel Hpos Hord Hgr; [lia|].
  cbn [siftup_loop].
  destruct (decide (2 * pos + 1 < length heap)%nat) as [Hlt|Hge].
  2:{ intros Hrun. simplify_eq. repeat split; try done; try lia.
      intros j c p Hj Hc Hp. eapply Hord; eauto.
      apply lookup_lt_Some in Hc. divlia. }
  destruct (lookup_lt_is_Some_2 heap (2 * pos + 1)) as [l Hl]; [lia|].
  rewrite Hl. intros Hrun.
  (* the smaller child [c0], its value [v] *)
  assert (∃ c0 v, (c0 = 2 * pos + 1 ∨ c0 = 2 * pos + 2)%nat ∧
            heap !! c0 = Some v ∧
            (∀ c n, (0 < c)%nat → ((c - 1) / 2)%nat = pos →
                    heap !! c = Some n → cost v <= cost n) ∧
            siftup_loop fuel (<[pos := v]> heap) (length heap) c0
              = (heap', leaf)) as (c0 & v & Hc0 & Hv & Hmin & Hrun').
  { assert (Hchild : ∀ c n, (0 < c)%nat → ((c - 1) / 2)%nat = pos →
              heap !! c = Some n →
              (c = 2 * pos + 1)%nat ∧ n = l ∨
              (c = 2 * pos + 1 + 1)%nat ∧ heap !! (2 * pos + 1 + 1)%nat = Some n).
    { intros c n Hc Hcp Hn.
      assert (c = 2 * pos + 1 ∨ c = 2 * pos + 1 + 1)%nat as [->| ->] by divlia.
      - left. split; [done|congruence].
      - by right. }
    revert Hrun.
    destruct (heap !! (2 * pos + 1 + 1)%nat) as [r|] eqn:Hr.
    - unfold node_lt.
      destruct (bool_decide (2 * pos + 1 + 1 < length heap)%nat) eqn:Hb;
        [|apply bool_decide_eq_false in Hb; apply lookup_lt_Some in Hr; lia].
      destruct (Z.ltb_spec (cost l) (cost r)) as [Hlr|Hrl]; cbn [andb negb];
        intros Hrun.
      + rewrite Hl in Hrun. exists (2 * pos + 1)%nat, l.
        repeat split; auto.
        intros c n Hc Hcp Hn.
        destruct (Hchild c n Hc Hcp Hn) as [[_ ->]|[_ ?]]; [lia|].
        simplify_eq. lia.
      + rewrite Hr in Hrun. exists (2 * pos + 1 + 1)%nat, r.
        split; [right; lia|]. repeat split; auto.
        intros c n Hc Hcp Hn.
        destruct (Hchild c n Hc Hcp Hn) as [[_ ->]|[_ ?]]; [lia|].
        simplify_eq. lia.
    - intros Hrun. rewrite Hl in Hrun.
      exists (2 * pos + 1)%nat, l. repeat split; auto.
      intros c n Hc Hcp Hn.
      destruct (Hchild c n Hc Hcp Hn) as [[_ ->]|[_ ?]]; [lia|done]. }
  clear Hrun.
  assert (Hc0lt : (c0 < length heap)%nat) by (by eapply lookup_lt_Some).
  assert (Hc0p : ((c0 - 1) / 2 = pos)%nat) by divlia.
  rewrite <- (length_insert heap pos v) in Hrun'.
  apply IH in Hrun' as (Hlen & Hleaf & Hnoch & Ho & Hperm).
  - rewrite length_insert in *. repeat split; try done.
    rewrite Hperm. apply insert_swap_perm; [lia|done|done].
  - rewrite length_insert. lia.
  - by rewrite length_insert.
  - intros j c p Hj Hjp Hc Hp.
    destruct (decide (j = pos)) as [->|Hjne].
    + rewrite list_lookup_insert_eq in Hc by done.
      rewrite list_lookup_insert_ne in Hp by divlia. simplify_eq.
      eapply (Hgr c0); eauto; lia.
    + rewrite list_lookup_insert_ne in Hc by done.
      destruct (decide ((j - 1) / 2 = pos)%nat) as [Hjc|Hjc].
      * rewrite Hjc, list_lookup_insert_eq in Hp by done. simplify_eq.
        by eapply (Hmin j).
      * rewrite list_lookup_insert_ne in Hp by done. eapply Hord; eauto.
  - intros c n g _ Hc Hcp Hn Hg.
    rewrite Hc0p, list_lookup_insert_eq in Hg by done. simplify_eq.
    rewrite list_lookup_insert_ne in Hn by divlia.
    eapply (Hord c); [lia|divlia|done|done].
Qed.

Lemma _siftdown_leaf_spec heap pos newitem :
  heap !! pos = Some newitem →
  (length heap ≤ 2 * pos + 1)%nat →
  (∀ j c p, (0 < j)%nat → j ≠ pos → heap !! j = Some c →
            heap !! ((j - 1) / 2)%nat = Some p → cost p <= cost c) →
  heap_ordered (_siftdown heap 0 pos) ∧ _siftdown heap 0 pos ≡ₚ heap.
Proof.
  intros Hpos Hleaf Hord. unfold _siftdown. rewrite Hpos.
  pose proof (lookup_lt_Some _ _ _ Hpos) as Hlt.
  destruct (siftdown_loop_spec pos heap pos newitem) as [Ho Hp]; try done.
  - intros c n Hc Hcp Hn. apply lookup_lt_Some in Hn. divlia.
  - intros c n g _ Hc Hcp Hn. apply lookup_lt_Some in Hn. divlia.
  - split; [done|]. by rewrite Hp, list_insert_id.
Qed.

Lemma _siftup_root_spec heap :
  (∀ j c p, (0 < j)%nat → ((j - 1) / 2)%nat ≠ 0%nat → heap !! j = Some c →
            heap !! ((j - 1) / 2)%nat = Some p → cost p <= cost c) →
  heap_ordered (_siftup heap 0) ∧ _siftup heap 0 ≡ₚ heap.
Proof.
  intros Hord. unfold _siftup.
  destruct (heap !! 0%nat) as [newitem|] eqn:H0.
  2:{ split; [|done]. apply lookup_ge_None in H0.
      destruct heap; simpl in *; [|lia]. intros j c p _ Hc. done. }
  pose proof (lookup_lt_Some _ _ _ H0) as Hlt.
  destruct (siftup_loop (length heap) heap (length heap) 0) as [heap' leaf] eqn:Hrun.
  apply (siftup_loop_spec _ _ _ newitem) in Hrun
    as (Hlen & Hleaf & Hnoch & Ho & Hperm); try done; try lia.
  destruct (_siftdown_leaf_spec (<[leaf := newitem]> heap') leaf newitem)
    as [Ho' Hp'].
  - apply list_lookup_insert_eq. lia.
  - rewrite length_insert. lia.
  - intros j c p Hj Hne Hc Hp.
    rewrite list_lookup_insert_ne in Hc by done.
    pose proof (lookup_lt_Some _ _ _ Hc) as Hjlt.
    rewrite list_lookup_insert_ne in Hp by divlia.
    by eapply Ho.
  - split; [done|]. by rewrite Hp', Hperm, list_insert_id.
Qed.

Lemma heappush_spec h item :
  heap_ordered h →
  heap_ordered (heappush h item) ∧ heappush h item ≡ₚ item :: h.
Proof.
  intros Ho. unfold heappush.
  destruct (_siftdown_leaf_spec (h ++ [item]) (length h) item) as [Ho' Hp].
  - by rewrite list_lookup_middle.
  - rewrite length_app. simpl. lia.
  - intros j c p Hj Hne Hc Hp.
    pose proof (lookup_lt_Some _ _ _ Hc) as Hjlt.
    rewrite length_app in Hjlt. simpl in Hjlt.
    rewrite lookup_app_l in Hc by lia.
    rewrite lookup_app_l in Hp by divlia. by eapply Ho.
  - split; [done|]. rewrite Hp. by rewrite Permutation_app_comm.
Qed.

Lemma heappop_singleton n : heappop [n] = Some (n, []).
Proof. done. Qed.

Lemma heappop_nil h : heappop h = None ↔ h = [].
Proof.
  unfold heappop. destruct h as [|a l _] using rev_ind; [done|].
  rewrite last_snoc, removelast_last. split; [|by destruct l].
  destruct l; done.
Qed.

Lemma heappop_spec h a h' :
  heap_ordered h → heappop h = Some (a, h') →
  (∀ n, n ∈ h → cost a <= cost n) ∧ a :: h' ≡ₚ h ∧ heap_ordered h'.
Proof.
  intros Ho. unfold heappop. destruct h as [|lastelt l _] using rev_ind; [done|].
  rewrite last_snoc, removelast_last.
  destruct l as [|returnitem rest]; intros Hpop; simplify_eq.
  - repeat split; [|done|by intros [|j] ???].
    intros n Hn. apply list_elem_of_singleton in Hn. by subst.
  - destruct (_siftup_root_spec (lastelt :: rest)) as [Ho' Hp].
    + assert (Hpre : ∀ k c, k ≠ 0%nat → (lastelt :: rest) !! k = Some c →
                (a :: rest ++ [lastelt]) !! k = Some c).
      { intros [|k] c Hk Hc; [done|]. simpl in *.
        rewrite lookup_app_l; [done|by eapply lookup_lt_Some]. }
      intros j c p Hj Hjp Hc Hp.
      apply (Ho j c p Hj); apply Hpre; auto; lia.
    + repeat split; [|rewrite Hp|done].
      * by apply heap_root_min.
      * simpl. f_equiv. by rewrite Permutation_app_comm.
Qed.

(** ** Nodes and paths *)

Lemma Node_ind (P : Node → Prop) :
  (∀ a b c, P (mkNode a b c None)) →
  (∀ a b c p, P p → P (mkNode a b c (Some p))) →
  ∀ n, P n.
Proof.
  intros Hroot Hstep. fix IH 1.
  intros [a b c [p|]]; [apply Hstep, IH|apply Hroot].
Qed.

Lemma step_cost_pos d : 0 < step_cost d.
Proof. unfold step_cost. case_match; lia. Qed.

Lemma move_cost_pos p q : 0 < move_cost p q.
Proof. apply step_cost_pos. Qed.

Lemma path_cost_nonneg l : 0 <= path_cost l.
Proof.
  induction l as [|p [|q l] IH]; simpl in *; try lia.
  pose proof (move_cost_pos p q). lia.
Qed.

Lemma path_cost_app l1 a l2 :
  path_cost (l1 ++ a :: l2) = path_cost (l1 ++ [a]) + path_cost (a :: l2).
Proof.
  induction l1 as [|p [|q l1] IH]; simpl in *; try lia.
Qed.

Lemma passable_path_app s l1 a l2 :
  passable_path s (l1 ++ a :: l2) ↔
  passable_path s (l1 ++ [a]) ∧ passable_path s (a :: l2).
Proof.
  induction l1 as [|p [|q l1] IH]; simpl in *; try tauto.
Qed.


Lemma passable_connected s l : passable_path s l → connected_path l.
Proof.
  induction l as [|p [|q l] IH]; simpl in *; try tauto.
Qed.

Lemma reconstruct_path_snoc n :
  reconstruct_path n =
  match parent n with
  | Some p => reconstruct_path p ++ [npos n]
  | None => [npos n]
  end.
Proof.
  destruct n as [a b c [p|]]; unfold reconstruct_path; simpl.
  - by rewrite reverse_cons.
  - done.
Qed.

Lemma reconstruct_path_last n : ∃ l, reconstruct_path n = l ++ [npos n].
Proof.
  rewrite reconstruct_path_snoc. destruct (parent n); [eauto|by exists []].
Qed.

Lemma node_ok_path s root n :
  node_ok s root n →
  connects s (reconstruct_path n) root (npos n) ∧
  path_cost (reconstruct_path n) = cost n.
Proof.
  induction n as [a b c|a b c p IH] using Node_ind.
  - intros [<- ->]. by repeat split.
  - intros (Hp & Hadj & Hvalid & ->). destruct (IH Hp) as [(Hh & Hl & Hpass) Hc].
    rewrite reconstruct_path_snoc. simpl.
    destruct (reconstruct_path_last p) as [l Hlp]. rewrite Hlp in *.
    repeat split.
    + destruct l; simpl in *; done.
    + by rewrite last_snoc.
    + rewrite <- app_assoc. apply passable_path_app. split; [done|]. simpl. done.
    + rewrite <- app_assoc. cbn [app]. rewrite path_cost_app, Hc.
      cbn [path_cost cost]. change (npos (mkNode a b _ _)) with (a, b). lia.
Qed.

Lemma adjacent_directions p q :
  adjacent p q ↔ ∃ d, d ∈ directions ∧ q = (p.1 + d.1, p.2 + d.2).
Proof.
  unfold adjacent. split.
  - intros Hd. eexists; split; [exact Hd|]. destruct p, q; simpl. f_equal; lia.
  - intros (d & Hd & ->). simpl.
    replace (p.1 + d.1 - p.1, p.2 + d.2 - p.2) with d; [done|].
    destruct d; simpl; f_equal; lia.
Qed.

Lemma get_neighbors_spec s n nb :
  nb ∈ get_neighbors s n ↔
  ∃ q, adjacent (npos n) q ∧ is_valid_position s q.1 q.2 = true ∧
       nb = mkNode q.1 q.2 (cost n + move_cost (npos n) q) (Some n).
Proof.
  unfold get_neighbors. rewrite list_elem_of_omap. split.
  - intros (d & Hd & Hnb). case_match eqn:Hv; [|done]. simplify_eq.
    exists (x n + d.1, y n + d.2). split; [|split; [done|]].
    + apply adjacent_directions. eauto.
    + unfold move_cost, npos. simpl.
      replace (x n + d.1 - x n, y n + d.2 - y n) with d; [done|].
      destruct d; simpl; f_equal; lia.
  - intros (q & Hadj & Hv & ->).
    exists (q.1 - x n, q.2 - y n). split; [exact Hadj|]. simpl.
    replace (x n + (q.1 - x n)) with q.1 by lia.
    replace (y n + (q.2 - y n)) with q.2 by lia.
    rewrite Hv. done.
Qed.

Lemma omap_length_le {A B} (f : A → option B) (l : list A) :
  (length (omap f l) ≤ length l)%nat.
Proof.
  induction l as [|a l IH]; [done|]. cbn. destruct (f a); cbn in *; lia.
Qed.

Lemma get_neighbors_length s n : (length (get_neighbors s n) ≤ 8)%nat.
Proof. unfold get_neighbors. etrans; [apply omap_length_le|]. done. Qed.

Lemma get_neighbors_ext s s' n :
  (∀ r c, is_valid_position s' r c = is_valid_position s r c) →
  get_neighbors s' n = get_neighbors s n.
Proof.
  intros Hv. unfold get_neighbors.
  induction directions as [|d ds IH]; [done|].
  cbn. rewrite Hv. cbn in IH. by rewrite IH.
Qed.

(** ** A search that nothing disturbs *)

Lemma same_world_refl s : same_world s s.
Proof. split; [apply same_setup_refl|done]. Qed.

Lemma is_valid_position_set_cell s p v r c :
  is_valid_position s p.1 p.2 = true → v ≠ WALL → v ≠ DYNAMIC_OBSTACLE →
  is_valid_position (set_cell p v s) r c = is_valid_position s r c.
Proof.
  intros Hp Hw Hd. apply eq_true_iff_eq. rewrite !is_valid_position_spec.
  apply is_valid_position_spec in Hp as (_ & Hpw & Hpd).
  destruct (cell_set_cases s p (r, c) v) as [->|[-> ->]].
  - done.
  - rewrite <- surjective_pairing in *. unfold in_grid. simpl. tauto.
Qed.

Lemma same_world_set_cell s0 s p v :
  same_world s0 s → is_valid_position s p.1 p.2 = true →
  v ≠ WALL → v ≠ DYNAMIC_OBSTACLE → same_world s0 (set_cell p v s).
Proof.
  intros (Hs & Hp & Hv) Hvalid Hw Hd. split; [|split].
  - eapply same_setup_trans; [done|apply same_setup_set_cell].
  - done.
  - intros r c. rewrite is_valid_position_set_cell by done. apply Hv.
Qed.

Lemma same_world_mark_frontier s0 s p other :
  same_world s0 s → is_valid_position s p.1 p.2 = true →
  same_world s0 (mark_frontier p other s).
Proof.
  intros Hw Hp. unfold mark_frontier. case_bool_decide; [|done].
  by apply same_world_set_cell.
Qed.

Lemma same_world_mark_explored s0 s p root :
  same_world s0 s → (p ≠ root → is_valid_position s p.1 p.2 = true) →
  same_world s0 (mark_explored p root s).
Proof.
  intros Hw Hp. unfold mark_explored. case_bool_decide; [|done].
  apply same_world_set_cell; auto.
Qed.

Lemma handle_events_quiet evs b : quiet evs → handle_events evs b = (true, b).
Proof.
  intros [Hq Hs]. induction evs as [|e evs IH]; [done|].
  apply not_elem_of_cons in Hq as [Hq1 Hq]. apply not_elem_of_cons in Hs as [Hs1 Hs].
  destruct e as [|[]| |]; simpl; auto; done.
Qed.

Lemma handle_events_during_search_calm s0 s :
  calm s0 → same_world s0 s →
  ∃ s', handle_events_during_search s = (true, s') ∧ same_world s0 s'.
Proof.
  intros (_ & _ & Hq) (Hs & Hp & Hv). unfold handle_events_during_search.
  assert (He : events s = events s0) by (unfold same_setup in Hs; tauto).
  rewrite handle_events_quiet by (rewrite He; apply Hq).
  eexists. split; [done|].
  split; [|split]; try done; unfold same_setup in *; simpl; tauto.
Qed.

Lemma add_dynamic_obstacle_calm s0 s :
  calm s0 → same_world s0 s → (add_dynamic_obstacle s).2 = s.
Proof.
  intros (Hoff & _) (Hs & _). unfold add_dynamic_obstacle.
  replace (enable_dynamic_obstacles s) with false; [done|].
  unfold same_setup in Hs. destruct_and!. congruence.
Qed.

Lemma npos_start_node s : npos (start_node s) = start s.
Proof. unfold npos. simpl. by rewrite <- surjective_pairing. Qed.

Lemma npos_target_node s : npos (target_node s) = target s.
Proof. unfold npos. simpl. by rewrite <- surjective_pairing. Qed.

Lemma node_ok_cases s root n :
  node_ok s root n →
  npos n = root ∨ is_valid_position s (x n) (y n) = true.
Proof.
  destruct n as [a b c [p|]]; simpl; [tauto|]. intros [Hr _]. by left.
Qed.

Lemma get_neighbors_node_ok s root n nb :
  node_ok s root n → nb ∈ get_neighbors s n →
  node_ok s root nb ∧ is_valid_position s (x nb) (y nb) = true ∧
  parent nb = Some n.
Proof.
  intros Hn Hnb. apply get_neighbors_spec in Hnb as (q & Hadj & Hv & ->).
  simpl. rewrite <- surjective_pairing. done.
Qed.

(** ** Uniform-cost search *)

Lemma ucs_visit_step s0 s visited pq costs nb :
  same_world s0 s → ucs_frontier s0 pq visited costs →
  node_ok s0 (start s0) nb → is_valid_position s0 (x nb) (y nb) = true →
  ∃ s' pq' costs',
    ucs_visit visited (s, pq, costs) nb = (s', pq', costs') ∧
    same_world s0 s' ∧ ucs_frontier s0 pq' visited costs' ∧
    (∀ n, n ∈ pq → n ∈ pq') ∧ (length pq' ≤ S (length pq))%nat ∧
    (∀ p, p ∈ visited → costs' !! p = costs !! p) ∧
    (npos nb ∈ visited ∨
     ∃ n, n ∈ pq' ∧ npos n = npos nb ∧ cost n <= cost nb).
Proof.
  intros Hw Hf Hnb Hvalid. unfold ucs_visit.
  case_bool_decide as Hvis; simpl.
  2:{ exists s, pq, costs. split_and!; auto. }
  replace (is_valid_position s (x nb) (y nb)) with true
    by (symmetry; destruct Hw as (_ & _ & ->); done).
  assert (Hpush :
    (∀ c, costs !! npos nb = Some c → cost nb < c) →
    ∃ s' pq' costs',
      (mark_frontier (npos nb) (target s) s, heappush pq nb,
       <[npos nb := cost nb]> costs) = (s', pq', costs') ∧
      same_world s0 s' ∧ ucs_frontier s0 pq' visited costs' ∧
      (∀ n, n ∈ pq → n ∈ pq') ∧ (length pq' ≤ S (length pq))%nat ∧
      (∀ p, p ∈ visited → costs' !! p = costs !! p) ∧
      (npos nb ∈ visited ∨
       ∃ n, n ∈ pq' ∧ npos n = npos nb ∧ cost n <= cost nb)).
  { intros Hlt. destruct (heappush_spec pq nb (ucs_heap _ _ _ _ Hf)) as [Ho Hp].
    eexists _, _, _. split; [done|]. split; [|split; [split|]].
    - apply same_world_mark_frontier; [done|].
      destruct Hw as (_ & _ & ->); done.
    - done.
    - intros n Hn. rewrite Hp in Hn. apply elem_of_cons in Hn as [->|Hn]; [done|].
      by apply Hf.
    - intros n Hn. rewrite Hp in Hn.
      destruct (decide (npos n = npos nb)) as [Heq|Hne].
      + rewrite Heq, lookup_insert_eq. eexists; split; [done|].
        apply elem_of_cons in Hn as [->|Hn]; [lia|].
        destruct (ucs_costs_le _ _ _ _ Hf n Hn) as (c & Hc & Hle).
        rewrite Heq in Hc. specialize (Hlt c Hc). lia.
      + rewrite lookup_insert_ne by done.
        apply elem_of_cons in Hn as [->|Hn]; [done|]. by apply Hf.
    - intros p c Hc Hp'. destruct (decide (p = npos nb)) as [->|Hne].
      + rewrite lookup_insert_eq in Hc. simplify_eq. exists nb.
        rewrite Hp. split; [left|done].
      + rewrite lookup_insert_ne in Hc by done.
        destruct (ucs_costs_in _ _ _ _ Hf p c Hc Hp') as (n & Hn & Hnp & Hnc).
        exists n. rewrite Hp. split; [by right|done].
    - split_and!.
      + intros n Hn. rewrite Hp. by right.
      + by rewrite Hp.
      + intros p Hp'. rewrite lookup_insert_ne; [done|]. set_solver.
      + right. exists nb. rewrite Hp. split; [left|split; [done|lia]]. }
  destruct (costs !! npos nb) as [c|] eqn:Hc.
  - destruct (Z.ltb_spec (cost nb) c) as [Hlt|Hge].
    + apply Hpush. intros; simplify_eq; lia.
    + exists s, pq, costs. split_and!; auto.
      right. destruct (ucs_costs_in _ _ _ _ Hf _ _ Hc Hvis) as (n & Hn & Hnp & Hnc).
      exists n. split_and!; auto. lia.
  - apply Hpush. intros; simplify_eq.
Qed.

Lemma ucs_visit_fold s0 visited nbs : ∀ s pq costs,
  same_world s0 s → ucs_frontier s0 pq visited costs →
  (∀ nb, nb ∈ nbs →
     node_ok s0 (start s0) nb ∧ is_valid_position s0 (x nb) (y nb) = true) →
  ∃ s' pq' costs',
    foldl (ucs_visit visited) (s, pq, costs) nbs = (s', pq', costs') ∧
    same_world s0 s' ∧ ucs_frontier s0 pq' visited costs' ∧
    (∀ n, n ∈ pq → n ∈ pq') ∧
    (length pq' ≤ length pq + length nbs)%nat ∧
    (∀ p, p ∈ visited → costs' !! p = costs !! p) ∧
    (∀ nb, nb ∈ nbs →
       npos nb ∈ visited ∨
       ∃ n, n ∈ pq' ∧ npos n = npos nb ∧ cost n <= cost nb).
Proof.
  induction nbs as [|nb nbs IH]; intros s pq costs Hw Hf Hnbs.
  - exists s, pq, costs. split_and!; auto; try (simpl; lia).
    intros nb Hnb. by apply elem_of_nil in Hnb.
  - destruct (Hnbs nb) as [Hok Hv]; [left|].
    destruct (ucs_visit_step s0 s visited pq costs nb)
      as (s1 & pq1 & costs1 & Hstep & Hw1 & Hf1 & Hsub1 & Hlen1 & Hc1 & Hnb1);
      try done.
    destruct (IH s1 pq1 costs1)
      as (s2 & pq2 & costs2 & Hfold & Hw2 & Hf2 & Hsub2 & Hlen2 & Hc2 & Hnb2);
      try done.
    { intros nb' Hnb'. apply Hnbs. by right. }
    exists s2, pq2, costs2. cbn [foldl]. rewrite Hstep. split_and!; auto.
    + simpl. lia.
    + intros p Hp. rewrite Hc2, Hc1; done.
    + intros nb' Hnb'. apply elem_of_cons in Hnb' as [->|Hnb']; [|by apply Hnb2].
      destruct Hnb1 as [?|(n & Hn & Hnp & Hnc)]; [by left|].
      right. exists n. auto.
Qed.

Lemma path_exit (V : gset pos) (l : list pos) a b :
  head l = Some a → last l = Some b → a ∈ V → b ∉ V →
  ∃ l1 u v l2, l = l1 ++ u :: v :: l2 ∧ u ∈ V ∧ v ∉ V.
Proof.
  revert a. induction l as [|p l IH]; intros a Hh Hl Ha Hb; [done|].
  simpl in Hh. simplify_eq. destruct l as [|q l].
  - simpl in Hl. by simplify_eq.
  - destruct (decide (q ∈ V)) as [Hq|Hq].
    + destruct (IH q) as (l1 & u & v & l2 & -> & Hu & Hv); try done.
      exists (a :: l1), u, v, l2. done.
    + exists [], a, q, l. done.
Qed.

Lemma connects_prefix s l1 u l2 a b :
  connects s (l1 ++ u :: l2) a b → connects s (l1 ++ [u]) a u.
Proof.
  intros (Hh & _ & Hp). split; [|split].
  - destruct l1; done.
  - by rewrite last_snoc.
  - by apply passable_path_app in Hp as [? _].
Qed.

Lemma heappop_elem h a h' n :
  heap_ordered h → heappop h = Some (a, h') → n ∈ h ↔ n = a ∨ n ∈ h'.
Proof.
  intros Ho Hpop. destruct (heappop_spec h a h' Ho Hpop) as (_ & Hp & _).
  by rewrite <- Hp, elem_of_cons.
Qed.

Lemma ucs_pop_bound s0 pq visited costs cur pq' :
  ucs_frontier s0 pq visited costs → ucs_closed s0 pq visited costs →
  heappop pq = Some (cur, pq') → npos cur ∉ visited →
  ∀ l, connects s0 l (start s0) (npos cur) → cost cur <= path_cost l.
Proof.
  intros Hf Hc Hpop Hcur l Hl.
  destruct (heappop_spec pq cur pq' (ucs_heap _ _ _ _ Hf) Hpop) as (Hmin & _ & _).
  destruct (ucs_start _ _ _ _ Hc) as [Hst|(-> & _ & _)].
  - destruct Hl as (Hh & Hla & Hp).
    destruct (path_exit visited l _ _ Hh Hla Hst Hcur)
      as (l1 & u & v & l2 & -> & Hu & Hv).
    destruct (ucs_settled _ _ _ _ Hc u Hu) as (c & _ & Hlow & Hedge).
    assert (Hpre : connects s0 (l1 ++ [u]) (start s0) u).
    { by eapply (connects_prefix _ _ _ (v :: l2)). }
    apply passable_path_app in Hp as [_ Huv]. simpl in Huv.
    destruct Huv as (Hadj & Hvalid & _).
    destruct (Hedge v Hadj Hvalid) as [?|(n & Hn & Hnp & Hnc)]; [done|].
    specialize (Hmin n Hn). specialize (Hlow _ Hpre).
    rewrite path_cost_app.
    change (path_cost (u :: v :: l2))
      with (move_cost u v + path_cost (v :: l2)).
    pose proof (path_cost_nonneg (v :: l2)). lia.
  - specialize (Hmin (start_node s0)). pose proof (path_cost_nonneg l).
    simpl in Hmin. assert (cost cur <= 0) by (apply Hmin; left). lia.
Qed.

Lemma ucs_pop_cost s0 pq visited costs cur pq' :
  ucs_frontier s0 pq visited costs →
  heappop pq = Some (cur, pq') → npos cur ∉ visited →
  costs !! npos cur = Some (cost cur).
Proof.
  intros Hf Hpop Hcur.
  destruct (heappop_spec pq cur pq' (ucs_heap _ _ _ _ Hf) Hpop) as (Hmin & Hp & _).
  assert (Hin : cur ∈ pq) by (rewrite <- Hp; left).
  destruct (ucs_costs_le _ _ _ _ Hf cur Hin) as (c & Hc & Hle).
  destruct (ucs_costs_in _ _ _ _ Hf _ _ Hc Hcur) as (n & Hn & Hnp & Hnc).
  specialize (Hmin n Hn). rewrite Hc. f_equal. lia.
Qed.

Lemma ucs_frontier_pop s0 pq visited visited' costs cur pq' :
  ucs_frontier s0 pq visited costs →
  heappop pq = Some (cur, pq') →
  visited ⊆ visited' → npos cur ∈ visited' →
  ucs_frontier s0 pq' visited' costs.
Proof.
  intros Hf Hpop Hsub Hcur.
  assert (Hel : ∀ n, n ∈ pq ↔ n = cur ∨ n ∈ pq').
  { intros n. apply heappop_elem; [apply Hf|done]. }
  destruct (heappop_spec pq cur pq' (ucs_heap _ _ _ _ Hf) Hpop) as (_ & _ & Ho).
  split.
  - done.
  - intros n Hn. apply Hf, Hel; auto.
  - intros n Hn. apply Hf, Hel; auto.
  - intros p c Hc Hp.
    destruct (ucs_costs_in _ _ _ _ Hf p c Hc) as (n & Hn & Hnp & Hnc).
    { intros Hv. by apply Hp, Hsub. }
    exists n. split; [|done].
    apply Hel in Hn as [->|Hn]; [congruence|done].
Qed.

Lemma ucs_exhausted s0 visited costs :
  ucs_closed s0 [] visited costs →
  ¬ ∃ l, connects s0 l (start s0) (target s0).
Proof.
  intros Hc (l & Hh & Hl & Hp).
  destruct (ucs_start _ _ _ _ Hc) as [Hst|(? & _)]; [|done].
  destruct (path_exit visited l _ _ Hh Hl Hst (ucs_target _ _ _ _ Hc))
    as (l1 & u & v & l2 & -> & Hu & Hv).
  destruct (ucs_settled _ _ _ _ Hc u Hu) as (c & _ & _ & Hedge).
  apply passable_path_app in Hp as [_ (Hadj & Hvalid & _)].
  destruct (Hedge v Hadj Hvalid) as [?|(n & Hn & _)]; [done|].
  by apply elem_of_nil in Hn.
Qed.

Lemma elem_of_all_cells s p : p ∈ all_cells s ↔ in_grid s p = true.
Proof.
  unfold all_cells, grid_positions.
  rewrite elem_of_list_to_set, in_grid_spec, list_elem_of_bind.
  split.
  - intros (r & Hc & Hr). apply list_elem_of_bind in Hc as (c & Hp & Hc).
    apply elem_of_seqZ in Hr, Hc. apply list_elem_of_singleton in Hp as ->.
    simpl. lia.
  - intros Hin. destruct p as [r c]. simpl in *.
    exists r. split; [|apply elem_of_seqZ; lia].
    apply list_elem_of_bind. exists c. split; [|apply elem_of_seqZ; lia].
    by apply list_elem_of_singleton.
Qed.

Lemma size_list_to_set_le (l : list pos) :
  (size (list_to_set l : gset pos) ≤ length l)%nat.
Proof.
  induction l as [|p l IH].
  - by rewrite list_to_set_nil, size_empty.
  - rewrite list_to_set_cons. cbn [length]. rewrite size_union_alt.
    rewrite size_singleton.
    pose proof (subseteq_size (list_to_set l ∖ {[p]}) (list_to_set l : gset pos)).
    assert (list_to_set l ∖ {[p]} ⊆ (list_to_set l : gset pos)) by set_solver.
    lia.
Qed.

Lemma size_all_cells s :
  (size (all_cells s) ≤ Z.to_nat (rows s) * Z.to_nat (cols s))%nat.
Proof.
  unfold all_cells, grid_positions. etrans; [apply size_list_to_set_le|].
  generalize (seqZ 0 (cols s)) (length_seqZ 0 (cols s)).
  generalize (seqZ 0 (rows s)) (length_seqZ 0 (rows s)).
  intros lr <- lc <-. induction lr as [|r lr IH]; [done|].
  rewrite bind_cons, length_app. cbn [length Nat.mul].
  apply Nat.add_le_mono; [|done].
  clear. induction lc as [|c lc IH]; [done|].
  rewrite bind_cons, length_app. cbn [length]. lia.
Qed.

Lemma size_open_cells (cells visited : gset pos) p :
  (size (cells ∖ ({[p]} ∪ visited)) ≤ size (cells ∖ visited))%nat ∧
  (p ∈ cells → p ∉ visited →
   size (cells ∖ ({[p]} ∪ visited)) < size (cells ∖ visited))%nat.
Proof.
  split.
  - apply subseteq_size. set_solver.
  - intros Hp Hv. apply subset_size. set_solver.
Qed.

Lemma ucs_iterate_any s0 s pq visited costs :
  calm s0 → same_world s0 s →
  ucs_frontier s0 pq visited costs → ucs_closed s0 pq visited costs →
  match iterate ucs_body s (pq, visited, costs) with
  | Done (RetTrue path) _ =>
      connects s0 path (start s0) (target s0) ∧
      ∀ l, connects s0 l (start s0) (target s0) → path_cost path <= path_cost l
  | Done RetFalse _ => ¬ ∃ l, connects s0 l (start s0) (target s0)
  | Running s' (pq', visited', costs') =>
      same_world s0 s' ∧ ucs_frontier s0 pq' visited' costs' ∧
      ucs_closed s0 pq' visited' costs' ∧
      (ucs_measure s0 pq' visited' < ucs_measure s0 pq visited)%nat
  end.
Proof.
  intros Hcalm Hw Hf Hc. unfold iterate, ucs_body.
  destruct (heappop pq) as [[cur pq']|] eqn:Hpop.
  2:{ apply heappop_nil in Hpop as ->. by eapply ucs_exhausted. }
  assert (Hpaused : paused s = false).
  { destruct Hw as (_ & -> & _). apply Hcalm. }
  rewrite Hpaused, (add_dynamic_obstacle_calm s0 s) by done.
  destruct (heappop_spec pq cur pq' (ucs_heap _ _ _ _ Hf) Hpop) as (Hmin & Hperm & Ho).
  assert (Hel : ∀ n, n ∈ pq ↔ n = cur ∨ n ∈ pq').
  { intros n. apply heappop_elem; [apply Hf|done]. }
  assert (Hlen : length pq = S (length pq')) by (by rewrite <- Hperm).
  assert (Hcur_ok : node_ok s0 (start s0) cur) by (apply Hf, Hel; by left).
  assert (Hsetup : start s = start s0 ∧ target s = target s0).
  { destruct Hw as (Hs & _). unfold same_setup in Hs. tauto. }
  destruct Hsetup as [Hstart Htarget].
  case_bool_decide as Hvis.
  - (* [continue]: the position is closed already *)
    split; [done|]. split; [|split].
    + eapply ucs_frontier_pop; eauto.
    + destruct Hc as [Hsettled Hst Htg]. split; [|set_solver|done].
      intros u Hu. destruct (Hsettled u Hu) as (c & Hcu & Hlow & Hedge).
      exists c. split_and!; auto. intros v Hadj Hvalid.
      destruct (Hedge v Hadj Hvalid) as [?|(n & Hn & Hnp & Hnc)]; [by left|].
      apply Hel in Hn as [->|Hn]; [left; congruence|right; eauto].
    + unfold ucs_measure. lia.
  - set (visited' := {[npos cur]} ∪ visited).
    pose proof (ucs_pop_bound _ _ _ _ _ _ Hf Hc Hpop Hvis) as Hbound.
    pose proof (ucs_pop_cost _ _ _ _ _ _ Hf Hpop Hvis) as Hcost.
    destruct (node_ok_path _ _ _ Hcur_ok) as [Hpath Hpc].
    rewrite Htarget. case_bool_decide as Htg.
    + (* the target is popped *)
      rewrite Htg in Hpath. split; [done|].
      intros l Hl. rewrite Hpc. apply Hbound. by rewrite Htg.
    + assert (Hw1 : same_world s0 (mark_explored (npos cur) (start s) s)).
      { apply same_world_mark_explored; [done|]. intros Hne.
        destruct (node_ok_cases _ _ _ Hcur_ok) as [?|Hv]; [congruence|].
        destruct Hw as (_ & _ & ->). done. }
      rewrite (get_neighbors_ext s0) by apply Hw1.
      destruct (ucs_visit_fold s0 visited' (get_neighbors s0 cur)
                  (mark_explored (npos cur) (start s) s) pq' costs)
        as (s2 & pq2 & costs2 & Hfold & Hw2 & Hf2 & Hsub2 & Hlen2 & Hc2 & Hnb2).
      * done.
      * eapply ucs_frontier_pop; eauto; set_solver.
      * intros nb Hnb.
        destruct (get_neighbors_node_ok _ _ _ _ Hcur_ok Hnb) as (? & ? & _). done.
      * rewrite Hfold.
        destruct (handle_events_during_search_calm s0 s2 Hcalm Hw2)
          as (s3 & -> & Hw3).
        split; [done|]. split; [done|]. split.
        -- destruct Hc as [Hsettled Hst Htgt]. split.
           ++ intros u Hu. apply elem_of_union in Hu as [Hu|Hu].
              ** apply elem_of_singleton in Hu as ->.
                 exists (cost cur). split_and!.
                 --- rewrite Hc2 by set_solver. done.
                 --- done.
                 --- intros [vr vc] Hadj Hvalid.
                     apply (Hnb2 (mkNode vr vc
                              (cost cur + move_cost (npos cur) (vr, vc))
                              (Some cur))).
                     apply get_neighbors_spec. exists (vr, vc). eauto.
              ** destruct (Hsettled u Hu) as (c & Hcu & Hlow & Hedge).
                 exists c. split_and!.
                 --- rewrite Hc2 by set_solver. done.
                 --- done.
                 --- intros v Hadj Hvalid.
                     destruct (Hedge v Hadj Hvalid)
                       as [?|(n & Hn & Hnp & Hnc)]; [left; set_solver|].
                     apply Hel in Hn as [->|Hn]; [left; set_solver|].
                     right. exists n. auto.
           ++ left. destruct Hst as [?|(-> & _)]; [set_solver|].
              assert (npos cur = start s0) as Hcs
                by (rewrite heappop_singleton in Hpop; simplify_eq;
                    apply npos_start_node).
              unfold visited'. rewrite Hcs. set_solver.
           ++ set_solver.
        -- pose proof (get_neighbors_length s0 cur) as Hn8.
           destruct (size_open_cells (all_cells s0) visited (npos cur))
             as [Hle Hlt].
           unfold ucs_measure. subst visited'.
           destruct (decide (start s0 ∈ visited)) as [Hin|Hout].
           ++ rewrite decide_True by set_solver.
              assert (Hcell : npos cur ∈ all_cells s0).
              { apply elem_of_all_cells.
                destruct (node_ok_cases _ _ _ Hcur_ok) as [?|Hv]; [congruence|].
                apply is_valid_position_spec in Hv. tauto. }
              specialize (Hlt Hcell Hvis). lia.
           ++ destruct Hc as [_ [?|(-> & _)] _]; [done|].
              assert (npos cur = start s0) as Hcs
                by (rewrite heappop_singleton in Hpop; simplify_eq;
                    apply npos_start_node).
              rewrite decide_True by (rewrite Hcs; set_solver).
              lia.
Qed.



Lemma ucs_initial s :
  ucs_frontier s [start_node s] ∅ {[start s := 0]} ∧
  ucs_closed s [start_node s] ∅ {[start s := 0]}.
Proof.
  pose proof (npos_start_node s) as Hpos.
  split; split.
  - intros [|[|j]] c p Hj Hc Hp; simplify_eq/=; lia.
  - intros n Hn. apply list_elem_of_singleton in Hn as ->. simpl.
    by rewrite <- surjective_pairing.
  - intros n Hn. apply list_elem_of_singleton in Hn as ->.
    exists 0. rewrite Hpos, lookup_singleton_eq. done.
  - intros p c Hc _. apply lookup_singleton_Some in Hc as [<- <-].
    exists (start_node s). split; [left|done].
  - intros u Hu. set_solver.
  - by right.
  - set_solver.
Qed.

Lemma loop_invariant {L : Type} (body : Pathfinder → L → Body L)
    (I : Pathfinder → L → Prop) (Q : Result → Pathfinder → Prop) :
  (∀ s l, I s l →
     match iterate body s l with
     | Running s' l' => I s' l'
     | Done r s' => Q r s'
     end) →
  ∀ fuel s l, I s l →
    match loop body fuel s l with
    | Running s' l' => I s' l'
    | Done r s' => Q r s'
    end.
Proof.
  intros Hstep. induction fuel as [|fuel IH]; intros s l HI; [done|].
  cbn [loop]. specialize (Hstep s l HI).
  destruct (iterate body s l) as [r s'|s' l']; [done|by apply IH].
Qed.





(** ** Concrete runs *)

Ltac solve_grid_wf := split; [vm_compute; reflexivity|vm_compute; repeat constructor].

(** The maze with obstacles enabled and a draw below the probability: one
    empty cell is converted. *)
Lemma add_dynamic_obstacle_only_empty_witness :
  grid_wf maze_hit ∧ (add_dynamic_obstacle maze_hit).1 = true ∧
  ∃ p, in_grid maze_hit p = true ∧ cell maze_hit p = EMPTY ∧
       cell (add_dynamic_obstacle maze_hit).2 p = DYNAMIC_OBSTACLE ∧
       dynamic_obstacles_added (add_dynamic_obstacle maze_hit).2 = [p].
Proof.
  assert (Hwf : grid_wf maze_hit) by solve_grid_wf.
  split; [exact Hwf|]. split; [vm_compute; reflexivity|].
  destruct (add_dynamic_obstacle_only_empty maze_hit Hwf) as (H & _ & _).
  destruct H as (p & ? & ? & ? & _ & ?); [vm_compute; reflexivity|].
  exists p. auto.
Defined.

(** C7 fails as stated: the sample maze has a wall at [(5, 8)] and another
    at [(12, 5)]; a click on the first in START mode, and on the second in
    TARGET mode, is not rejected: the grid changes and the marker is
    placed on the wall. *)
Lemma handle_grid_click_wall_counterexample :
  let s1 := with_mode MODE_START maze in
  let s1' := handle_grid_click (203, 128) s1 in
  let s2 := with_mode MODE_TARGET maze in
  let s2' := handle_grid_click (130, 310) s2 in
  (cell s1 (5, 8) = WALL ∧ start s1' = (5, 8) ∧ cell s1' (5, 8) = START ∧
   cell s1' (1, 1) = EMPTY ∧ grid s1' ≠ grid s1) ∧
  (cell s2 (12, 5) = WALL ∧ target s2' = (12, 5) ∧
   cell s2' (12, 5) = TARGET ∧ cell s2' (18, 23) = EMPTY ∧
   grid s2' ≠ grid s2).
Proof.
  split; split_and!; try (vm_compute; reflexivity); intros Heq.
  - apply (f_equal (λ g, cell_at g (5, 8))) in Heq.
    vm_compute in Heq. discriminate.
  - apply (f_equal (λ g, cell_at g (12, 5))) in Heq.
    vm_compute in Heq. discriminate.
Qed.

(** A click in START mode on a cell of the maze. *)
Lemma handle_grid_click_moves_marker_witness :
  let s := with_mode MODE_START maze in
  let s' := handle_grid_click (203, 128) s in
  grid_wf s ∧ 0 < grid_size s ∧ in_grid s (5, 8) = true ∧
  start s' = (5, 8) ∧ cell s' (5, 8) = START.
Proof.
  intros s s'.
  assert (Hwf : grid_wf s) by solve_grid_wf.
  assert (Hsize : 0 < grid_size s) by (vm_compute; reflexivity).
  assert (Hin : in_grid s (5, 8) = true) by (vm_compute; reflexivity).
  destruct (handle_grid_click_moves_marker s (203, 128) Hwf Hsize Hin)
    as [Hst _].
  destruct (Hst eq_refl) as (Hstart & _ & Hcell & _).
  split; [exact Hwf|]. split; [exact Hsize|]. split; [exact Hin|].
  split; [exact Hstart|exact Hcell].
Defined.




(** ** Depth-limited search *)

Lemma connects_snoc s l a b c :
  connects s l a b → adjacent b c → is_valid_position s c.1 c.2 = true →
  connects s (l ++ [c]) a c.
Proof.
  intros (Hh & Hl & Hp) Hadj Hv. apply last_Some in Hl as [l' ->].
  split_and!.
  - destruct l'; done.
  - by rewrite last_snoc.
  - rewrite <- app_assoc. apply passable_path_app. split; [done|]. by simpl.
Qed.

Lemma connects_last_valid s l a p :
  connects s (l ++ [p]) a p → p = a ∨ is_valid_position s p.1 p.2 = true.
Proof.
  intros (Hh & _ & Hp). destruct l as [|q l _] using rev_ind.
  - left. simpl in Hh. congruence.
  - right. rewrite <- app_assoc in Hp. apply passable_path_app in Hp as [_ Hp].
    simpl in Hp. tauto.
Qed.

Lemma paused_calm s0 s : calm s0 → same_world s0 s → paused s = false.
Proof. intros (_ & Hp & _) (_ & -> & _). done. Qed.

Lemma same_world_valid s0 s r c :
  same_world s0 s → is_valid_position s r c = is_valid_position s0 r c.
Proof. intros (_ & _ & H). apply H. Qed.

Lemma same_world_markers s0 s :
  same_world s0 s → start s = start s0 ∧ target s = target s0.
Proof. intros (Hs & _). unfold same_setup in Hs. tauto. Qed.

Lemma dls_for_sound s0 rec visited (P : Node → list pos → Prop) nbs :
  calm s0 →
  (∀ s nb, nb ∈ nbs → same_world s0 s →
     match rec s nb with
     | (RetTrue full, _) => P nb full
     | (RetFalse, s') => same_world s0 s'
     end) →
  ∀ s, same_world s0 s →
    match dls_for rec visited s nbs with
    | (RetTrue full, _) => ∃ nb, nb ∈ nbs ∧ P nb full
    | (RetFalse, s') => same_world s0 s'
    end.
Proof.
  intros Hcalm. induction nbs as [|nb nbs IH]; intros Hrec s Hw; [done|].
  assert (Hrest : ∀ s1, same_world s0 s1 →
            match dls_for rec visited s1 nbs with
            | (RetTrue full, _) => ∃ nb', nb' ∈ nb :: nbs ∧ P nb' full
            | (RetFalse, s') => same_world s0 s'
            end).
  { intros s1 Hw1. specialize (IH (λ s nb' Hin, Hrec s nb' (list_elem_of_further _ _ _ Hin)) s1 Hw1).
    destruct (dls_for rec visited s1 nbs) as [[full|] s']; [|done].
    destruct IH as (nb' & Hin & HP). exists nb'. split; [by right|done]. }
  cbn [dls_for].
  destruct (bool_decide (npos nb ∉ visited) &&
            is_valid_position s (x nb) (y nb)) eqn:Hcond; [|by apply Hrest].
  apply andb_true_iff in Hcond as [_ Hv].
  pose proof (same_world_mark_frontier s0 s (npos nb) (target s) Hw Hv) as Hw1.
  destruct (handle_events_during_search_calm s0 _ Hcalm Hw1) as (s2 & -> & Hw2).
  specialize (Hrec s2 nb (list_elem_of_here _ _) Hw2).
  destruct (rec s2 nb) as [[full|] s3].
  - exists nb. split; [left|done].
  - by apply Hrest.
Qed.

Lemma dls_recursive_sound s0 depth1 : ∀ s node visited path,
  calm s0 → same_world s0 s →
  connects s0 (path ++ [npos node]) (start s0) (npos node) →
  match dls_recursive depth1 s node visited path with
  | (RetTrue full, _) =>
      connects s0 full (start s0) (target s0) ∧
      (length full ≤ length path + depth1)%nat
  | (RetFalse, s') => same_world s0 s'
  end.
Proof.
  induction depth1 as [|depth IH]; intros s node visited path Hcalm Hw Hpath;
    [done|].
  cbn [dls_recursive].
  rewrite (paused_calm s0 s), (add_dynamic_obstacle_calm s0 s) by done.
  destruct (same_world_markers s0 s Hw) as [Hstart Htarget].
  rewrite Hstart, Htarget. case_bool_decide as Htg.
  - rewrite Htg in Hpath |- *. split; [done|]. rewrite length_app. simpl. lia.
  - assert (Hw1 : same_world s0 (mark_explored (npos node) (start s0) s)).
    { apply same_world_mark_explored; [done|]. intros Hne.
      destruct (connects_last_valid _ _ _ _ Hpath) as [?|Hv]; [done|].
      by rewrite (same_world_valid s0). }
    rewrite (get_neighbors_ext s0) by apply Hw1.
    pose proof (dls_for_sound s0
      (λ s' neighbor, dls_recursive depth s' neighbor
                        ({[npos node]} ∪ visited) (path ++ [npos node]))
      ({[npos node]} ∪ visited)
      (λ _ full, connects s0 full (start s0) (target s0) ∧
                 (length full ≤ length path + S depth)%nat)
      (get_neighbors s0 node) Hcalm) as Hfor.
    lapply Hfor; [clear Hfor; intros Hfor|].
    + specialize (Hfor _ Hw1).
      destruct (dls_for _ _ _ _) as [[full|] s']; [|done].
      by destruct Hfor as (_ & _ & ?).
    + intros s' nb Hnb Hw'.
      apply get_neighbors_spec in Hnb as (q & Hadj & Hv & ->).
      specialize (IH s' (mkNode q.1 q.2 (cost node + move_cost (npos node) q)
                           (Some node))
                    ({[npos node]} ∪ visited) (path ++ [npos node]) Hcalm Hw').
      lapply IH.
      * destruct (dls_recursive _ _ _ _ _) as [[full|] s'']; [|done].
        rewrite length_app. simpl. intros [? ?]. split; [done|lia].
      * apply (connects_snoc _ _ _ (npos node)); [done|..].
        -- unfold npos at 2. simpl. by rewrite <- surjective_pairing.
        -- done.
Qed.

Lemma dls_for_complete s0 rec visited nbs q :
  calm s0 →
  (∀ s nb, nb ∈ nbs → same_world s0 s →
     match rec s nb with
     | (RetTrue _, _) => True
     | (RetFalse, s') => same_world s0 s'
     end) →
  q ∈ nbs → npos q ∉ visited → is_valid_position s0 (x q) (y q) = true →
  (∀ s, same_world s0 s → ∃ full s', rec s q = (RetTrue full, s')) →
  ∀ s, same_world s0 s →
    ∃ full s', dls_for rec visited s nbs = (RetTrue full, s').
Proof.
  intros Hcalm. induction nbs as [|nb nbs IH];
    intros Hrec Hq Hvis Hvalid Hfound s Hw; [by apply elem_of_nil in Hq|].
  cbn [dls_for].
  destruct (bool_decide (npos nb ∉ visited) &&
            is_valid_position s (x nb) (y nb)) eqn:Hcond.
  - apply andb_true_iff in Hcond as [_ Hv].
    pose proof (same_world_mark_frontier s0 s (npos nb) (target s) Hw Hv) as Hw1.
    destruct (handle_events_during_search_calm s0 _ Hcalm Hw1) as (s2 & -> & Hw2).
    pose proof (Hrec s2 nb (list_elem_of_here _ _) Hw2) as Hnb.
    destruct (rec s2 nb) as [[full|] s3] eqn:Hr; [eauto|].
    apply elem_of_cons in Hq as [->|Hq].
    + destruct (Hfound s2 Hw2) as (full & s' & Hf). congruence.
    + apply IH; auto. intros s' nb' Hin. apply Hrec. by right.
  - apply elem_of_cons in Hq as [->|Hq].
    + rewrite (same_world_valid s0), Hvalid, bool_decide_true in Hcond by done.
      done.
    + apply IH; auto. intros s' nb' Hin. apply Hrec. by right.
Qed.

Lemma dls_recursive_complete s0 depth1 : ∀ s node visited path l,
  calm s0 → same_world s0 s →
  connects s0 (path ++ [npos node]) (start s0) (npos node) →
  connects s0 l (npos node) (target s0) → (length l ≤ depth1)%nat →
  (∀ p, p ∈ l → p ∉ visited) →
  ∃ full s', dls_recursive depth1 s node visited path = (RetTrue full, s').
Proof.
  induction depth1 as [|depth IH];
    intros s node visited path l Hcalm Hw Hpath Hl Hlen Hfresh.
  { destruct Hl as (Hh & _). destruct l; [done|simpl in Hlen; lia]. }
  cbn [dls_recursive].
  rewrite (paused_calm s0 s), (add_dynamic_obstacle_calm s0 s) by done.
  destruct (same_world_markers s0 s Hw) as [Hstart Htarget].
  rewrite Hstart, Htarget. case_bool_decide as Htg; [eauto|].
  assert (Hw1 : same_world s0 (mark_explored (npos node) (start s0) s)).
  { apply same_world_mark_explored; [done|]. intros Hne.
    destruct (connects_last_valid _ _ _ _ Hpath) as [?|Hv]; [done|].
    by rewrite (same_world_valid s0). }
  rewrite (get_neighbors_ext s0) by apply Hw1.
  (* the part of [l] after the last visit of this position *)
  destruct Hl as (Hh & Hla & Hp).
  assert (Hin : npos node ∈ l) by (destruct l; simplify_eq/=; left).
  apply list_elem_of_split_r in Hin as (la & lb & -> & Hnot).
  destruct lb as [|q lb].
  { rewrite last_app_cons in Hla. simpl in Hla. congruence. }
  apply passable_path_app in Hp as [_ Hp].
  change (adjacent (npos node) q ∧ is_valid_position s0 q.1 q.2 = true ∧
          passable_path s0 (q :: lb)) in Hp.
  destruct Hp as (Hadj & Hv & Hp).
  set (nbq := mkNode q.1 q.2 (cost node + move_cost (npos node) q) (Some node)).
  assert (Hq : npos nbq = q) by (unfold npos; simpl; by rewrite <- surjective_pairing).
  apply (dls_for_complete s0 _ _ _ nbq); auto.
  - intros s' nb Hnb Hw'.
    apply get_neighbors_spec in Hnb as (q' & Hadj' & Hv' & ->).
    pose proof (dls_recursive_sound s0 depth s'
      (mkNode q'.1 q'.2 (cost node + move_cost (npos node) q') (Some node))
      ({[npos node]} ∪ visited) (path ++ [npos node]) Hcalm Hw') as Hs.
    lapply Hs; [by destruct (dls_recursive _ _ _ _ _) as [[?|] ?]|].
    apply (connects_snoc _ _ _ (npos node)); [done|..].
    + unfold npos at 2. simpl. by rewrite <- surjective_pairing.
    + done.
  - apply get_neighbors_spec. exists q. done.
  - rewrite Hq. apply not_elem_of_union. split.
    + apply not_elem_of_singleton. intros ->. apply Hnot. left.
    + apply Hfresh. apply elem_of_app. right. right. left.
  - intros s' Hw'. apply (IH s' nbq _ _ (q :: lb)); auto.
    + apply (connects_snoc _ _ _ (npos node)); [done|by rewrite Hq..].
    + rewrite Hq. split_and!; [done| |done].
      by rewrite last_app_cons, last_cons_cons in Hla.
    + rewrite length_app in Hlen. simpl in *. lia.
    + intros p Hp'. apply not_elem_of_union. split.
      * apply not_elem_of_singleton. intros ->. by apply Hnot.
      * apply Hfresh. apply elem_of_app. right. by right.
Qed.

(** C5.  With dynamic obstacles disabled and nothing that pauses or cancels
    the run, [depth_limited_search] with limit [d] returns [True] (with a
    passable path of at most [d] moves) when some passable path from the
    start to the target has at most [d] moves, that is at most [d + 1]
    positions, and returns [False] when every passable path from the start
    to the target has more than [d] moves.  The visited set that a
    recursive call receives is the caller's set plus the caller's own
    position ([dls_recursive] passes its own value down and gets nothing
    back). *)
Theorem depth_limited_search_bound (s : Pathfinder) (d : Z) :
  calm s →
  ((∃ l, connects s l (start s) (target s) ∧ Z.of_nat (length l) <= d + 1) →
   ∃ path s',
     depth_limited_search d s = (RetTrue path, s') ∧
     connects s path (start s) (target s) ∧
     Z.of_nat (length path) <= d + 1) ∧
  ((∀ l, connects s l (start s) (target s) → d + 1 < Z.of_nat (length l)) →
   ∃ s', depth_limited_search d s = (RetFalse, s')).
Proof.
  intros Hcalm. unfold depth_limited_search.
  assert (Hroot : connects s ([] ++ [npos (start_node s)]) (start s)
                    (npos (start_node s))).
  { rewrite npos_start_node. by split_and!. }
  pose proof (dls_recursive_sound s (Z.to_nat (d + 1)) s (start_node s) ∅ []
                Hcalm (same_world_refl s) Hroot) as Hsound.
  split.
  - intros (l & Hl & Hlen).
    destruct (dls_recursive_complete s (Z.to_nat (d + 1)) s (start_node s) ∅ [] l)
      as (full & s' & Hrun); auto using same_world_refl.
    + by rewrite npos_start_node.
    + lia.
    + intros p _. apply not_elem_of_empty.
    + rewrite Hrun in Hsound. destruct Hsound as [Hc Hn].
      exists full, s'. split_and!; [done|done|]. simpl in Hn.
      destruct Hl as (Hh & _). destruct l; [done|]. simpl in Hlen. lia.
  - intros Hfar.
    destruct (dls_recursive _ _ _ _ _) as [[full|] s']; [|by exists s'].
    destruct Hsound as [Hc Hn]. specialize (Hfar full Hc).
    destruct Hc as (Hh & _). destruct full; [done|]. simpl in *. lia.
Qed.

Lemma adjacent_near p q :
  adjacent p q → Z.abs (q.1 - p.1) <= 1 ∧ Z.abs (q.2 - p.2) <= 1.
Proof.
  unfold adjacent, directions. rewrite !elem_of_cons, elem_of_nil.
  intros H. destruct_or!; simplify_eq; try done; rewrite H, H0; simpl; lia.
Qed.

Lemma adjacent_sym p q : adjacent p q → adjacent q p.
Proof.
  unfold adjacent, directions. rewrite !elem_of_cons, !elem_of_nil.
  intros H. destruct_or!; simplify_eq; try done;
    replace (p.1 - q.1) with (- (q.1 - p.1)) by lia;
    replace (p.2 - q.2) with (- (q.2 - p.2)) by lia;
    rewrite H, H0; simpl; tauto.
Qed.

(** A path cannot cross more columns than it has moves. *)
Lemma connected_path_columns l a b :
  connected_path l → head l = Some a → last l = Some b →
  Z.abs (b.2 - a.2) + 1 <= Z.of_nat (length l).
Proof.
  revert a. induction l as [|p l IH]; intros a Hc Hh Hl; [done|].
  simpl in Hh. simplify_eq. destruct l as [|q l].
  - simpl in Hl. simplify_eq. simpl. lia.
  - destruct Hc as [Hadj Hc]. rewrite last_cons_cons in Hl.
    specialize (IH q Hc eq_refl Hl). apply adjacent_near in Hadj.
    cbn [length] in *. lia.
Qed.

(** The corridor that needs five moves, with the limits 2 and 10. *)
Lemma depth_limited_search_bound_witness :
  calm corridor ∧
  (∃ s', depth_limited_search 2 corridor = (RetFalse, s')) ∧
  (∃ path s', depth_limited_search 10 corridor = (RetTrue path, s') ∧
     connects corridor path (0, 0) (0, 5) ∧ Z.of_nat (length path) <= 11).
Proof.
  assert (Hcalm : calm corridor).
  { split_and!; try reflexivity. intros k. split; apply not_elem_of_nil. }
  split; [exact Hcalm|]. split.
  - apply (depth_limited_search_bound corridor 2 Hcalm).
    intros l (Hh & Hl & Hp).
    pose proof (connected_path_columns l _ _
                  (passable_connected _ _ Hp) Hh Hl) as Hcols.
    simpl in Hcols. lia.
  - apply (depth_limited_search_bound corridor 10 Hcalm).
    exists [(0, 0); (0, 1); (0, 2); (0, 3); (0, 4); (0, 5)].
    split; [|simpl; lia].
    split_and!; try reflexivity. simpl.
    split_and!; try (vm_compute; reflexivity); try done;
      unfold adjacent; simpl; unfold directions; set_solver.
Defined.

(** Scenario C of the specification, by evaluation. *)
Example depth_limited_search_scenario :
  (depth_limited_search 2 corridor).1 = RetFalse ∧
  (depth_limited_search 10 corridor).1 =
    RetTrue [(0, 0); (0, 1); (0, 2); (0, 3); (0, 4); (0, 5)].
Proof. split; vm_compute; reflexivity. Qed.

(** ** Bidirectional search *)

Lemma chain_cons n : chain n = npos n :: match parent n with
                                         | Some p => chain p
                                         | None => []
                                         end.
Proof. by destruct n as [a b c [p|]]. Qed.















(** ** What every strategy leaves in place *)

Lemma steady_refl s :
  cell s (start s) = START → cell s (target s) = TARGET → steady s s.
Proof. intros Hs Ht. split; [by split_and!|done]. Qed.

Lemma steady_set_cell s0 s p v :
  steady s0 s → p ≠ start s0 → p ≠ target s0 → steady s0 (set_cell p v s).
Proof.
  intros [(Hs & Ht & Hcs & Hct) Hwf] Hps Hpt. split; [split_and!|].
  - done.
  - done.
  - by rewrite cell_set_other.
  - by rewrite cell_set_other.
  - intros H. by apply grid_wf_set_cell, Hwf.
Qed.

Lemma steady_mark_explored s0 s p root :
  steady s0 s → (p = start s0 → root = p) → (p = target s0 → root = p) →
  steady s0 (mark_explored p root s).
Proof.
  intros Hst Hs Ht. unfold mark_explored. case_bool_decide as Hne; [|done].
  apply steady_set_cell; [done|..]; intros Heq; apply Hne; symmetry; auto.
Qed.

Lemma steady_mark_frontier s0 s p other :
  steady s0 s → (p = start s0 → other = p) → (p = target s0 → other = p) →
  steady s0 (mark_frontier p other s).
Proof.
  intros Hst Hs Ht. unfold mark_frontier. case_bool_decide as Hne; [|done].
  apply steady_set_cell; [done|..]; intros Heq; apply Hne; symmetry; auto.
Qed.

Lemma add_dynamic_obstacle_keeps s q :
  cell s q ≠ EMPTY → cell (add_dynamic_obstacle s).2 q = cell s q.
Proof.
  intros Hq. destruct (add_dynamic_obstacle_cases s)
    as [(_ & Hg & _)|(p & _ & Hp & _ & _ & ->)].
  - unfold cell. by rewrite Hg.
  - apply elem_of_empty_cells in Hp as [_ Hp].
    apply (cell_set_other (with_rng_pos _ s)). congruence.
Qed.

Lemma add_dynamic_obstacle_setup s : same_setup s (add_dynamic_obstacle s).2.
Proof.
  destruct (add_dynamic_obstacle_cases s)
    as [(_ & _ & _ & Hs & _)|(p & _ & _ & _ & _ & ->)]; [done|].
  by repeat split.
Qed.

Lemma add_dynamic_obstacle_wf s : grid_wf s → grid_wf (add_dynamic_obstacle s).2.
Proof.
  intros Hwf. destruct (add_dynamic_obstacle_cases s)
    as [(_ & Hg & _ & Hs & _)|(p & _ & _ & _ & _ & ->)].
  - unfold grid_wf, same_setup in *. rewrite Hg. destruct_and!.
    by replace (rows (add_dynamic_obstacle s).2) with (rows s);
       replace (cols (add_dynamic_obstacle s).2) with (cols s).
  - by apply (grid_wf_set_cell (with_rng_pos _ s)).
Qed.

Lemma add_dynamic_obstacle_paused s :
  paused (add_dynamic_obstacle s).2 = paused s.
Proof.
  destruct (add_dynamic_obstacle_cases s)
    as [(_ & _ & _ & _ & Hp & _)|(p & _ & _ & _ & _ & ->)]; done.
Qed.

Lemma steady_add_dynamic_obstacle s0 s :
  steady s0 s → steady s0 (add_dynamic_obstacle s).2.
Proof.
  intros [(Hs & Ht & Hcs & Hct) Hwf].
  pose proof (add_dynamic_obstacle_setup s) as Hsetup.
  unfold same_setup in Hsetup. split; [split_and!|].
  - destruct_and!. congruence.
  - destruct_and!. congruence.
  - rewrite add_dynamic_obstacle_keeps; [done|]. by rewrite Hcs.
  - rewrite add_dynamic_obstacle_keeps; [done|]. by rewrite Hct.
  - intros H. by apply add_dynamic_obstacle_wf, Hwf.
Qed.

Lemma steady_handle_events s0 s :
  steady s0 s → steady s0 (handle_events_during_search s).2.
Proof.
  intros Hst. unfold handle_events_during_search.
  by destruct (handle_events _ _).
Qed.

Lemma steady_visualize_path s0 path : ∀ s,
  steady s0 s → steady s0 (visualize_path path s).
Proof.
  unfold visualize_path.
  induction path as [|p path IH]; intros s Hst; [done|].
  cbn [foldl]. apply IH.
  destruct Hst as [(Hs & Ht & Hc) Hwf].
  destruct (bool_decide (p ≠ start s) && bool_decide (p ≠ target s)) eqn:Hb;
    [|done].
  apply andb_true_iff in Hb as [H1 H2].
  apply bool_decide_eq_true in H1, H2.
  apply steady_set_cell; [done|congruence..].
Qed.

Lemma clear_overlay_fold_paused ps : ∀ s,
  paused (foldl (fun s p =>
                   if bool_decide (cell s p ∈ [FRONTIER; EXPLORED; PATH])
                   then set_cell p EMPTY s else s) s ps) = paused s.
Proof.
  induction ps as [|p ps IH]; intros s; [done|]. cbn [foldl].
  case_bool_decide; by rewrite IH.
Qed.

Lemma clear_search_visualization_paused s :
  paused (clear_search_visualization s) = paused s.
Proof. apply clear_overlay_fold_paused. Qed.

Lemma clear_overlay_fold s0 ps : ∀ s,
  steady s0 s →
  steady s0 (foldl (fun s p =>
                      if bool_decide (cell s p ∈ [FRONTIER; EXPLORED; PATH])
                      then set_cell p EMPTY s else s) s ps).
Proof.
  induction ps as [|p ps IH]; intros s Hst; [done|]. cbn [foldl].
  case_bool_decide as Hp; [|by apply IH].
  apply IH.
  destruct Hst as [(Hs & Ht & Hcs & Hct) Hwf].
  apply steady_set_cell; [done|..]; intros ->;
    [rewrite Hcs in Hp|rewrite Hct in Hp]; set_solver.
Qed.

Lemma steady_clear_search_visualization s0 s :
  steady s0 s → steady s0 (clear_search_visualization s).
Proof.
  intros Hst. unfold clear_search_visualization.
  pose proof (clear_overlay_fold s0 (grid_positions s) s Hst) as Hst1.
  set (s1 := foldl _ s (grid_positions s)) in *.
  destruct Hst1 as [(Hs & Ht & Hcs & Hct) Hwf].
  assert (Hne : start s0 ≠ target s0) by congruence.
  change (target (set_cell (start s1) START s1)) with (target s1).
  rewrite Hs, Ht. split; [split_and!|].
  - done.
  - done.
  - rewrite cell_set_other by done.
    destruct (cell_set_cases s1 (start s0) (start s0) START) as [->|[_ ->]];
      done.
  - destruct (cell_set_cases (set_cell (start s0) START s1)
                (target s0) (target s0) TARGET) as [->|[_ ->]]; [|done].
    by rewrite cell_set_other.
  - intros H. do 2 apply grid_wf_set_cell. by apply Hwf.
Qed.

Lemma marked_set_cell s p v q :
  v = FRONTIER ∨ v = EXPLORED → marked s q → marked (set_cell p v s) q.
Proof.
  intros Hv Hq. unfold marked in *.
  destruct (cell_set_cases s p q v) as [->|[_ ->]]; [done|].
  destruct Hv as [-> | ->]; set_solver.
Qed.

Lemma queued_ok_mark_explored s p root queue :
  queued_ok s queue → queued_ok (mark_explored p root s) queue.
Proof.
  intros Hq n Hn. unfold mark_explored. case_bool_decide; [|by apply Hq].
  apply marked_set_cell; [by right|by apply Hq].
Qed.

Lemma queued_ok_mark_frontier s p other queue :
  queued_ok s queue → queued_ok (mark_frontier p other s) queue.
Proof.
  intros Hq n Hn. unfold mark_frontier. case_bool_decide; [|by apply Hq].
  apply marked_set_cell; [by left|by apply Hq].
Qed.

Lemma queued_ok_add_dynamic_obstacle s queue :
  queued_ok s queue → queued_ok (add_dynamic_obstacle s).2 queue.
Proof.
  intros Hq n Hn. specialize (Hq n Hn). unfold marked in *.
  rewrite add_dynamic_obstacle_keeps; [done|].
  intros He. rewrite He in Hq. set_solver.
Qed.

Lemma queued_ok_handle_events s queue :
  queued_ok s queue → queued_ok (handle_events_during_search s).2 queue.
Proof.
  intros Hq. unfold handle_events_during_search.
  by destruct (handle_events _ _).
Qed.

Lemma queued_ok_sub s queue queue' :
  (∀ n, n ∈ queue' → n ∈ queue) → queued_ok s queue → queued_ok s queue'.
Proof. intros Hsub Hq n Hn. by apply Hq, Hsub. Qed.

(** A neighbour that was just marked: its cell is [FRONTIER], or it is the
    marker that [mark_frontier] spares. *)
Lemma marked_new s0 s p other :
  steady s0 s → grid_wf s → is_valid_position s p.1 p.2 = true →
  other = start s0 ∨ other = target s0 →
  marked (mark_frontier p other s) p.
Proof.
  intros [(Hs & Ht & Hcs & Hct) _] Hwf Hv Hother.
  unfold mark_frontier, marked. case_bool_decide as Hne.
  - rewrite cell_set_same; [set_solver|done|].
    apply is_valid_position_spec in Hv. rewrite <- surjective_pairing in Hv.
    tauto.
  - subst p.
    destruct Hother as [-> | ->]; [rewrite Hcs|rewrite Hct]; set_solver.
Qed.

Lemma steady_markers s0 s :
  steady s0 s → start s = start s0 ∧ target s = target s0.
Proof. intros [(Hs & Ht & _) _]. done. Qed.

Lemma bfs_visit_fold_inv s0 nbs : ∀ s queue visited,
  steady s0 s → start s0 ∈ visited →
  ∃ s' queue' visited',
    foldl bfs_visit (s, queue, visited) nbs = (s', queue', visited') ∧
    steady s0 s' ∧ start s0 ∈ visited' ∧
    (grid_wf s0 → queued_ok s queue → queued_ok s' queue').
Proof.
  induction nbs as [|nb nbs IH]; intros s queue visited Hst Hvis.
  { exists s, queue, visited. by split_and!. }
  cbn [foldl]. unfold bfs_visit at 2.
  destruct (bool_decide (npos nb ∉ visited) &&
            is_valid_position s (x nb) (y nb)) eqn:Hcond.
  2:{ by apply IH. }
  apply andb_true_iff in Hcond as [Hnew Hv]. apply bool_decide_eq_true in Hnew.
  destruct (steady_markers _ _ Hst) as [Hs Ht].
  assert (Hst1 : steady s0 (mark_frontier (npos nb) (target s) s)).
  { apply steady_mark_frontier; [done| |congruence].
    intros Heq. rewrite Heq in Hnew. done. }
  destruct (IH (mark_frontier (npos nb) (target s) s) (queue ++ [nb])
              ({[npos nb]} ∪ visited) Hst1)
    as (s' & queue' & visited' & Hfold & Hst' & Hvis' & Hq'); [set_solver|].
  exists s', queue', visited'. split_and!; try done.
  intros Hwf Hq. apply Hq'; [done|].
  intros n Hn. apply elem_of_app in Hn as [Hn|Hn].
  - exact (queued_ok_mark_frontier _ _ _ queue Hq n Hn).
  - apply list_elem_of_singleton in Hn as ->.
    eapply marked_new; [done|by apply Hst|done|]. right. congruence.
Qed.

Lemma bfs_iterate_inv s0 s queue visited :
  steady s0 s → start s0 ∈ visited →
  match iterate bfs_body s (queue, visited) with
  | Running s' (queue', visited') =>
      steady s0 s' ∧ start s0 ∈ visited' ∧
      (grid_wf s0 → queued_ok s queue → queued_ok s' queue')
  | Done _ s' => steady s0 s'
  end.
Proof.
  intros Hst Hvis. unfold iterate, bfs_body.
  destruct queue as [|current queue']; [done|].
  destruct (paused s); [done|].
  pose proof (steady_add_dynamic_obstacle _ _ Hst) as Hst1.
  destruct (steady_markers _ _ Hst1) as [Hs Ht].
  case_bool_decide as Htg; [by apply steady_visualize_path|].
  assert (Hst2 : steady s0 (mark_explored (npos current)
                              (start (add_dynamic_obstacle s).2)
                              (add_dynamic_obstacle s).2)).
  { apply steady_mark_explored; [done|congruence|congruence]. }
  destruct (bfs_visit_fold_inv s0
              (get_neighbors (mark_explored (npos current)
                                (start (add_dynamic_obstacle s).2)
                                (add_dynamic_obstacle s).2) current)
              _ queue' visited Hst2 Hvis)
    as (s3 & queue3 & visited3 & -> & Hst3 & Hvis3 & Hq3).
  pose proof (steady_handle_events _ _ Hst3) as Hst4.
  pose proof (queued_ok_handle_events s3 queue3) as Hq4.
  destruct (handle_events_during_search s3) as [[] s4]; [|done].
  split_and!; try done. intros Hwf Hq. apply Hq4, Hq3; [done|].
  apply queued_ok_mark_explored, queued_ok_add_dynamic_obstacle.
  eapply queued_ok_sub; [|done]. intros n Hn. by right.
Qed.

Lemma removelast_elem_of {A} (l : list A) a :
  a ∈ removelast l → a ∈ l.
Proof.
  destruct l as [|b l _] using rev_ind; [done|].
  rewrite removelast_last. intros Ha. apply elem_of_app. by left.
Qed.

Lemma dfs_iterate_inv s0 s stack visited :
  steady s0 s → start s0 ∈ visited →
  match iterate dfs_body s (stack, visited) with
  | Running s' (stack', visited') =>
      steady s0 s' ∧ start s0 ∈ visited' ∧
      (grid_wf s0 → queued_ok s stack → queued_ok s' stack')
  | Done _ s' => steady s0 s'
  end.
Proof.
  intros Hst Hvis. unfold iterate, dfs_body.
  destruct (last stack) as [current|]; [|done].
  destruct (paused s); [done|].
  pose proof (steady_add_dynamic_obstacle _ _ Hst) as Hst1.
  destruct (steady_markers _ _ Hst1) as [Hs Ht].
  case_bool_decide as Htg; [by apply steady_visualize_path|].
  assert (Hst2 : steady s0 (mark_explored (npos current)
                              (start (add_dynamic_obstacle s).2)
                              (add_dynamic_obstacle s).2)).
  { apply steady_mark_explored; [done|congruence|congruence]. }
  destruct (bfs_visit_fold_inv s0
              (reverse (get_neighbors (mark_explored (npos current)
                                (start (add_dynamic_obstacle s).2)
                                (add_dynamic_obstacle s).2) current))
              _ (removelast stack) visited Hst2 Hvis)
    as (s3 & queue3 & visited3 & -> & Hst3 & Hvis3 & Hq3).
  pose proof (steady_handle_events _ _ Hst3) as Hst4.
  pose proof (queued_ok_handle_events s3 queue3) as Hq4.
  destruct (handle_events_during_search s3) as [[] s4]; [|done].
  split_and!; try done. intros Hwf Hq. apply Hq4, Hq3; [done|].
  apply queued_ok_mark_explored, queued_ok_add_dynamic_obstacle.
  eapply queued_ok_sub; [|done]. apply removelast_elem_of.
Qed.

Lemma ucs_visit_fold_inv s0 visited nbs : ∀ s pq costs,
  steady s0 s → start s0 ∈ visited → heap_ordered pq →
  ∃ s' pq' costs',
    foldl (ucs_visit visited) (s, pq, costs) nbs = (s', pq', costs') ∧
    steady s0 s' ∧ heap_ordered pq' ∧
    (grid_wf s0 → queued_ok s pq → queued_ok s' pq').
Proof.
  induction nbs as [|nb nbs IH]; intros s pq costs Hst Hvis Ho.
  { exists s, pq, costs. by split_and!. }
  cbn [foldl]. unfold ucs_visit at 2.
  destruct (bool_decide (npos nb ∉ visited) &&
            is_valid_position s (x nb) (y nb)) eqn:Hcond.
  2:{ by apply IH. }
  destruct (match costs !! npos nb with
            | Some c => cost nb <? c
            | None => true
            end); [|by apply IH].
  apply andb_true_iff in Hcond as [Hnew Hv]. apply bool_decide_eq_true in Hnew.
  destruct (steady_markers _ _ Hst) as [Hs Ht].
  destruct (heappush_spec pq nb Ho) as [Ho' Hperm].
  assert (Hst1 : steady s0 (mark_frontier (npos nb) (target s) s)).
  { apply steady_mark_frontier; [done| |congruence].
    intros Heq. rewrite Heq in Hnew. done. }
  destruct (IH (mark_frontier (npos nb) (target s) s) (heappush pq nb)
              (<[npos nb := cost nb]> costs) Hst1 Hvis Ho')
    as (s' & pq' & costs' & Hfold & Hst' & Ho'' & Hq').
  exists s', pq', costs'. split_and!; try done.
  intros Hwf Hq. apply Hq'; [done|].
  intros n Hn. rewrite Hperm in Hn. apply elem_of_cons in Hn as [->|Hn].
  - eapply marked_new; [done|by apply Hst|done|]. right. congruence.
  - exact (queued_ok_mark_frontier _ _ _ pq Hq n Hn).
Qed.

Lemma ucs_iterate_inv s0 s pq visited costs :
  steady s0 s → heap_ordered pq →
  start s0 ∈ visited ∨ pq = [start_node s0] →
  match iterate ucs_body s (pq, visited, costs) with
  | Running s' (pq', visited', costs') =>
      steady s0 s' ∧ heap_ordered pq' ∧
      (start s0 ∈ visited' ∨ pq' = [start_node s0]) ∧
      (grid_wf s0 → queued_ok s pq → queued_ok s' pq')
  | Done _ s' => steady s0 s'
  end.
Proof.
  intros Hst Ho Hvis. unfold iterate, ucs_body.
  destruct (heappop pq) as [[current pq']|] eqn:Hpop; [|done].
  destruct (paused s); [done|].
  destruct (heappop_spec _ _ _ Ho Hpop) as (_ & Hperm & Ho').
  assert (Hsub : ∀ n, n ∈ pq' → n ∈ pq).
  { intros n Hn. rewrite <- Hperm. by right. }
  pose proof (steady_add_dynamic_obstacle _ _ Hst) as Hst1.
  destruct (steady_markers _ _ Hst1) as [Hs Ht].
  assert (Hvis' : start s0 ∈ {[npos current]} ∪ visited).
  { destruct Hvis as [?| ->]; [set_solver|].
    rewrite heappop_singleton in Hpop. simplify_eq.
    rewrite npos_start_node. set_solver. }
  case_bool_decide as Hclosed.
  - split_and!; try done.
    + left. destruct Hvis as [?| ->]; [done|].
      rewrite heappop_singleton in Hpop. simplify_eq.
      by rewrite npos_start_node in Hclosed.
    + intros Hwf Hq. apply queued_ok_add_dynamic_obstacle.
      by eapply queued_ok_sub.
  - case_bool_decide as Htg; [by apply steady_visualize_path|].
    assert (Hst2 : steady s0 (mark_explored (npos current)
                                (start (add_dynamic_obstacle s).2)
                                (add_dynamic_obstacle s).2)).
    { apply steady_mark_explored; [done|congruence|congruence]. }
    destruct (ucs_visit_fold_inv s0 ({[npos current]} ∪ visited)
                (get_neighbors (mark_explored (npos current)
                                  (start (add_dynamic_obstacle s).2)
                                  (add_dynamic_obstacle s).2) current)
                _ pq' costs Hst2 Hvis' Ho')
      as (s3 & pq3 & costs3 & -> & Hst3 & Ho3 & Hq3).
    pose proof (steady_handle_events _ _ Hst3) as Hst4.
    pose proof (queued_ok_handle_events s3 pq3) as Hq4.
    destruct (handle_events_during_search s3) as [[] s4]; [|done].
    split_and!; try done; [by left|]. intros Hwf Hq. apply Hq4, Hq3; [done|].
    apply queued_ok_mark_explored, queued_ok_add_dynamic_obstacle.
    by eapply queued_ok_sub.
Qed.

Lemma bidi_visit_fold_inv s0 avoid other nbs : ∀ s queue visited,
  (avoid = start s0 ∧ other = target s0) ∨
  (avoid = target s0 ∧ other = start s0) →
  steady s0 s → is_Some (visited !! avoid) →
  ∃ s' queue' visited',
    foldl (bidi_visit other) (s, queue, visited) nbs = (s', queue', visited') ∧
    steady s0 s' ∧ is_Some (visited' !! avoid) ∧
    (∀ p, is_Some (visited !! p) → is_Some (visited' !! p)) ∧
    (∀ q, queued_ok s q → queued_ok s' q) ∧
    (grid_wf s0 → queued_ok s queue → queued_ok s' queue').
Proof.
  induction nbs as [|nb nbs IH]; intros s queue visited Hroles Hst Hvis.
  { exists s, queue, visited. by split_and!. }
  cbn [foldl]. unfold bidi_visit at 2.
  destruct (bool_decide (visited !! npos nb = None) &&
            is_valid_position s (x nb) (y nb)) eqn:Hcond.
  2:{ by apply IH. }
  apply andb_true_iff in Hcond as [Hnew Hv]. apply bool_decide_eq_true in Hnew.
  assert (Hne : npos nb ≠ avoid).
  { intros Heq. rewrite <- Heq, Hnew in Hvis. by destruct Hvis. }
  assert (Hst1 : steady s0 (mark_frontier (npos nb) other s)).
  { apply steady_mark_frontier; [done|..]; intros Heq;
      destruct Hroles as [[-> ->]|[-> ->]]; congruence. }
  assert (Hsub : ∀ p, is_Some (visited !! p) →
            is_Some (<[npos nb := nb]> visited !! p)).
  { intros p Hp. destruct (decide (npos nb = p)) as [<-|Hnp].
    - by rewrite lookup_insert_eq.
    - by rewrite lookup_insert_ne. }
  destruct (IH (mark_frontier (npos nb) other s) (queue ++ [nb])
              (<[npos nb := nb]> visited) Hroles Hst1)
    as (s' & queue' & visited' & Hfold & Hst' & Hvis' & Hmono & Hall & Hq');
    [by apply Hsub|].
  exists s', queue', visited'. split_and!; try done.
  - intros p Hp. by apply Hmono, Hsub.
  - intros q Hq. by apply Hall, queued_ok_mark_frontier.
  - intros Hwf Hq. apply Hq'; [done|].
    intros n Hn. apply elem_of_app in Hn as [Hn|Hn].
    + exact (queued_ok_mark_frontier _ _ _ queue Hq n Hn).
    + apply list_elem_of_singleton in Hn as ->.
      eapply marked_new; [done|by apply Hst|done|].
      destruct Hroles as [[_ ->]|[_ ->]]; auto.
Qed.

Lemma bidi_forward_steady s0 s l :
  bidi_steady s0 s l →
  match bidi_forward s l with
  | inl _ => True
  | inr (s', l') => bidi_steady s0 s' l'
  end.
Proof.
  intros (Hst & Hf & Hb & Hq). unfold bidi_forward.
  destruct (forward_queue l) as [|current queue'] eqn:Hfq.
  { split_and!; try done. by rewrite Hfq. }
  destruct (backward_visited l !! npos current) eqn:Hother; [done|].
  destruct (steady_markers _ _ Hst) as [Hs Ht].
  assert (Hst1 : steady s0 (mark_explored (npos current) (start s) s)).
  { apply steady_mark_explored; [done|congruence|].
    intros Heq. rewrite <- Heq, Hother in Hb. by destruct Hb. }
  destruct (bidi_visit_fold_inv s0 (start s0)
              (target (mark_explored (npos current) (start s) s))
              (get_neighbors (mark_explored (npos current) (start s) s) current)
              _ queue' (forward_visited l)
              (or_introl (conj eq_refl (proj2 (steady_markers _ _ Hst1))))
              Hst1 Hf)
    as (s' & queue'' & visited' & -> & Hst' & Hvis' & _ & Hall & Hq').
  split_and!; try done. simpl. intros Hwf. destruct (Hq Hwf) as [Hqf Hqb].
  split.
  - apply Hq'; [done|]. apply queued_ok_mark_explored.
    apply (queued_ok_sub _ (current :: queue')); [|done].
    intros n Hn. by right.
  - by apply Hall, queued_ok_mark_explored.
Qed.

Lemma bidi_backward_steady s0 s l :
  bidi_steady s0 s l →
  match bidi_backward s l with
  | inl _ => True
  | inr (s', l') => bidi_steady s0 s' l'
  end.
Proof.
  intros (Hst & Hf & Hb & Hq). unfold bidi_backward.
  destruct (backward_queue l) as [|current queue'] eqn:Hbq.
  { split_and!; try done. by rewrite Hbq. }
  destruct (forward_visited l !! npos current) eqn:Hother; [done|].
  destruct (steady_markers _ _ Hst) as [Hs Ht].
  assert (Hst1 : steady s0 (mark_explored (npos current) (target s) s)).
  { apply steady_mark_explored; [done| |congruence].
    intros Heq. rewrite <- Heq, Hother in Hf. by destruct Hf. }
  destruct (bidi_visit_fold_inv s0 (target s0)
              (start (mark_explored (npos current) (target s) s))
              (get_neighbors (mark_explored (npos current) (target s) s) current)
              _ queue' (backward_visited l)
              (or_intror (conj eq_refl (proj1 (steady_markers _ _ Hst1))))
              Hst1 Hb)
    as (s' & queue'' & visited' & -> & Hst' & Hvis' & _ & Hall & Hq').
  split_and!; try done. simpl. intros Hwf. destruct (Hq Hwf) as [Hqf Hqb].
  split.
  - by apply Hall, queued_ok_mark_explored.
  - apply Hq'; [done|]. apply queued_ok_mark_explored.
    apply (queued_ok_sub _ (current :: queue')); [|done].
    intros n Hn. by right.
Qed.

Lemma bidi_iterate_steady s0 s l :
  bidi_steady s0 s l →
  match iterate bidi_body s l with
  | Running s' l' => bidi_steady s0 s' l'
  | Done _ s' => steady s0 s'
  end.
Proof.
  intros Hinv. unfold iterate, bidi_body.
  assert (Hgo :
    match
      (if paused s then Return RetFalse s
       else
         match bidi_forward (add_dynamic_obstacle s).2 l with
         | inl path =>
             Return (RetTrue path)
               (visualize_path path (add_dynamic_obstacle s).2)
         | inr (s1, l1) =>
             match bidi_backward s1 l1 with
             | inl path => Return (RetTrue path) (visualize_path path s1)
             | inr (s2, l2) => Poll s2 l2
             end
         end)
    with
    | Return _ s' => steady s0 s'
    | Skip s' l' => bidi_steady s0 s' l'
    | Poll s' l' => bidi_steady s0 s' l'
    end).
  { destruct (paused s); [apply Hinv|].
    assert (Hinv1 : bidi_steady s0 (add_dynamic_obstacle s).2 l).
    { destruct Hinv as (Hst & Hf & Hb & Hq). split_and!; try done.
      - by apply steady_add_dynamic_obstacle.
      - intros Hwf. destruct (Hq Hwf).
        split; by apply queued_ok_add_dynamic_obstacle. }
    pose proof (bidi_forward_steady s0 _ l Hinv1) as Hf.
    destruct (bidi_forward _ l) as [path|[s1 l1]].
    { apply steady_visualize_path, Hinv1. }
    pose proof (bidi_backward_steady s0 s1 l1 Hf) as Hb.
    destruct (bidi_backward s1 l1) as [path|[s2 l2]]; [|done].
    apply steady_visualize_path, Hf. }
  assert (Hpoll : ∀ s' l', bidi_steady s0 s' l' →
            match
              (let '(ok, s'') := handle_events_during_search s' in
               if ok then Running s'' l' else Done RetFalse s'')
            with
            | Running s'' l'' => bidi_steady s0 s'' l''
            | Done _ s'' => steady s0 s''
            end).
  { intros s' l' (Hst & Hf & Hb & Hq).
    pose proof (steady_handle_events _ _ Hst) as Hst'.
    pose proof (queued_ok_handle_events s') as Hq'.
    destruct (handle_events_during_search s') as [[] s'']; [|done].
    split_and!; try done. intros Hwf. destruct (Hq Hwf). split; by apply Hq'. }
  destruct (forward_queue l), (backward_queue l); try apply Hinv;
    match goal with
    | |- context [match ?b with Return _ _ => _ | _ => _ end] =>
        destruct b as [r s'|s' l'|s' l']; try done; by apply Hpoll
    end.
Qed.

Lemma dls_for_steady s0 rec visited nbs :
  start s0 ∈ visited →
  (∀ s nb, steady s0 s → steady s0 (rec s nb).2) →
  ∀ s, steady s0 s → steady s0 (dls_for rec visited s nbs).2.
Proof.
  intros Hvis Hrec. induction nbs as [|nb nbs IH]; intros s Hst; [done|].
  cbn [dls_for].
  destruct (bool_decide (npos nb ∉ visited) &&
            is_valid_position s (x nb) (y nb)) eqn:Hcond; [|by apply IH].
  apply andb_true_iff in Hcond as [Hnew _]. apply bool_decide_eq_true in Hnew.
  destruct (steady_markers _ _ Hst) as [Hs Ht].
  assert (Hst1 : steady s0 (mark_frontier (npos nb) (target s) s)).
  { apply steady_mark_frontier; [done| |congruence].
    intros Heq. rewrite Heq in Hnew. done. }
  pose proof (steady_handle_events _ _ Hst1) as Hst2.
  destruct (handle_events_during_search _) as [[] s2]; [|done].
  specialize (Hrec s2 nb Hst2).
  destruct (rec s2 nb) as [[path|] s3]; [done|by apply IH].
Qed.

Lemma dls_recursive_steady s0 depth1 : ∀ s node visited path,
  steady s0 s → start s0 ∈ visited ∨ npos node = start s0 →
  steady s0 (dls_recursive depth1 s node visited path).2.
Proof.
  induction depth1 as [|depth IH]; intros s node visited path Hst Hvis; [done|].
  cbn [dls_recursive]. destruct (paused s); [done|].
  pose proof (steady_add_dynamic_obstacle _ _ Hst) as Hst1.
  destruct (steady_markers _ _ Hst1) as [Hs Ht].
  case_bool_decide as Htg; [by apply steady_visualize_path|].
  assert (Hvis' : start s0 ∈ {[npos node]} ∪ visited) by set_solver.
  apply dls_for_steady; [done| |].
  - intros s' nb Hst'. apply IH; [done|by left].
  - apply steady_mark_explored; [done|congruence|congruence].
Qed.

Lemma iddfs_loop_steady s0 depths : ∀ s,
  steady s0 s → steady s0 (iddfs_loop depths s).2.
Proof.
  induction depths as [|depth depths IH]; intros s Hst; [done|].
  cbn [iddfs_loop].
  pose proof (steady_clear_search_visualization _ _ Hst) as Hst1.
  pose proof (dls_recursive_steady s0 (Z.to_nat (Z.of_nat depth + 1))
                (clear_search_visualization s)
                (start_node (clear_search_visualization s)) ∅ [] Hst1) as Hd.
  lapply Hd.
  2:{ right. rewrite npos_start_node. by apply steady_markers. }
  clear Hd. intros Hd. unfold depth_limited_search.
  destruct (dls_recursive _ _ _ _ _) as [[path|] s']; [done|].
  destruct (paused s'); [done|by apply IH].
Qed.

Lemma marked_start s : cell s (start s) = START → queued_ok s [start_node s].
Proof.
  intros Hc n Hn. apply list_elem_of_singleton in Hn as ->.
  unfold marked. rewrite npos_start_node, Hc. set_solver.
Qed.

Lemma marked_target s : cell s (target s) = TARGET → queued_ok s [target_node s].
Proof.
  intros Hc n Hn. apply list_elem_of_singleton in Hn as ->.
  unfold marked. rewrite npos_target_node, Hc. set_solver.
Qed.

Lemma bfs_search_inv s fuel :
  cell s (start s) = START → cell s (target s) = TARGET →
  match breadth_first_search fuel s with
  | Running s' (queue, _) => steady s s' ∧ (grid_wf s → queued_ok s' queue)
  | Done _ s' => steady s s'
  end.
Proof.
  intros Hs Ht.
  pose proof (loop_invariant bfs_body
    (λ s1 l, steady s s1 ∧ start s ∈ l.2 ∧ (grid_wf s → queued_ok s1 l.1))
    (λ _ s1, steady s s1)) as Hinv.
  lapply Hinv; [clear Hinv; intros Hinv|].
  - specialize (Hinv fuel s ([start_node s], {[start s]})).
    lapply Hinv; [clear Hinv; intros Hinv|].
    + unfold breadth_first_search.
      destruct (loop _ _ _ _) as [r s'|s' [queue visited]]; [done|].
      destruct Hinv as (? & _ & ?). done.
    + split_and!; [by apply steady_refl|set_solver|
                   intros _; by apply marked_start].
  - intros s1 [queue visited] (Hst & Hvis & Hq).
    pose proof (bfs_iterate_inv s s1 queue visited Hst Hvis) as Hit.
    destruct (iterate bfs_body s1 (queue, visited)) as [r s'|s' [q' v']];
      [done|].
    destruct Hit as (? & ? & Hq'). split_and!; auto.
Qed.

Lemma dfs_search_inv s fuel :
  cell s (start s) = START → cell s (target s) = TARGET →
  match depth_first_search fuel s with
  | Running s' (stack, _) => steady s s' ∧ (grid_wf s → queued_ok s' stack)
  | Done _ s' => steady s s'
  end.
Proof.
  intros Hs Ht.
  pose proof (loop_invariant dfs_body
    (λ s1 l, steady s s1 ∧ start s ∈ l.2 ∧ (grid_wf s → queued_ok s1 l.1))
    (λ _ s1, steady s s1)) as Hinv.
  lapply Hinv; [clear Hinv; intros Hinv|].
  - specialize (Hinv fuel s ([start_node s], {[start s]})).
    lapply Hinv; [clear Hinv; intros Hinv|].
    + unfold depth_first_search.
      destruct (loop _ _ _ _) as [r s'|s' [queue visited]]; [done|].
      destruct Hinv as (? & _ & ?). done.
    + split_and!; [by apply steady_refl|set_solver|
                   intros _; by apply marked_start].
  - intros s1 [queue visited] (Hst & Hvis & Hq).
    pose proof (dfs_iterate_inv s s1 queue visited Hst Hvis) as Hit.
    destruct (iterate dfs_body s1 (queue, visited)) as [r s'|s' [q' v']];
      [done|].
    destruct Hit as (? & ? & Hq'). split_and!; auto.
Qed.

Lemma ucs_search_inv s fuel :
  cell s (start s) = START → cell s (target s) = TARGET →
  match uniform_cost_search fuel s with
  | Running s' (pq, _, _) => steady s s' ∧ (grid_wf s → queued_ok s' pq)
  | Done _ s' => steady s s'
  end.
Proof.
  intros Hs Ht.
  pose proof (loop_invariant ucs_body
    (λ s1 l, steady s s1 ∧ heap_ordered l.1.1 ∧
             (start s ∈ l.1.2 ∨ l.1.1 = [start_node s]) ∧
             (grid_wf s → queued_ok s1 l.1.1))
    (λ _ s1, steady s s1)) as Hinv.
  lapply Hinv; [clear Hinv; intros Hinv|].
  - specialize (Hinv fuel s ([start_node s], ∅, {[start s := 0]})).
    lapply Hinv; [clear Hinv; intros Hinv|].
    + unfold uniform_cost_search.
      destruct (loop _ _ _ _) as [r s'|s' [[pq visited] costs]]; [done|].
      destruct Hinv as (? & _ & _ & ?). done.
    + split_and!; [by apply steady_refl|
                   intros [|[|j]] c p Hj Hc Hp; simplify_eq/=; lia|
                   by right|intros _; by apply marked_start].
  - intros s1 [[pq visited] costs] (Hst & Ho & Hvis & Hq).
    pose proof (ucs_iterate_inv s s1 pq visited costs Hst Ho Hvis) as Hit.
    destruct (iterate ucs_body s1 (pq, visited, costs))
      as [r s'|s' [[pq' v'] c']]; [done|].
    destruct Hit as (? & ? & ? & Hq'). split_and!; auto.
Qed.

Lemma bidi_search_steady s fuel :
  cell s (start s) = START → cell s (target s) = TARGET →
  match bidirectional_search fuel s with
  | Running s' l => bidi_steady s s' l
  | Done _ s' => steady s s'
  end.
Proof.
  intros Hs Ht.
  pose proof (loop_invariant bidi_body (bidi_steady s) (λ _ s1, steady s s1))
    as Hinv.
  lapply Hinv; [clear Hinv; intros Hinv|].
  - unfold bidirectional_search. apply Hinv. split_and!; simpl.
    + by apply steady_refl.
    + by rewrite lookup_singleton_eq.
    + by rewrite lookup_singleton_eq.
    + intros _. split; [by apply marked_start|by apply marked_target].
  - intros s1 l Hl. apply (bidi_iterate_steady s s1 l Hl).
Qed.

(** C10.  If the cells of the start and of the target carry their markers
    when a strategy starts, they carry them after any number of iterations
    of BFS, DFS, UCS and bidirectional search and when these return, also
    after the path was drawn, and when depth-limited search (with any
    limit) and iterative deepening return; the two positions themselves do
    not change.  No [FRONTIER], [EXPLORED] or [PATH] is ever written into
    one of the two cells. *)
Theorem markers_retained (s : Pathfinder) (fuel : nat) (depth_limit : Z) :
  cell s (start s) = START → cell s (target s) = TARGET →
  markers_kept s (run_state (breadth_first_search fuel s)) ∧
  markers_kept s (run_state (depth_first_search fuel s)) ∧
  markers_kept s (run_state (uniform_cost_search fuel s)) ∧
  markers_kept s (depth_limited_search depth_limit s).2 ∧
  markers_kept s (iterative_deepening_dfs s).2 ∧
  markers_kept s (run_state (bidirectional_search fuel s)).
Proof.
  intros Hs Ht. split_and!.
  - pose proof (bfs_search_inv s fuel Hs Ht) as H.
    destruct (breadth_first_search fuel s) as [r s'|s' [q v]]; apply H.
  - pose proof (dfs_search_inv s fuel Hs Ht) as H.
    destruct (depth_first_search fuel s) as [r s'|s' [q v]]; apply H.
  - pose proof (ucs_search_inv s fuel Hs Ht) as H.
    destruct (uniform_cost_search fuel s) as [r s'|s' [[q v] c]]; apply H.
  - apply (dls_recursive_steady s); [by apply steady_refl|].
    right. apply npos_start_node.
  - apply (iddfs_loop_steady s). by apply steady_refl.
  - pose proof (bidi_search_steady s fuel Hs Ht) as H.
    destruct (bidirectional_search fuel s) as [r s'|s' l]; apply H.
Qed.

(** The maze: breadth-first search after 40 iterations, and depth-limited
    search with limit 3. *)
Lemma markers_retained_witness :
  cell maze (1, 1) = START ∧ cell maze (18, 23) = TARGET ∧
  markers_kept maze (run_state (breadth_first_search 40 maze)) ∧
  markers_kept maze (depth_limited_search 3 maze).2.
Proof.
  assert (Hs : cell maze (start maze) = START) by (vm_compute; reflexivity).
  assert (Ht : cell maze (target maze) = TARGET) by (vm_compute; reflexivity).
  split; [exact Hs|]. split; [exact Ht|].
  destruct (markers_retained maze 40 3 Hs Ht) as (H1 & _ & _ & H4 & _).
  split; [exact H1|exact H4].
Defined.




(** ** Pause and cancellation *)

Lemma handle_events_quit evs b : QUIT ∈ evs → (handle_events evs b).1 = false.
Proof.
  revert b. induction evs as [|e evs IH]; intros b Hq.
  - by apply elem_of_nil in Hq.
  - apply elem_of_cons in Hq as [<-|Hq]; [done|].
    destruct e as [|[]| |]; simpl; auto.
Qed.

Lemma handle_events_during_search_quit s :
  QUIT ∈ events s (polls s) → (handle_events_during_search s).1 = false.
Proof.
  intros Hq. unfold handle_events_during_search.
  pose proof (handle_events_quit _ (paused s) Hq) as H.
  by destruct (handle_events _ _) as [ok pause]; simpl in *; subst.
Qed.

Lemma loop_quit {L : Type} (body : Pathfinder → L → Body L) s l s1 l1 fuel :
  body s l = Poll s1 l1 → QUIT ∈ events s1 (polls s1) →
  loop body (S fuel) s l = Done RetFalse (handle_events_during_search s1).2.
Proof.
  intros Hbody Hq. cbn [loop]. unfold iterate. rewrite Hbody.
  pose proof (handle_events_during_search_quit s1 Hq) as H.
  destruct (handle_events_during_search s1) as [ok s2]. simpl in *. by subst.
Qed.

(** C2, as the code has it.  A pause does not freeze a run: it ends it.
    When the pause flag is set at the test of the loop, BFS, DFS, UCS and
    bidirectional search leave the loop and return [False] at once, the
    pathfinder unchanged and the frontier and the visited set given up; a
    call of the depth-limited recursion made while the flag is set returns
    [False] without expanding, and iterative deepening returns [False]
    after its first depth.  The space key is what sets the flag during a
    search. *)
Theorem pause_ends_run (s : Pathfinder) :
  paused s = true →
  (∀ fuel l, loop bfs_body (S fuel) s l = Done RetFalse s) ∧
  (∀ fuel l, loop dfs_body (S fuel) s l = Done RetFalse s) ∧
  (∀ fuel l, loop ucs_body (S fuel) s l = Done RetFalse s) ∧
  (∀ fuel l, loop bidi_body (S fuel) s l = Done RetFalse s) ∧
  (∀ depth1 node visited path,
     dls_recursive depth1 s node visited path = (RetFalse, s)) ∧
  iterative_deepening_dfs s = (RetFalse, clear_search_visualization s) ∧
  (∀ s1, paused s1 = false → events s1 (polls s1) = [KEYDOWN K_SPACE] →
     (handle_events_during_search s1).1 = true ∧
     paused (handle_events_during_search s1).2 = true).
Proof.
  intros Hp.
  assert (Hdls : ∀ s', paused s' = true → ∀ depth1 node visited path,
            dls_recursive depth1 s' node visited path = (RetFalse, s')).
  { intros s' Hp' [|depth] node visited path; [done|]. cbn [dls_recursive].
    by rewrite Hp'. }
  split_and!.
  - intros fuel [queue visited]. cbn [loop]. unfold iterate, bfs_body.
    rewrite Hp. by destruct queue.
  - intros fuel [stack visited]. cbn [loop]. unfold iterate, dfs_body.
    rewrite Hp. by destruct (last stack).
  - intros fuel [[pq visited] costs]. cbn [loop]. unfold iterate, ucs_body.
    rewrite Hp. by destruct (heappop pq) as [[? ?]|].
  - intros fuel l. cbn [loop]. unfold iterate, bidi_body.
    rewrite Hp. by destruct (forward_queue l), (backward_queue l).
  - by apply Hdls.
  - unfold iterative_deepening_dfs.
    change (seq 0 30) with (0%nat :: seq 1 29). cbn [iddfs_loop].
    unfold depth_limited_search.
    assert (Hp' : paused (clear_search_visualization s) = true)
      by (by rewrite clear_search_visualization_paused).
    by rewrite Hdls, Hp'.
  - intros s1 Hp1 Hev. unfold handle_events_during_search.
    rewrite Hev, Hp1. done.
Qed.

(** The maze with the pause flag set. *)
Lemma pause_ends_run_witness :
  let s := with_paused true maze in
  paused s = true ∧
  breadth_first_search 5 s = Done RetFalse s ∧
  depth_limited_search 15 s = (RetFalse, s).
Proof.
  intros s. assert (Hp : paused s = true) by reflexivity.
  destruct (pause_ends_run s Hp) as (Hbfs & _ & _ & _ & Hdls & _).
  split_and!; [done|apply Hbfs|apply Hdls].
Defined.

(** C2 fails as stated.  On the open 3 x 3 grid BFS finds a path; when the
    space key arrives in the first batch of events, the same run ends
    after that iteration and reports that no path was found. *)
Lemma pause_changes_outcome_counterexample :
  fst <$> run_algorithm 50 (small_grid no_events) = Some (Some Path_found) ∧
  fst <$> run_algorithm 50 (small_grid space_once) = Some (Some No_path_found) ∧
  (∃ s1 l1, breadth_first_search 1 (small_grid space_once) = Running s1 l1 ∧
            paused s1 = true ∧ l1.1 ≠ []) ∧
  (∃ s2, breadth_first_search 2 (small_grid space_once) = Done RetFalse s2).
Proof.
  split_and!; try (vm_compute; reflexivity).
  - eexists _, _. split; [vm_compute; reflexivity|]. split; [reflexivity|done].
  - eexists. vm_compute; reflexivity.
Qed.

(** C3, as the code has it.  A window close that
    [handle_events_during_search] sees at the bottom of an iteration of
    BFS, DFS, UCS or bidirectional search ends the run at once, and the
    strategy returns [False], the value it returns when the frontier is
    exhausted; [run_algorithm] prints its line from that value alone, so a
    cancelled run is reported as ["No path found!"]. *)
Theorem cancel_returns_false (fuel : nat) :
  (∀ s l s1 l1, bfs_body s l = Poll s1 l1 → QUIT ∈ events s1 (polls s1) →
     loop bfs_body (S fuel) s l =
       Done RetFalse (handle_events_during_search s1).2) ∧
  (∀ s l s1 l1, dfs_body s l = Poll s1 l1 → QUIT ∈ events s1 (polls s1) →
     loop dfs_body (S fuel) s l =
       Done RetFalse (handle_events_during_search s1).2) ∧
  (∀ s l s1 l1, ucs_body s l = Poll s1 l1 → QUIT ∈ events s1 (polls s1) →
     loop ucs_body (S fuel) s l =
       Done RetFalse (handle_events_during_search s1).2) ∧
  (∀ s l s1 l1, bidi_body s l = Poll s1 l1 → QUIT ∈ events s1 (polls s1) →
     loop bidi_body (S fuel) s l =
       Done RetFalse (handle_events_during_search s1).2) ∧
  (∀ s r s1,
     is_searching s = false →
     run_strategy fuel (with_flags true false false
                          (clear_search_visualization s)) = Some (r, s1) →
     fst <$> run_algorithm fuel s =
       Some (Some (if success r then Path_found else No_path_found))).
Proof.
  split_and!; try (intros; eapply loop_quit; eassumption).
  intros s r s1 Hsearch Hrun. unfold run_algorithm. revert Hsearch.
  destruct (is_searching s); [done|intros _]. cbv zeta. by rewrite Hrun.
Qed.

(** The open 3 x 3 grid with a window close in the first batch of events. *)
Lemma cancel_returns_false_witness :
  ∃ s', breadth_first_search 5 (small_grid quit_once) = Done RetFalse s' ∧
        fst <$> run_algorithm 5 (small_grid quit_once) = Some (Some No_path_found).
Proof.
  destruct (cancel_returns_false 4) as (Hbfs & _).
  eexists. split; [|vm_compute; reflexivity].
  unfold breadth_first_search. eapply Hbfs.
  - vm_compute; reflexivity.
  - vm_compute. left.
Defined.

(** C3 fails as stated.  The run on the open 3 x 3 grid that a window close
    cancels after its first iteration, and the run on the walled grid that
    exhausts its frontier, hand the same report to the caller; without
    the window close the first run finds a path. *)
Lemma cancel_indistinguishable_counterexample :
  report (run_algorithm 50 (small_grid quit_once)) =
    report (run_algorithm 50 walled_grid) ∧
  report (run_algorithm 50 walled_grid) =
    Some (Some No_path_found, false, true) ∧
  (∃ s', breadth_first_search 1 (small_grid quit_once) = Done RetFalse s') ∧
  fst <$> run_algorithm 50 (small_grid no_events) = Some (Some Path_found).
Proof.
  split_and!; try (vm_compute; reflexivity).
  eexists. vm_compute; reflexivity.
Qed.

(** ** The overlay and the editing of walls *)

Lemma elem_of_grid_positions s p : p ∈ grid_positions s ↔ in_grid s p = true.
Proof.
  rewrite <- elem_of_all_cells. unfold all_cells. by rewrite elem_of_list_to_set.
Qed.

Lemma cell_outside s p : grid_wf s → in_grid s p = false → cell s p = EMPTY.
Proof.
  intros [Hlen Hrows] Hout. unfold cell, cell_at.
  destruct ((0 <=? p.1) && (0 <=? p.2)) eqn:Hnn; [|done].
  apply andb_true_iff in Hnn as [H1 H2].
  destruct (grid s !! Z.to_nat p.1) as [row|] eqn:Hrow; [|done].
  destruct (row !! Z.to_nat p.2) as [c|] eqn:Hc; [|done].
  apply lookup_lt_Some in Hrow as Hlt.
  assert (Hr : length row = Z.to_nat (cols s)).
  { apply (Forall_lookup_1 _ _ _ _ Hrows Hrow). }
  apply lookup_lt_Some in Hc.
  assert (in_grid s p = true); [|congruence].
  apply in_grid_spec. lia.
Qed.

Lemma fold_with_grid (f : Pathfinder → pos → Pathfinder) ps :
  (∀ s p, ∃ g, f s p = with_grid g s) →
  ∀ s, ∃ g, foldl f s ps = with_grid g s.
Proof.
  intros Hf. induction ps as [|p ps IH]; intros s.
  - exists (grid s). by destruct s.
  - cbn [foldl]. destruct (Hf s p) as [g ->].
    destruct (IH (with_grid g s)) as [g' ->]. by exists g'.
Qed.

Lemma clear_fold_grid (test : CellType → bool) ps s :
  ∃ g, foldl (fun s p => if test (cell s p) then set_cell p EMPTY s else s)
         s ps = with_grid g s.
Proof.
  apply fold_with_grid. clear. intros s p. destruct (test _).
  - by eexists.
  - exists (grid s). by destruct s.
Qed.

Lemma clear_fold_cell (test : CellType → bool) ps : ∀ s q,
  grid_wf s → (∀ p, p ∈ ps → in_grid s p = true) →
  cell (foldl (fun s p => if test (cell s p) then set_cell p EMPTY s else s)
          s ps) q =
  if bool_decide (q ∈ ps) && test (cell s q) then EMPTY else cell s q.
Proof.
  induction ps as [|p ps IH]; intros s q Hwf Hin.
  - rewrite bool_decide_eq_false_2; [done|]. apply not_elem_of_nil.
  - cbn [foldl]. destruct (test (cell s p)) eqn:Hp.
    + rewrite IH.
      * destruct (decide (q = p)) as [->|Hne].
        -- rewrite cell_set_same by (try done; apply Hin; left).
           rewrite (bool_decide_eq_true_2 (p ∈ p :: ps)) by left.
           rewrite Hp. by destruct (_ && _).
        -- rewrite cell_set_other by done.
           by rewrite (bool_decide_ext (q ∈ p :: ps) (q ∈ ps)) by set_solver.
      * by apply grid_wf_set_cell.
      * intros p' Hp'. apply (Hin p'). by right.
    + rewrite IH; [|done|intros p' Hp'; apply Hin; by right].
      destruct (decide (q = p)) as [->|Hne].
      * rewrite Hp, !andb_false_r. done.
      * by rewrite (bool_decide_ext (q ∈ p :: ps) (q ∈ ps)) by set_solver.
Qed.

Lemma clear_fold_wf (test : CellType → bool) ps : ∀ s,
  grid_wf s →
  grid_wf (foldl (fun s p => if test (cell s p) then set_cell p EMPTY s else s)
             s ps).
Proof.
  induction ps as [|p ps IH]; intros s Hwf; [done|]. cbn [foldl]. apply IH.
  destruct (test _); [by apply grid_wf_set_cell|done].
Qed.

(** X1. [clear_search_visualization] on a well-formed grid with both
    markers inside: afterwards the cell of the target is TARGET and the
    cell of the start is START (the target wins where both are the same
    position), every other cell that was FRONTIER, EXPLORED or PATH is
    EMPTY, and every other cell, walls and dynamic obstacles included, is
    what it was.  The shape of the grid, the markers and the list of the
    dynamic obstacles are unchanged. *)
Theorem clear_search_visualization_cells (s : Pathfinder) :
  grid_wf s → in_grid s (start s) = true → in_grid s (target s) = true →
  let s' := clear_search_visualization s in
  (∀ p, cell s' p =
        if decide (p = target s) then TARGET
        else if decide (p = start s) then START
        else if decide (cell s p ∈ [FRONTIER; EXPLORED; PATH]) then EMPTY
        else cell s p) ∧
  grid_wf s' ∧ start s' = start s ∧ target s' = target s ∧
  dynamic_obstacles_added s' = dynamic_obstacles_added s.
Proof.
  intros Hwf Hs Ht s'. subst s'. unfold clear_search_visualization.
  pose proof (clear_fold_cell
    (fun c => bool_decide (c ∈ [FRONTIER; EXPLORED; PATH]))
    (grid_positions s) s) as Hcell.
  pose proof (clear_fold_wf
    (fun c => bool_decide (c ∈ [FRONTIER; EXPLORED; PATH]))
    (grid_positions s) s Hwf) as Hwf1.
  destruct (clear_fold_grid
    (fun c => bool_decide (c ∈ [FRONTIER; EXPLORED; PATH]))
    (grid_positions s) s) as [g Hg].
  cbv beta in *. rewrite Hg in *. cbv zeta.
  change (start (with_grid g s)) with (start s).
  change (target (set_cell (start s) START (with_grid g s))) with (target s).
  split_and!; try done.
  - intros p. destruct (decide (p = target s)) as [->|Hpt].
    { apply cell_set_same; [by apply grid_wf_set_cell|done]. }
    rewrite cell_set_other by done.
    destruct (decide (p = start s)) as [->|Hps].
    { by apply cell_set_same. }
    rewrite cell_set_other by done.
    rewrite Hcell; [|done|by intros ? ?%elem_of_grid_positions].
    destruct (decide (cell s p ∈ _)) as [Hc|Hc].
    + rewrite (bool_decide_eq_true_2 _ Hc), andb_true_r.
      case_bool_decide as Hin; [done|].
      rewrite elem_of_grid_positions in Hin. apply not_true_is_false in Hin.
      rewrite (cell_outside s p Hwf Hin) in Hc. set_solver.
    + by rewrite (bool_decide_eq_false_2 _ Hc), andb_false_r.
  - by do 2 apply grid_wf_set_cell.
Qed.

(** X2. [clear_all] on a well-formed grid: a cell that holds START or
    TARGET keeps its value and every other cell becomes EMPTY, so that
    every position of the grid is valid for a move afterwards; the list of
    the dynamic obstacles is empty; the shape of the grid and the markers
    are unchanged. *)
Theorem clear_all_cells (s : Pathfinder) :
  grid_wf s →
  let s' := clear_all s in
  (∀ p, cell s' p =
        if decide (cell s p ∈ [START; TARGET]) then cell s p else EMPTY) ∧
  (∀ r c, is_valid_position s' r c = in_grid s (r, c)) ∧
  dynamic_obstacles_added s' = [] ∧
  grid_wf s' ∧ start s' = start s ∧ target s' = target s.
Proof.
  intros Hwf s'. subst s'. unfold clear_all.
  pose proof (clear_fold_cell
    (fun c => bool_decide (c ∉ [START; TARGET]))
    (grid_positions s) s) as Hcell.
  pose proof (clear_fold_wf
    (fun c => bool_decide (c ∉ [START; TARGET]))
    (grid_positions s) s Hwf) as Hwf1.
  destruct (clear_fold_grid
    (fun c => bool_decide (c ∉ [START; TARGET]))
    (grid_positions s) s) as [g Hg].
  cbv beta in *. rewrite Hg in *. cbv zeta.
  assert (Hc : ∀ p, cell (with_obstacles [] (with_grid g s)) p =
                    if decide (cell s p ∈ [START; TARGET]) then cell s p
                    else EMPTY).
  { intros p. change (cell (with_obstacles [] (with_grid g s)) p)
      with (cell (with_grid g s) p).
    rewrite Hcell; [|done|by intros ? ?%elem_of_grid_positions].
    destruct (decide (cell s p ∈ _)) as [Hc|Hc].
    + rewrite (bool_decide_eq_false_2 (cell s p ∉ _)) by tauto.
      by rewrite andb_false_r.
    + rewrite (bool_decide_eq_true_2 _ Hc), andb_true_r.
      case_bool_decide as Hin; [done|].
      rewrite elem_of_grid_positions in Hin. apply not_true_is_false in Hin.
      apply (cell_outside s p Hwf Hin). }
  split_and!; try done.
  intros r c. destruct (in_grid s (r, c)) eqn:Hin.
  - apply is_valid_position_spec. split; [done|]. rewrite Hc.
    destruct (decide _) as [Hm|]; [|done].
    apply elem_of_cons in Hm as [->|Hm]; [done|].
    apply elem_of_cons in Hm as [->|Hm]; [done|]. by apply elem_of_nil in Hm.
  - apply not_true_is_false. intros (Hin' & _)%is_valid_position_spec.
    change (in_grid (with_obstacles [] (with_grid g s)) (r, c))
      with (in_grid s (r, c)) in Hin'. congruence.
Qed.

Lemma visualize_path_grid path : ∀ s,
  ∃ g, visualize_path path s = with_grid g s.
Proof.
  unfold visualize_path. induction path as [|p path IH]; intros s.
  - exists (grid s). by destruct s.
  - cbn [foldl]. destruct (_ && _).
    + destruct (IH (set_cell p PATH s)) as [g ->]. by exists g.
    + apply IH.
Qed.

Lemma visualize_path_wf path : ∀ s,
  grid_wf s → grid_wf (visualize_path path s).
Proof.
  unfold visualize_path. induction path as [|p path IH]; intros s Hwf; [done|].
  cbn [foldl]. apply IH. destruct (_ && _); [by apply grid_wf_set_cell|done].
Qed.

(** X3. [visualize_path] on a well-formed grid and a path inside of it:
    the cells of the path become PATH, except the start and the target,
    whatever they held before; every other cell, the shape of the grid and
    the markers are unchanged. *)
Theorem visualize_path_cells (s : Pathfinder) (path : list pos) :
  grid_wf s → (∀ p, p ∈ path → in_grid s p = true) →
  let s' := visualize_path path s in
  (∀ q, cell s' q =
        if decide (q ∈ path ∧ q ≠ start s ∧ q ≠ target s) then PATH
        else cell s q) ∧
  grid_wf s' ∧ start s' = start s ∧ target s' = target s.
Proof.
  intros Hwf Hin s'. subst s'.
  destruct (visualize_path_grid path s) as [g Hg].
  split_and!; [|by apply visualize_path_wf|by rewrite Hg..].
  clear g Hg. revert s Hwf Hin. unfold visualize_path.
  induction path as [|p path IH]; intros s Hwf Hin q.
  - cbn [foldl]. destruct (decide _) as [[H _]|]; [|done].
    by apply elem_of_nil in H.
  - cbn [foldl]. destruct (bool_decide (p ≠ start s) && bool_decide (p ≠ target s))
      eqn:Hp.
    + rewrite IH; [|by apply grid_wf_set_cell|intros; apply Hin; by right].
      change (start (set_cell p PATH s)) with (start s).
      change (target (set_cell p PATH s)) with (target s).
      apply andb_true_iff in Hp as [Hp1%bool_decide_eq_true Hp2%bool_decide_eq_true].
      destruct (decide (q = p)) as [->|Hne].
      * rewrite cell_set_same by (try done; apply Hin; left).
        rewrite (decide_True (P := p ∈ p :: path ∧ _)) by (split_and!; [left|done..]).
        by destruct (decide _).
      * rewrite cell_set_other by done.
        destruct (decide (q ∈ path ∧ _)) as [Hq|Hq].
        -- rewrite decide_True; [done|]. set_solver.
        -- rewrite decide_False; [done|]. set_solver.
    + rewrite IH; [|done|intros; apply Hin; by right].
      apply andb_false_iff in Hp.
      destruct (decide (q ∈ path ∧ _)) as [Hq|Hq].
      * rewrite decide_True; [done|]. set_solver.
      * rewrite decide_False; [done|]. intros (Hq1 & Hq2 & Hq3). apply Hq.
        split_and!; try done. apply elem_of_cons in Hq1 as [->|]; [|done].
        destruct Hp as [Hp|Hp]; apply bool_decide_eq_false in Hp; by destruct Hp.
Qed.

(** ** Editing walls *)

Lemma set_cell_at_restore g p v :
  set_cell_at (set_cell_at g p v) p (cell_at g p) = g.
Proof.
  unfold set_cell_at, cell_at.
  destruct ((0 <=? p.1) && (0 <=? p.2)) eqn:Hnn; [|done].
  rewrite list_alter_alter_eq. apply list_eq. intros i.
  destruct (decide (i = Z.to_nat p.1)) as [->|Hne].
  - rewrite list_lookup_alter_eq.
    destruct (g !! Z.to_nat p.1) as [row|] eqn:Hrow; [|done].
    simpl. f_equal. rewrite list_insert_insert_eq.
    destruct (row !! Z.to_nat p.2) as [c|] eqn:Hc.
    + by apply list_insert_id.
    + apply list_insert_ge. by apply lookup_ge_None.
  - by rewrite list_lookup_alter_ne.
Qed.

Lemma with_grid_id s : with_grid (grid s) s = s.
Proof. by destruct s. Qed.

Lemma set_cell_restore s p v : set_cell p (cell s p) (set_cell p v s) = s.
Proof.
  unfold set_cell, cell. cbn [grid with_grid].
  rewrite set_cell_at_restore.
  change (with_grid (grid s) (with_grid (set_cell_at (grid s) p v) s))
    with (with_grid (grid s) s).
  apply with_grid_id.
Qed.

Lemma click_row_col s (click : Z * Z) :
  0 < grid_size s →
  in_grid s (click.2 / grid_size s, click.1 / grid_size s) = true →
  (click.2 >? grid_height s) = false ∧
  (0 <=? click.2 / grid_size s) && (click.2 / grid_size s <? rows s) &&
  (0 <=? click.1 / grid_size s) && (click.1 / grid_size s <? cols s) = true.
Proof.
  intros Hgs Hin. split; [|exact Hin].
  apply in_grid_spec in Hin. simpl in Hin. unfold grid_height.
  assert (click.2 < rows s * grid_size s); [|lia].
  destruct Hin as [[_ Hr] _].
  apply Z.lt_le_trans with (grid_size s * (click.2 / grid_size s + 1)); [|nia].
  pose proof (Z.mul_succ_div_gt click.2 (grid_size s) Hgs). lia.
Qed.

(** X4. [handle_grid_click] in WALL mode, on a pixel of the cell [p] of the
    grid: an EMPTY cell becomes a WALL, a WALL becomes EMPTY, and a cell
    that holds anything else (a marker, a colour of the search, a dynamic
    obstacle) stays as it is; no other cell and no marker changes; a
    second click on the same pixel gives the first pathfinder back. *)
Theorem handle_grid_click_toggles_wall (s : Pathfinder) (click : Z * Z) :
  grid_wf s → 0 < grid_size s → current_mode s = MODE_WALL →
  let p := (click.2 / grid_size s, click.1 / grid_size s) in
  in_grid s p = true →
  let s' := handle_grid_click click s in
  cell s' p = match cell s p with
              | EMPTY => WALL
              | WALL => EMPTY
              | c => c
              end ∧
  (∀ q, q ≠ p → cell s' q = cell s q) ∧
  start s' = start s ∧ target s' = target s ∧
  handle_grid_click click s' = s.
Proof.
  intros Hwf Hgs Hmode p Hin s'.
  destruct (click_row_col s click Hgs Hin) as [Hh Hb].
  assert (Hs' : s' = if decide (cell s p = EMPTY) then set_cell p WALL s
                     else if decide (cell s p = WALL) then set_cell p EMPTY s
                     else s).
  { subst s'. unfold handle_grid_click. by rewrite Hh, Hb, Hmode. }
  assert (Hagain : ∀ s1, grid_size s1 = grid_size s → rows s1 = rows s →
            cols s1 = cols s → current_mode s1 = MODE_WALL →
            handle_grid_click click s1 =
              if decide (cell s1 p = EMPTY) then set_cell p WALL s1
              else if decide (cell s1 p = WALL) then set_cell p EMPTY s1
              else s1).
  { intros s1 Hg1 Hr1 Hc1 Hm1. unfold handle_grid_click, grid_height.
    unfold grid_height in Hh. by rewrite Hg1, Hr1, Hc1, Hh, Hb, Hm1. }
  clearbody s'. subst s'.
  destruct (decide (cell s p = EMPTY)) as [He|He].
  - rewrite He. split_and!; try done.
    + by apply cell_set_same.
    + intros q Hq. by apply cell_set_other.
    + rewrite Hagain by done.
      rewrite (cell_set_same s p WALL Hwf Hin).
      rewrite decide_False by done. rewrite decide_True by done.
      rewrite <- He at 1. apply set_cell_restore.
  - destruct (decide (cell s p = WALL)) as [Hw|Hw].
    + rewrite Hw. split_and!; try done.
      * by apply cell_set_same.
      * intros q Hq. by apply cell_set_other.
      * rewrite Hagain by done.
        rewrite (cell_set_same s p EMPTY Hwf Hin).
        rewrite decide_True by done.
        rewrite <- Hw at 1. apply set_cell_restore.
    + split_and!; try done.
      * by destruct (cell s p).
      * rewrite Hagain by done. by rewrite !decide_False.
Qed.

(** X5. [handle_grid_click] on a pixel left of, right of, above or below
    the cells of the grid changes nothing. *)
Theorem handle_grid_click_outside (s : Pathfinder) (click : Z * Z) :
  0 < grid_size s →
  click.1 < 0 ∨ grid_width s <= click.1 ∨
  click.2 < 0 ∨ grid_height s <= click.2 →
  handle_grid_click click s = s.
Proof.
  intros Hgs Hout. unfold handle_grid_click.
  destruct (click.2 >? grid_height s); [done|].
  destruct (_ && _) eqn:Hb; [|done]. exfalso.
  repeat (apply andb_true_iff in Hb as [Hb ?]).
  unfold grid_width, grid_height in Hout.
  pose proof (Z.mul_div_le click.1 (grid_size s) Hgs).
  pose proof (Z.mul_div_le click.2 (grid_size s) Hgs).
  pose proof (Z.mul_succ_div_gt click.1 (grid_size s) Hgs).
  pose proof (Z.mul_succ_div_gt click.2 (grid_size s) Hgs).
  destruct Hout as [?|[?|[?|?]]]; nia.
Qed.

(** ** The events of a step *)

Lemma handle_events_spaces evs : ∀ b,
  QUIT ∉ evs →
  handle_events evs b = (true, xorb b (Nat.odd (space_presses evs))).
Proof.
  unfold space_presses.
  induction evs as [|e evs IH]; intros b Hq.
  - by rewrite xorb_false_r.
  - assert (Hq' : QUIT ∉ evs) by (intros ?; apply Hq; by right).
    destruct e as [|[]| |]; cbn [handle_events List.filter is_space_key];
      try (by apply IH).
    + destruct Hq. left.
    + rewrite IH by done. cbn [length]. rewrite Nat.odd_succ, <- Nat.negb_odd.
      f_equal. by destruct b, (Nat.odd _).
Qed.

Lemma handle_events_quit_at before after : ∀ b,
  QUIT ∉ before →
  handle_events (before ++ QUIT :: after) b =
    (false, xorb b (Nat.odd (space_presses before))).
Proof.
  unfold space_presses.
  induction before as [|e evs IH]; intros b Hq.
  - simpl. by rewrite xorb_false_r.
  - assert (Hq' : QUIT ∉ evs) by (intros ?; apply Hq; by right).
    destruct e as [|[]| |];
      cbn [app handle_events List.filter is_space_key]; try (by apply IH).
    + destruct Hq. left.
    + rewrite IH by done. cbn [length]. rewrite Nat.odd_succ, <- Nat.negb_odd.
      f_equal. by destruct b, (Nat.odd _).
Qed.

(** X6. [handle_events_during_search] reads one batch of events.  Without
    a window close in the batch it returns [True] and [paused] is flipped
    once for every space key of the batch; with a window close it returns
    [False] and only the space keys before the first window close count.
    The grid, the markers and [is_searching] are unchanged, and the next
    call reads the next batch. *)
Theorem handle_events_during_search_spaces (s : Pathfinder) :
  let evs := events s (polls s) in
  let r := handle_events_during_search s in
  (QUIT ∉ evs →
   r.1 = true ∧
   paused r.2 = xorb (paused s) (Nat.odd (space_presses evs))) ∧
  (∀ before after, evs = before ++ QUIT :: after → QUIT ∉ before →
   r.1 = false ∧
   paused r.2 = xorb (paused s) (Nat.odd (space_presses before))) ∧
  grid r.2 = grid s ∧ start r.2 = start s ∧ target r.2 = target s ∧
  is_searching r.2 = is_searching s ∧ polls r.2 = S (polls s).
Proof.
  intros evs r. subst evs r. unfold handle_events_during_search.
  split_and!.
  - intros Hq. by rewrite handle_events_spaces.
  - intros before after -> Hq. by rewrite handle_events_quit_at.
  - by destruct (handle_events _ _).
  - by destruct (handle_events _ _).
  - by destruct (handle_events _ _).
  - by destruct (handle_events _ _).
  - by destruct (handle_events _ _).
Qed.

(** ** Neighbours *)





Lemma npos_mk a b c p : npos (mkNode a b c p) = (a, b).
Proof. done. Qed.


(** ** BFS and DFS in a world that nothing disturbs *)

Lemma npos_in_chain n : npos n ∈ chain n.
Proof. rewrite chain_cons. left. Qed.

Lemma depth_child n p : parent n = Some p → depth n = S (depth p).
Proof. intros H. unfold depth. rewrite (chain_cons n), H. done. Qed.

Lemma length_reconstruct_path n : length (reconstruct_path n) = depth n.
Proof. unfold reconstruct_path, depth. apply length_reverse. Qed.

Lemma NoDup_reconstruct_path n : NoDup (chain n) → NoDup (reconstruct_path n).
Proof. unfold reconstruct_path. by rewrite reverse_Permutation. Qed.

Lemma bfs_visit_fold_calm s0 nbs : ∀ s queue visited,
  same_world s0 s →
  (∀ nb, nb ∈ nbs → is_valid_position s0 (x nb) (y nb) = true) →
  ∃ s' added,
    foldl bfs_visit (s, queue, visited) nbs =
      (s', queue ++ added, list_to_set (npos <$> added) ∪ visited) ∧
    same_world s0 s' ∧
    (∀ n, n ∈ added → n ∈ nbs ∧ npos n ∉ visited) ∧
    NoDup (npos <$> added) ∧
    (∀ nb, nb ∈ nbs → npos nb ∈ visited ∨ npos nb ∈ npos <$> added).
Proof.
  induction nbs as [|nb nbs IH]; intros s queue visited Hw Hv.
  { exists s, []. rewrite app_nil_r. split_and!; try done.
    - cbn. f_equal. set_solver.
    - intros n Hn. by apply elem_of_nil in Hn.
    - apply NoDup_nil_2.
    - intros n Hn. by apply elem_of_nil in Hn. }
  cbn [foldl]. unfold bfs_visit at 2.
  assert (Hvnb : is_valid_position s (x nb) (y nb) = true).
  { rewrite (same_world_valid s0 s) by done. apply Hv. left. }
  rewrite Hvnb, andb_true_r.
  case_bool_decide as Hnew.
  - destruct (IH (mark_frontier (npos nb) (target s) s) (queue ++ [nb])
                ({[npos nb]} ∪ visited))
      as (s' & added & Hfold & Hw' & Hadd & Hnd & Hall).
    { by apply same_world_mark_frontier. }
    { intros n Hn. apply Hv. by right. }
    exists s', (nb :: added). split_and!; try done.
    + rewrite Hfold. rewrite <- app_assoc. cbn [app fmap list_fmap list_to_set].
      f_equal. set_solver.
    + intros n [->|Hn]%elem_of_cons; [split; [left|done]|].
      destruct (Hadd n Hn) as [H1 H2]. split; [by right|set_solver].
    + cbn [fmap list_fmap]. apply NoDup_cons. split; [|done].
      intros (n & Heq & Hn)%list_elem_of_fmap.
      destruct (Hadd n Hn) as [_ H2]. rewrite <- Heq in H2. set_solver.
    + intros n [->|Hn]%elem_of_cons.
      * right. cbn [fmap list_fmap]. left.
      * destruct (Hall n Hn) as [H|H].
        -- apply elem_of_union in H as [H|H]; [|by left].
           apply elem_of_singleton in H. right. rewrite H.
           cbn [fmap list_fmap]. left.
        -- right. cbn [fmap list_fmap]. by right.
  - destruct (IH s queue visited Hw) as (s' & added & Hfold & Hw' & Hadd & Hnd & Hall).
    { intros n Hn. apply Hv. by right. }
    exists s', added. split_and!; try done.
    + intros n Hn. destruct (Hadd n Hn). split; [by right|done].
    + intros n [->|Hn]%elem_of_cons; [|by apply Hall].
      by left.
Qed.

Lemma size_open_added (cells visited : gset pos) (added : list pos) :
  NoDup added → (∀ p, p ∈ added → p ∈ cells ∧ p ∉ visited) →
  (length added + size (cells ∖ (list_to_set added ∪ visited))
   ≤ size (cells ∖ visited))%nat.
Proof.
  induction added as [|p added IH]; intros Hnd Hin.
  { simpl. apply Nat.eq_le_incl. f_equal. set_solver. }
  apply NoDup_cons in Hnd as [Hp Hnd].
  specialize (IH Hnd).
  assert (Hrest : ∀ q, q ∈ added → q ∈ cells ∧ q ∉ visited).
  { intros q Hq. apply Hin. by right. }
  specialize (IH Hrest).
  destruct (Hin p) as [Hpc Hpv]; [left|].
  destruct (size_open_cells cells (list_to_set added ∪ visited) p) as [_ Hlt].
  assert (Hnew : p ∉ (list_to_set added ∪ visited : gset pos)).
  { rewrite elem_of_union, elem_of_list_to_set. tauto. }
  specialize (Hlt Hpc Hnew).
  cbn [length list_to_set].
  replace ({[p]} ∪ list_to_set added ∪ visited)
    with ({[p]} ∪ (list_to_set added ∪ visited) : gset pos) by set_solver.
  lia.
Qed.

Lemma valid_in_all_cells s r c :
  is_valid_position s r c = true → (r, c) ∈ all_cells s.
Proof.
  intros (H & _)%is_valid_position_spec. by apply elem_of_all_cells.
Qed.

(** One node [cur] leaves the queue and is expanded: [others] stay, the
    neighbours [added] join. *)
Lemma search_inv_step s0 queue cur others added visited :
  search_inv s0 queue visited →
  (∀ n, n ∈ queue ↔ n = cur ∨ n ∈ others) →
  length queue = S (length others) →
  npos cur ≠ target s0 →
  (∀ n, n ∈ added → n ∈ get_neighbors s0 cur ∧ npos n ∉ visited) →
  NoDup (npos <$> added) →
  (∀ nb, nb ∈ get_neighbors s0 cur →
     npos nb ∈ visited ∨ npos nb ∈ npos <$> added) →
  search_inv s0 (others ++ added) (list_to_set (npos <$> added) ∪ visited) ∧
  (search_measure s0 (others ++ added)
     (list_to_set (npos <$> added) ∪ visited)
   < search_measure s0 queue visited)%nat.
Proof.
  intros [Hnodes Hclosed Hstart Htarget] Hmem Hlen Hcur Hadd Hnd Hall.
  destruct (Hnodes cur) as (Hok & Hndc & Hsub); [apply Hmem; by left|].
  split; [split|].
  - intros n [Hn|Hn]%elem_of_app.
    + destruct (Hnodes n) as (H1 & H2 & H3); [apply Hmem; by right|].
      split_and!; try done. intros p Hp. apply elem_of_union. right. by apply H3.
    + destruct (Hadd n Hn) as [Hnb Hnew].
      destruct (get_neighbors_node_ok _ _ _ _ Hok Hnb) as (H1 & H2 & H3).
      rewrite (chain_cons n), H3. split_and!; [done| |].
      * apply NoDup_cons. split; [|done]. intros Hin. by apply Hnew, Hsub.
      * intros p [->|Hp]%elem_of_cons.
        -- apply elem_of_union. left. apply elem_of_list_to_set.
           apply list_elem_of_fmap. by exists n.
        -- apply elem_of_union. right. by apply Hsub.
  - intros u [Hu|Hu]%elem_of_union.
    + apply elem_of_list_to_set, list_elem_of_fmap in Hu as (n & -> & Hn).
      left. exists n. split; [|done]. apply elem_of_app. by right.
    + destruct (decide (u = npos cur)) as [->|Hne].
      * right. intros v Hadj Hv.
        destruct (Hall (mkNode v.1 v.2 (cost cur + move_cost (npos cur) v)
                          (Some cur))) as [H|H].
        -- apply get_neighbors_spec. by exists v.
        -- rewrite npos_mk, <- surjective_pairing in H.
           apply elem_of_union. by right.
        -- rewrite npos_mk, <- surjective_pairing in H.
           apply elem_of_union. left. by apply elem_of_list_to_set.
      * destruct (Hclosed u Hu) as [(n & Hn & Hpos)|Hcl].
        -- left. exists n. split; [|done]. apply elem_of_app. left.
           apply Hmem in Hn as [->|Hn]; [by destruct Hne|done].
        -- right. intros v Hadj Hv. apply elem_of_union. right. by apply Hcl.
  - apply elem_of_union. by right.
  - intros [Ht|Ht]%elem_of_union.
    + apply elem_of_list_to_set, list_elem_of_fmap in Ht as (n & Heq & Hn).
      exists n. split; [|done]. apply elem_of_app. by right.
    + destruct (Htarget Ht) as (n & Hn & Hpos). exists n. split; [|done].
      apply elem_of_app. left.
      apply Hmem in Hn as [->|Hn]; [by destruct Hcur|done].
  - unfold search_measure. rewrite length_app, Hlen.
    pose proof (size_open_added (all_cells s0) visited (npos <$> added) Hnd)
      as Hsize.
    rewrite length_fmap in Hsize.
    assert (Hin : ∀ p, p ∈ npos <$> added → p ∈ all_cells s0 ∧ p ∉ visited).
    { intros p (n & -> & Hn)%list_elem_of_fmap.
      destruct (Hadd n Hn) as [Hnb Hnew]. split; [|done].
      destruct (get_neighbors_node_ok _ _ _ _ Hok Hnb) as (_ & H2 & _).
      by apply valid_in_all_cells. }
    specialize (Hsize Hin). lia.
Qed.

(** A closed set without a queue: the target cannot be reached. *)
Lemma search_exhausted s0 visited :
  search_inv s0 [] visited → ¬ ∃ l, connects s0 l (start s0) (target s0).
Proof.
  intros [_ Hclosed Hstart Htarget] [l (Hhd & Hlast & Hpass)].
  destruct (decide (target s0 ∈ visited)) as [Ht|Ht].
  { destruct (Htarget Ht) as (n & Hn & _). by apply elem_of_nil in Hn. }
  destruct (path_exit visited l _ _ Hhd Hlast Hstart Ht)
    as (l1 & u & v & l2 & -> & Hu & Hv).
  apply passable_path_app in Hpass as [_ Hpass].
  destruct Hpass as (Hadj & Hvalid & _).
  destruct (Hclosed u Hu) as [(n & Hn & _)|Hcl].
  - by apply elem_of_nil in Hn.
  - by apply Hv, Hcl.
Qed.

Lemma search_initial s : search_inv s [start_node s] {[start s]}.
Proof.
  split.
  - intros n ->%list_elem_of_singleton. split_and!.
    + simpl. by rewrite <- surjective_pairing.
    + simpl. apply NoDup_singleton.
    + intros p Hp. simpl in Hp. apply list_elem_of_singleton in Hp as ->.
      rewrite <- surjective_pairing. set_solver.
  - intros u ->%elem_of_singleton. left. exists (start_node s).
    split; [left|apply npos_start_node].
  - set_solver.
  - intros Ht%elem_of_singleton. exists (start_node s). split; [left|].
    by rewrite npos_start_node.
Qed.

Lemma neighbors_valid s0 cur nb :
  nb ∈ get_neighbors s0 cur → is_valid_position s0 (x nb) (y nb) = true.
Proof. intros (q & _ & Hv & ->)%get_neighbors_spec. done. Qed.

Lemma bfs_iterate_calm s0 s cur rest visited :
  calm s0 → same_world s0 s → search_inv s0 (cur :: rest) visited →
  if decide (npos cur = target s0) then
    ∃ s', iterate bfs_body s (cur :: rest, visited) =
            Done (RetTrue (reconstruct_path cur)) s'
  else
    ∃ s' added,
      iterate bfs_body s (cur :: rest, visited) =
        Running s' (rest ++ added, list_to_set (npos <$> added) ∪ visited) ∧
      same_world s0 s' ∧
      search_inv s0 (rest ++ added) (list_to_set (npos <$> added) ∪ visited) ∧
      (search_measure s0 (rest ++ added)
         (list_to_set (npos <$> added) ∪ visited)
       < search_measure s0 (cur :: rest) visited)%nat ∧
      (∀ n, n ∈ added → parent n = Some cur ∧ npos n ∉ visited).
Proof.
  intros Hcalm Hw Hinv. unfold iterate, bfs_body.
  rewrite (paused_calm _ _ Hcalm Hw), (add_dynamic_obstacle_calm _ _ Hcalm Hw).
  destruct (same_world_markers _ _ Hw) as [Hs Ht]. rewrite Hs, Ht.
  destruct (search_nodes _ _ _ Hinv cur) as (Hok & _); [left|].
  destruct (decide (npos cur = target s0)) as [Htg|Htg].
  { rewrite bool_decide_eq_true_2 by done. by eexists. }
  rewrite bool_decide_eq_false_2 by done.
  assert (Hw1 : same_world s0 (mark_explored (npos cur) (start s0) s)).
  { apply same_world_mark_explored; [done|]. intros Hne.
    rewrite (same_world_valid _ _ _ _ Hw).
    by destruct (node_ok_cases _ _ _ Hok). }
  rewrite (get_neighbors_ext s0 _ cur) by (intros; by apply same_world_valid).
  destruct (bfs_visit_fold_calm s0 (get_neighbors s0 cur) _ rest visited Hw1)
    as (s2 & added & -> & Hw2 & Hadd & Hnd & Hall).
  { intros nb. apply neighbors_valid. }
  destruct (handle_events_during_search_calm _ _ Hcalm Hw2)
    as (s3 & -> & Hw3).
  destruct (search_inv_step s0 (cur :: rest) cur rest added visited)
    as [Hinv' Hm]; try done.
  { intros n. by rewrite elem_of_cons. }
  exists s3, added. split_and!; try done.
  intros n Hn. destruct (Hadd n Hn) as [Hnb Hnew]. split; [|done].
  by destruct (get_neighbors_node_ok _ _ _ _ Hok Hnb) as (_ & _ & ?).
Qed.

Lemma last_split {A} (l : list A) a :
  last l = Some a → l = removelast l ++ [a].
Proof.
  destruct l as [|b l _] using rev_ind; [done|].
  rewrite last_snoc, removelast_last. by intros [= ->].
Qed.

Lemma dfs_iterate_calm s0 s cur stack visited :
  calm s0 → same_world s0 s → last stack = Some cur →
  search_inv s0 stack visited →
  if decide (npos cur = target s0) then
    ∃ s', iterate dfs_body s (stack, visited) =
            Done (RetTrue (reconstruct_path cur)) s'
  else
    ∃ s' stack' visited',
      iterate dfs_body s (stack, visited) = Running s' (stack', visited') ∧
      same_world s0 s' ∧ search_inv s0 stack' visited' ∧
      (search_measure s0 stack' visited' < search_measure s0 stack visited)%nat.
Proof.
  intros Hcalm Hw Hlast Hinv. unfold iterate, dfs_body. rewrite Hlast.
  rewrite (paused_calm _ _ Hcalm Hw), (add_dynamic_obstacle_calm _ _ Hcalm Hw).
  destruct (same_world_markers _ _ Hw) as [Hs Ht]. rewrite Hs, Ht.
  pose proof (last_split _ _ Hlast) as Hstack.
  destruct (search_nodes _ _ _ Hinv cur) as (Hok & _).
  { rewrite Hstack. apply elem_of_app. right. left. }
  destruct (decide (npos cur = target s0)) as [Htg|Htg].
  { rewrite bool_decide_eq_true_2 by done. by eexists. }
  rewrite bool_decide_eq_false_2 by done.
  assert (Hw1 : same_world s0 (mark_explored (npos cur) (start s0) s)).
  { apply same_world_mark_explored; [done|]. intros Hne.
    rewrite (same_world_valid _ _ _ _ Hw).
    by destruct (node_ok_cases _ _ _ Hok). }
  rewrite (get_neighbors_ext s0 _ cur) by (intros; by apply same_world_valid).
  destruct (bfs_visit_fold_calm s0 (reverse (get_neighbors s0 cur)) _
              (removelast stack) visited Hw1)
    as (s2 & added & -> & Hw2 & Hadd & Hnd & Hall).
  { intros nb Hnb. rewrite elem_of_reverse in Hnb.
    by apply (neighbors_valid s0 cur). }
  destruct (handle_events_during_search_calm _ _ Hcalm Hw2)
    as (s3 & -> & Hw3).
  destruct (search_inv_step s0 stack cur (removelast stack) added visited)
    as [Hinv' Hm]; try done.
  { intros n. rewrite Hstack at 1. rewrite elem_of_app, list_elem_of_singleton.
    tauto. }
  { rewrite Hstack at 1. rewrite length_app. simpl. lia. }
  { intros n Hn. destruct (Hadd n Hn) as [Hnb Hnew].
    by rewrite elem_of_reverse in Hnb. }
  { intros nb Hnb. apply Hall. by rewrite elem_of_reverse. }
  eexists s3, _, _. by split_and!.
Qed.

Lemma bfs_levels_step s0 cur rest visited added :
  search_inv s0 (cur :: rest) visited → bfs_levels s0 (cur :: rest) →
  (∀ n, n ∈ added → parent n = Some cur ∧ npos n ∉ visited) →
  bfs_levels s0 (rest ++ added).
Proof.
  intros Hinv [(d & A & B & Hq & HA & HB) Hshort] Hadd.
  assert (Hhead : ∀ m, m ∈ cur :: rest → (depth cur ≤ depth m)%nat).
  { intros m Hm. rewrite Hq in Hm. destruct A as [|a A].
    - simpl in Hq. subst B. rewrite (HB cur), (HB m); [lia|done|left].
    - injection Hq as <- Hrest. rewrite (HA cur) by left.
      apply elem_of_app in Hm as [Hm|Hm]; [rewrite (HA m Hm)|rewrite (HB m Hm)];
        lia. }
  split.
  - destruct A as [|a A].
    + simpl in Hq. subst B. exists (S d), rest, added. split_and!; [done| |].
      * intros n Hn. apply HB. by right.
      * intros n Hn. destruct (Hadd n Hn) as [Hp _].
        rewrite (depth_child _ _ Hp), (HB cur); [done|left].
    + injection Hq as <- ->. exists d, A, (B ++ added).
      split_and!; [by rewrite app_assoc| |].
      * intros n Hn. apply HA. by right.
      * intros n [Hn|Hn]%elem_of_app; [by apply HB|].
        destruct (Hadd n Hn) as [Hp _].
        rewrite (depth_child _ _ Hp), (HA cur); [done|left].
  - intros n l [Hn|Hn]%elem_of_app Hl; [apply Hshort; [by right|done]|].
    destruct (Hadd n Hn) as [Hp Hnew]. rewrite (depth_child _ _ Hp).
    destruct Hl as (Hhd & Hlast & Hpass).
    destruct (path_exit visited l _ _ Hhd Hlast (search_start _ _ _ Hinv) Hnew)
      as (l1 & u & v & l2 & -> & Hu & Hv).
    pose proof Hpass as Hpass'.
    apply passable_path_app in Hpass' as [_ (Hadj & Hvalid & _)].
    destruct (search_closed _ _ _ Hinv u Hu) as [(m & Hm & Hpos)|Hcl];
      [|by destruct Hv; apply Hcl].
    assert (Hpre : connects s0 (l1 ++ [u]) (start s0) (npos m)).
    { rewrite Hpos. eapply connects_prefix. split_and!; done. }
    pose proof (Hshort m _ Hm Hpre) as Hle. pose proof (Hhead m Hm) as Hge.
    rewrite !length_app. rewrite length_app in Hle. simpl in *.
    clear -Hle Hge. lia.
Qed.

Lemma bfs_levels_initial s : bfs_levels s [start_node s].
Proof.
  split.
  - exists 1%nat, [start_node s], []. split_and!; [done| |].
    + by intros n ->%list_elem_of_singleton.
    + intros n Hn. by apply elem_of_nil in Hn.
  - intros n l ->%list_elem_of_singleton (Hhd & _).
    destruct l; [done|]. unfold depth. simpl. lia.
Qed.

Lemma bfs_loop_calm s0 fuel : ∀ s queue visited,
  calm s0 → same_world s0 s →
  search_inv s0 queue visited → bfs_levels s0 queue →
  (search_measure s0 queue visited < fuel)%nat →
  ∃ r s', loop bfs_body fuel s (queue, visited) = Done r s' ∧
    found_or_unreachable s0 r ∧
    ∀ path, r = RetTrue path →
      ∀ l, connects s0 l (start s0) (target s0) →
           (length path ≤ length l)%nat.
Proof.
  induction fuel as [|fuel IH]; intros s queue visited Hcalm Hw Hinv Hlev Hm;
    [lia|].
  cbn [loop]. destruct queue as [|cur rest].
  { exists RetFalse, s. split_and!; [done| |done].
    by apply (search_exhausted s0 visited). }
  pose proof (bfs_iterate_calm s0 s cur rest visited Hcalm Hw Hinv) as Hit.
  destruct (search_nodes _ _ _ Hinv cur) as (Hok & Hnd & _); [left|].
  destruct (decide (npos cur = target s0)) as [Htg|Htg].
  - destruct Hit as (s' & ->). exists (RetTrue (reconstruct_path cur)), s'.
    destruct (node_ok_path _ _ _ Hok) as [Hc _]. rewrite Htg in Hc.
    split_and!; [done|split; [done|by apply NoDup_reconstruct_path]|].
    intros path [= <-] l Hl. rewrite length_reconstruct_path.
    apply (proj2 Hlev); [left|by rewrite Htg].
  - destruct Hit as (s' & added & -> & Hw' & Hinv' & Hm' & Hadd).
    apply IH; try done; [|lia].
    by apply (bfs_levels_step s0 cur rest visited).
Qed.

Lemma dfs_loop_calm s0 fuel : ∀ s stack visited,
  calm s0 → same_world s0 s → search_inv s0 stack visited →
  (search_measure s0 stack visited < fuel)%nat →
  ∃ r s', loop dfs_body fuel s (stack, visited) = Done r s' ∧
    found_or_unreachable s0 r.
Proof.
  induction fuel as [|fuel IH]; intros s stack visited Hcalm Hw Hinv Hm;
    [lia|].
  cbn [loop]. destruct (last stack) as [cur|] eqn:Hlast.
  2:{ apply last_None in Hlast as ->. exists RetFalse, s. split; [done|].
      by apply (search_exhausted s0 visited). }
  pose proof (dfs_iterate_calm s0 s cur stack visited Hcalm Hw Hlast Hinv)
    as Hit.
  destruct (search_nodes _ _ _ Hinv cur) as (Hok & Hnd & _).
  { rewrite (last_split _ _ Hlast). apply elem_of_app. right. left. }
  destruct (decide (npos cur = target s0)) as [Htg|Htg].
  - destruct Hit as (s' & ->). exists (RetTrue (reconstruct_path cur)), s'.
    destruct (node_ok_path _ _ _ Hok) as [Hc _]. rewrite Htg in Hc.
    split; [done|]. split; [done|by apply NoDup_reconstruct_path].
  - destruct Hit as (s' & stack' & visited' & -> & Hw' & Hinv' & Hm').
    apply IH; try done. lia.
Qed.

Lemma search_measure_initial s :
  (search_measure s [start_node s] {[start s]}
   ≤ Z.to_nat (rows s) * Z.to_nat (cols s) + 1)%nat.
Proof.
  unfold search_measure. simpl.
  pose proof (size_all_cells s) as H1.
  pose proof (subseteq_size (all_cells s ∖ {[start s]}) (all_cells s)) as H2.
  assert (all_cells s ∖ {[start s]} ⊆ all_cells s) by set_solver.
  specialize (H2 H). lia.
Qed.

(** X8. [breadth_first_search] with dynamic obstacles disabled, not paused
    and with no space key and no window close among the events: after at
    most [rows * cols + 2] iterations it returns.  When it returns [True]
    the path is passable, leads from the start to the target, visits no
    position twice and no passable path from the start to the target has
    fewer positions; when it returns [False] no passable path exists. *)
Theorem breadth_first_search_shortest (s : Pathfinder) (fuel : nat) :
  calm s →
  (Z.to_nat (rows s) * Z.to_nat (cols s) + 2 ≤ fuel)%nat →
  ∃ r s', breadth_first_search fuel s = Done r s' ∧
    match r with
    | RetTrue path =>
        connects s path (start s) (target s) ∧ NoDup path ∧
        ∀ l, connects s l (start s) (target s) → (length path ≤ length l)%nat
    | RetFalse => ¬ ∃ l, connects s l (start s) (target s)
    end.
Proof.
  intros Hcalm Hfuel. unfold breadth_first_search.
  pose proof (search_measure_initial s) as Hm.
  destruct (bfs_loop_calm s fuel s [start_node s] {[start s]} Hcalm
              (same_world_refl s) (search_initial s) (bfs_levels_initial s))
    as (r & s' & Hrun & Hres & Hmin); [lia|].
  exists r, s'. split; [done|]. destruct r as [path|]; [|done].
    destruct Hres. split_and!; try done. by apply Hmin.
Qed.

(** X9. [depth_first_search] under the same conditions: after at most
    [rows * cols + 2] iterations it returns; [True] comes with a passable
    path from the start to the target that visits no position twice,
    [False] means that no passable path exists. *)
Theorem depth_first_search_finds (s : Pathfinder) (fuel : nat) :
  calm s →
  (Z.to_nat (rows s) * Z.to_nat (cols s) + 2 ≤ fuel)%nat →
  ∃ r s', depth_first_search fuel s = Done r s' ∧
    match r with
    | RetTrue path => connects s path (start s) (target s) ∧ NoDup path
    | RetFalse => ¬ ∃ l, connects s l (start s) (target s)
    end.
Proof.
  intros Hcalm Hfuel. unfold depth_first_search.
  pose proof (search_measure_initial s) as Hm.
  destruct (dfs_loop_calm s fuel s [start_node s] {[start s]} Hcalm
              (same_world_refl s) (search_initial s))
    as (r & s' & Hrun & Hres); [lia|].
  exists r, s'. split; [done|]. by destruct r.
Qed.

(** ** UCS when the target cannot be reached *)

Lemma ucs_loop_any s0 fuel : ∀ s pq visited costs,
  calm s0 → same_world s0 s →
  ucs_frontier s0 pq visited costs → ucs_closed s0 pq visited costs →
  (ucs_measure s0 pq visited < fuel)%nat →
  ∃ r s',
    loop ucs_body fuel s (pq, visited, costs) = Done r s' ∧
    match r with
    | RetTrue path => connects s0 path (start s0) (target s0)
    | RetFalse => ¬ ∃ l, connects s0 l (start s0) (target s0)
    end.
Proof.
  induction fuel as [|fuel IH]; intros s pq visited costs Hcalm Hw Hf Hc Hm;
    [lia|].
  pose proof (ucs_iterate_any s0 s pq visited costs Hcalm Hw Hf Hc) as Hit.
  cbn [loop]. destruct (iterate ucs_body s (pq, visited, costs))
    as [[path|] s'|s' [[pq' visited'] costs']].
  - exists (RetTrue path), s'. split; [done|apply Hit].
  - by exists RetFalse, s'.
  - destruct Hit as (Hw' & Hf' & Hc' & Hlt). apply IH; auto. lia.
Qed.

Lemma ucs_measure_initial s :
  (ucs_measure s [start_node s] ∅
   ≤ 8 * (Z.to_nat (rows s) * Z.to_nat (cols s)) + 9)%nat.
Proof.
  unfold ucs_measure. simpl.
  pose proof (size_all_cells s) as H1.
  replace (all_cells s ∖ ∅) with (all_cells s) by set_solver.
  destruct (decide _); lia.
Qed.


(** ** Bidirectional search in a world that nothing disturbs *)

Lemma node_ok_chain s root n :
  node_ok s root n → is_valid_position s root.1 root.2 = true →
  passable_path s (chain n) ∧ last (chain n) = Some root.
Proof.
  intros Hok Hroot. induction n as [a b c|a b c p IH] using Node_ind.
  - destruct Hok as [<- _]. done.
  - destruct Hok as (Hp & Hadj & Hv & _). destruct (IH Hp) as [IH1 IH2].
    cbn [chain]. rewrite (chain_cons p) in *. split; [|done].
    cbn [passable_path]. split_and!; [by apply adjacent_sym| |done].
    destruct (node_ok_cases _ _ _ Hp) as [->|H]; done.
Qed.

Lemma join_paths_connects s0 f b :
  node_ok s0 (start s0) f → node_ok s0 (target s0) b → npos f = npos b →
  is_valid_position s0 (target s0).1 (target s0).2 = true →
  connects s0 (join_paths f b) (start s0) (target s0).
Proof.
  intros Hf Hb Hpos Ht. unfold join_paths.
  destruct (node_ok_path _ _ _ Hf) as [(Hhd & Hlast & Hpass) _].
  destruct (node_ok_chain _ _ _ Hb Ht) as [Hpb Hlb].
  unfold reconstruct_path at 2. rewrite reverse_involutive.
  destruct (reconstruct_path_last f) as [l Hl]. rewrite Hl in *.
  rewrite (chain_cons b) in *. cbn [drop]. rewrite <- Hpos in *.
  set (tl := match parent b with Some p => chain p | None => [] end) in *.
  rewrite <- app_assoc. cbn [app]. split_and!.
  - by destruct l.
  - rewrite last_app_cons. done.
  - apply passable_path_app. done.
Qed.

Lemma bidi_visit_fold_calm s0 other nbs : ∀ s queue visited,
  same_world s0 s →
  (∀ nb, nb ∈ nbs → is_valid_position s0 (x nb) (y nb) = true) →
  ∃ s' added visited',
    foldl (bidi_visit other) (s, queue, visited) nbs =
      (s', queue ++ added, visited') ∧
    same_world s0 s' ∧
    (∀ n, n ∈ added → n ∈ nbs ∧ npos n ∉ dom visited) ∧
    NoDup (npos <$> added) ∧
    dom visited' = list_to_set (npos <$> added) ∪ dom visited ∧
    (∀ p n, visited' !! p = Some n →
       visited !! p = Some n ∨ (n ∈ added ∧ npos n = p)) ∧
    (∀ nb, nb ∈ nbs → npos nb ∈ dom visited ∨ npos nb ∈ npos <$> added).
Proof.
  induction nbs as [|nb nbs IH]; intros s queue visited Hw Hv.
  { exists s, [], visited. rewrite app_nil_r. split_and!; try done.
    - intros n Hn. by apply elem_of_nil in Hn.
    - apply NoDup_nil_2.
    - cbn. set_solver.
    - by left.
    - intros n Hn. by apply elem_of_nil in Hn. }
  cbn [foldl]. unfold bidi_visit at 2.
  assert (Hvnb : is_valid_position s (x nb) (y nb) = true).
  { rewrite (same_world_valid s0 s) by done. apply Hv. left. }
  rewrite Hvnb, andb_true_r.
  case_bool_decide as Hnew.
  - destruct (IH (mark_frontier (npos nb) other s) (queue ++ [nb])
                (<[npos nb := nb]> visited))
      as (s' & added & visited' & Hfold & Hw' & Hadd & Hnd & Hdom & Hlook & Hall).
    { by apply same_world_mark_frontier. }
    { intros n Hn. apply Hv. by right. }
    rewrite dom_insert_L in *.
    exists s', (nb :: added), visited'. split_and!; try done.
    + rewrite Hfold. by rewrite <- app_assoc.
    + intros n [->|Hn]%elem_of_cons.
      * split; [left|]. by apply not_elem_of_dom.
      * destruct (Hadd n Hn) as [H1 H2]. split; [by right|set_solver].
    + cbn [fmap list_fmap]. apply NoDup_cons. split; [|done].
      intros (n & Heq & Hn)%list_elem_of_fmap.
      destruct (Hadd n Hn) as [_ H2]. rewrite <- Heq in H2. set_solver.
    + rewrite Hdom. cbn [fmap list_fmap list_to_set]. set_solver.
    + intros p n Hpn. destruct (Hlook p n Hpn) as [H|[H1 H2]].
      * apply lookup_insert_Some in H as [[<- <-]|[_ H]]; [|by left].
        right. split; [left|done].
      * right. split; [by right|done].
    + intros n [->|Hn]%elem_of_cons.
      * right. cbn [fmap list_fmap]. left.
      * destruct (Hall n Hn) as [H|H].
        -- apply elem_of_union in H as [H|H]; [|by left].
           apply elem_of_singleton in H. right. rewrite H.
           cbn [fmap list_fmap]. left.
        -- right. cbn [fmap list_fmap]. by right.
  - destruct (IH s queue visited Hw)
      as (s' & added & visited' & Hfold & Hw' & Hadd & Hnd & Hdom & Hlook & Hall).
    { intros n Hn. apply Hv. by right. }
    exists s', added, visited'. split_and!; try done.
    + intros n Hn. destruct (Hadd n Hn). split; [by right|done].
    + intros n [->|Hn]%elem_of_cons; [|by apply Hall].
      left. apply elem_of_dom. by apply not_eq_None_Some.
Qed.

Lemma bidi_side_step s0 root cur rest visited added visited' :
  bidi_calm_side s0 root (cur :: rest) visited →
  (∀ n, n ∈ added → n ∈ get_neighbors s0 cur ∧ npos n ∉ dom visited) →
  NoDup (npos <$> added) →
  dom visited' = list_to_set (npos <$> added) ∪ dom visited →
  (∀ p n, visited' !! p = Some n →
     visited !! p = Some n ∨ (n ∈ added ∧ npos n = p)) →
  bidi_calm_side s0 root (rest ++ added) visited' ∧
  (length (rest ++ added) + size (all_cells s0 ∖ dom visited')
   < length (cur :: rest) + size (all_cells s0 ∖ dom visited))%nat.
Proof.
  intros [Hnodes Hmap Hroot] Hadd Hnd Hdom Hlook.
  destruct (Hnodes cur) as [Hok _]; [left|].
  assert (Hnew : ∀ n, n ∈ added →
            node_ok s0 root n ∧ is_valid_position s0 (x n) (y n) = true).
  { intros n Hn. destruct (Hadd n Hn) as [Hnb _].
    by destruct (get_neighbors_node_ok _ _ _ _ Hok Hnb) as (? & ? & _). }
  split; [split|].
  - intros n [Hn|Hn]%elem_of_app.
    + destruct (Hnodes n) as [H1 H2]; [by right|]. split; [done|].
      rewrite Hdom. set_solver.
    + split; [by apply Hnew|]. rewrite Hdom. apply elem_of_union. left.
      apply elem_of_list_to_set, list_elem_of_fmap. by exists n.
  - intros p n Hpn. destruct (Hlook p n Hpn) as [H|[H1 H2]].
    + by apply Hmap.
    + split; [done|]. by apply Hnew.
  - rewrite Hdom. set_solver.
  - rewrite length_app, Hdom. cbn [length].
    pose proof (size_open_added (all_cells s0) (dom visited) (npos <$> added)
                  Hnd) as Hsize.
    rewrite length_fmap in Hsize.
    assert (Hin : ∀ p, p ∈ npos <$> added →
              p ∈ all_cells s0 ∧ p ∉ dom visited).
    { intros p (n & -> & Hn)%list_elem_of_fmap.
      destruct (Hadd n Hn) as [_ H2]. split; [|done].
      destruct (Hnew n Hn) as [_ Hv]. by apply valid_in_all_cells. }
    specialize (Hsize Hin). lia.
Qed.

Lemma bidi_closed_step s0 cur rest visited added visited' :
  bidi_closed s0 (cur :: rest) visited →
  dom visited' = list_to_set (npos <$> added) ∪ dom visited →
  (∀ nb, nb ∈ get_neighbors s0 cur →
     npos nb ∈ dom visited ∨ npos nb ∈ npos <$> added) →
  bidi_closed s0 (rest ++ added) visited'.
Proof.
  intros Hclosed Hdom Hall u Hu. rewrite Hdom in Hu.
  assert (Hcur : ∀ v, adjacent (npos cur) v →
            is_valid_position s0 v.1 v.2 = true → v ∈ dom visited').
  { intros v Hadj Hv.
    destruct (Hall (mkNode v.1 v.2 (cost cur + move_cost (npos cur) v)
                      (Some cur))) as [H|H].
    - apply get_neighbors_spec. by exists v.
    - rewrite npos_mk, <- surjective_pairing in H. rewrite Hdom. set_solver.
    - rewrite npos_mk, <- surjective_pairing in H. rewrite Hdom.
      apply elem_of_union. left. by apply elem_of_list_to_set. }
  apply elem_of_union in Hu as [Hu|Hu].
  - apply elem_of_list_to_set, list_elem_of_fmap in Hu as (n & -> & Hn).
    left. exists n. split; [|done]. apply elem_of_app. by right.
  - destruct (Hclosed u Hu) as [(n & Hn & Hpos)|Hcl].
    + apply elem_of_cons in Hn as [->|Hn].
      * right. by rewrite <- Hpos.
      * left. exists n. split; [|done]. apply elem_of_app. by left.
    + right. intros v Hadj Hv. rewrite Hdom. apply elem_of_union. right.
      by apply Hcl.
Qed.

Lemma bidi_forward_calm s0 s l :
  calm s0 → is_valid_position s0 (target s0).1 (target s0).2 = true →
  same_world s0 s → bidi_calm_inv s0 l →
  match bidi_forward s l with
  | inl path => connects s0 path (start s0) (target s0)
  | inr (s', l') =>
      same_world s0 s' ∧ bidi_calm_inv s0 l' ∧
      backward_queue l' = backward_queue l ∧
      (bidi_measure s0 l' ≤ bidi_measure s0 l)%nat ∧
      (forward_queue l ≠ [] → (bidi_measure s0 l' < bidi_measure s0 l)%nat)
  end.
Proof.
  intros Hcalm Htv Hw (Hf & Hb & Hcl & Hmeet). unfold bidi_forward.
  destruct (forward_queue l) as [|cur rest] eqn:Hq.
  { split_and!; try done. by unfold bidi_calm_inv; rewrite Hq. }
  destruct (side_nodes _ _ _ _ Hf cur) as [Hok Hcv]; [left|].
  destruct (backward_visited l !! npos cur) as [other|] eqn:Hother.
  { destruct (side_map _ _ _ _ Hb _ _ Hother) as [Hpos Hoko].
    by apply join_paths_connects. }
  destruct (same_world_markers _ _ Hw) as [Hs Ht]. rewrite Hs.
  assert (Hw1 : same_world s0 (mark_explored (npos cur) (start s0) s)).
  { apply same_world_mark_explored; [done|]. intros Hne.
    rewrite (same_world_valid _ _ _ _ Hw).
    by destruct (node_ok_cases _ _ _ Hok). }
  rewrite (get_neighbors_ext s0 _ cur) by (intros; by apply same_world_valid).
  destruct (bidi_visit_fold_calm s0
              (target (mark_explored (npos cur) (start s0) s))
              (get_neighbors s0 cur) _ rest (forward_visited l) Hw1)
    as (s2 & added & visited' & -> & Hw2 & Hadd & Hnd & Hdom & Hlook & Hall).
  { intros nb. apply neighbors_valid. }
  destruct (bidi_side_step s0 (start s0) cur rest (forward_visited l) added
              visited' Hf Hadd Hnd Hdom Hlook) as [Hf' Hm].
  pose proof (bidi_closed_step s0 cur rest (forward_visited l) added visited'
                Hcl Hdom Hall) as Hcl'.
  split_and!; try done.
  - split_and!; try done. cbn [forward_queue forward_visited backward_queue
                               backward_visited].
    intros p Hp Hpb. rewrite Hdom in Hp. apply elem_of_union in Hp as [Hp|Hp].
    + apply elem_of_list_to_set, list_elem_of_fmap in Hp as (n & -> & Hn).
      left. exists n. split; [|done]. apply elem_of_app. by right.
    + destruct (Hmeet p Hp Hpb) as [(n & Hn & Hpos)|Hbq]; [|by right].
      apply elem_of_cons in Hn as [->|Hn].
      * apply elem_of_dom in Hpb. rewrite <- Hpos, Hother in Hpb.
        by destruct Hpb.
      * left. exists n. split; [|done]. apply elem_of_app. by left.
  - unfold bidi_measure. rewrite Hq.
    cbn [forward_queue forward_visited backward_queue backward_visited]. lia.
  - intros _. unfold bidi_measure. rewrite Hq.
    cbn [forward_queue forward_visited backward_queue backward_visited]. lia.
Qed.

Lemma bidi_backward_calm s0 s l :
  calm s0 → is_valid_position s0 (target s0).1 (target s0).2 = true →
  same_world s0 s → bidi_calm_inv s0 l →
  match bidi_backward s l with
  | inl path => connects s0 path (start s0) (target s0)
  | inr (s', l') =>
      same_world s0 s' ∧ bidi_calm_inv s0 l' ∧
      forward_queue l' = forward_queue l ∧
      (bidi_measure s0 l' ≤ bidi_measure s0 l)%nat ∧
      (backward_queue l ≠ [] → (bidi_measure s0 l' < bidi_measure s0 l)%nat)
  end.
Proof.
  intros Hcalm Htv Hw (Hf & Hb & Hcl & Hmeet). unfold bidi_backward.
  destruct (backward_queue l) as [|cur rest] eqn:Hq.
  { split_and!; try done. by unfold bidi_calm_inv; rewrite Hq. }
  destruct (side_nodes _ _ _ _ Hb cur) as [Hok Hcv]; [left|].
  destruct (forward_visited l !! npos cur) as [other|] eqn:Hother.
  { destruct (side_map _ _ _ _ Hf _ _ Hother) as [Hpos Hoko].
    by apply join_paths_connects. }
  destruct (same_world_markers _ _ Hw) as [Hs Ht]. rewrite Ht.
  assert (Hw1 : same_world s0 (mark_explored (npos cur) (target s0) s)).
  { apply same_world_mark_explored; [done|]. intros Hne.
    rewrite (same_world_valid _ _ _ _ Hw).
    by destruct (node_ok_cases _ _ _ Hok). }
  rewrite (get_neighbors_ext s0 _ cur) by (intros; by apply same_world_valid).
  destruct (bidi_visit_fold_calm s0
              (start (mark_explored (npos cur) (target s0) s))
              (get_neighbors s0 cur) _ rest (backward_visited l) Hw1)
    as (s2 & added & visited' & -> & Hw2 & Hadd & Hnd & Hdom & Hlook & Hall).
  { intros nb. apply neighbors_valid. }
  destruct (bidi_side_step s0 (target s0) cur rest (backward_visited l) added
              visited' Hb Hadd Hnd Hdom Hlook) as [Hb' Hm].
  split_and!; try done.
  - split_and!; try done. cbn [forward_queue forward_visited backward_queue
                               backward_visited].
    intros p Hpf Hp. rewrite Hdom in Hp. apply elem_of_union in Hp as [Hp|Hp].
    + apply elem_of_list_to_set, list_elem_of_fmap in Hp as (n & -> & Hn).
      right. exists n. split; [|done]. apply elem_of_app. by right.
    + destruct (Hmeet p Hpf Hp) as [Hfq|(n & Hn & Hpos)]; [by left|].
      apply elem_of_cons in Hn as [->|Hn].
      * apply elem_of_dom in Hpf. rewrite <- Hpos, Hother in Hpf.
        by destruct Hpf.
      * right. exists n. split; [|done]. apply elem_of_app. by left.
  - unfold bidi_measure. rewrite Hq.
    cbn [forward_queue forward_visited backward_queue backward_visited]. lia.
  - intros _. unfold bidi_measure. rewrite Hq.
    cbn [forward_queue forward_visited backward_queue backward_visited]. lia.
Qed.

Lemma bidi_exhausted s0 l :
  bidi_calm_inv s0 l → forward_queue l = [] → backward_queue l = [] →
  ¬ ∃ p, connects s0 p (start s0) (target s0).
Proof.
  intros (Hf & Hb & Hcl & Hmeet) Hfq Hbq [p (Hhd & Hlast & Hpass)].
  rewrite Hfq in Hcl. rewrite Hfq, Hbq in Hmeet.
  destruct (decide (target s0 ∈ dom (forward_visited l))) as [Ht|Ht].
  { destruct (Hmeet _ Ht (side_root _ _ _ _ Hb)) as [(n & Hn & _)|(n & Hn & _)];
      by apply elem_of_nil in Hn. }
  destruct (path_exit (dom (forward_visited l)) p _ _ Hhd Hlast
              (side_root _ _ _ _ Hf) Ht)
    as (l1 & u & v & l2 & -> & Hu & Hv).
  apply passable_path_app in Hpass as [_ (Hadj & Hvalid & _)].
  destruct (Hcl u Hu) as [(n & Hn & _)|Hc].
  - by apply elem_of_nil in Hn.
  - by apply Hv, Hc.
Qed.

Lemma bidi_iterate_calm s0 s l :
  calm s0 → is_valid_position s0 (target s0).1 (target s0).2 = true →
  same_world s0 s → bidi_calm_inv s0 l →
  match iterate bidi_body s l with
  | Done (RetTrue path) _ => connects s0 path (start s0) (target s0)
  | Done RetFalse _ => ¬ ∃ p, connects s0 p (start s0) (target s0)
  | Running s' l' =>
      same_world s0 s' ∧ bidi_calm_inv s0 l' ∧
      (bidi_measure s0 l' < bidi_measure s0 l)%nat
  end.
Proof.
  intros Hcalm Htv Hw Hinv.
  assert (Hgo : forward_queue l ≠ [] ∨ backward_queue l ≠ [] →
    match iterate (fun s l =>
            if paused s then Return RetFalse s
            else
              let s := (add_dynamic_obstacle s).2 in
              match bidi_forward s l with
              | inl path => Return (RetTrue path) (visualize_path path s)
              | inr (s, l) =>
                  match bidi_backward s l with
                  | inl path => Return (RetTrue path) (visualize_path path s)
                  | inr (s, l) => Poll s l
                  end
              end) s l with
    | Done (RetTrue path) _ => connects s0 path (start s0) (target s0)
    | Done RetFalse _ => ¬ ∃ p, connects s0 p (start s0) (target s0)
    | Running s' l' =>
        same_world s0 s' ∧ bidi_calm_inv s0 l' ∧
        (bidi_measure s0 l' < bidi_measure s0 l)%nat
    end).
  { intros Hne. unfold iterate.
    rewrite (paused_calm _ _ Hcalm Hw), (add_dynamic_obstacle_calm _ _ Hcalm Hw).
    pose proof (bidi_forward_calm s0 s l Hcalm Htv Hw Hinv) as Hfw.
    destruct (bidi_forward s l) as [path|[s1 l1]]; [done|].
    destruct Hfw as (Hw1 & Hinv1 & Hbq & Hle1 & Hlt1).
    pose proof (bidi_backward_calm s0 s1 l1 Hcalm Htv Hw1 Hinv1) as Hbw.
    destruct (bidi_backward s1 l1) as [path|[s2 l2]]; [done|].
    destruct Hbw as (Hw2 & Hinv2 & Hfq & Hle2 & Hlt2).
    destruct (handle_events_during_search_calm _ _ Hcalm Hw2)
      as (s3 & -> & Hw3).
    split_and!; try done. rewrite Hbq in Hlt2.
    destruct Hne as [Hne|Hne]; [specialize (Hlt1 Hne)|specialize (Hlt2 Hne)];
      lia. }
  unfold iterate in *. unfold bidi_body.
  destruct (forward_queue l) as [|f fq] eqn:Hfq;
    destruct (backward_queue l) as [|b bq] eqn:Hbq.
  - apply (bidi_exhausted s0 l Hinv Hfq Hbq).
  - apply Hgo. by right.
  - apply Hgo. by left.
  - apply Hgo. by left.
Qed.

Lemma bidi_loop_calm s0 fuel : ∀ s l,
  calm s0 → is_valid_position s0 (target s0).1 (target s0).2 = true →
  same_world s0 s → bidi_calm_inv s0 l →
  (bidi_measure s0 l < fuel)%nat →
  ∃ r s', loop bidi_body fuel s l = Done r s' ∧
    match r with
    | RetTrue path => connects s0 path (start s0) (target s0)
    | RetFalse => ¬ ∃ p, connects s0 p (start s0) (target s0)
    end.
Proof.
  induction fuel as [|fuel IH]; intros s l Hcalm Htv Hw Hinv Hm; [lia|].
  pose proof (bidi_iterate_calm s0 s l Hcalm Htv Hw Hinv) as Hit.
  cbn [loop]. destruct (iterate bidi_body s l) as [[path|] s'|s' l'].
  - by exists (RetTrue path), s'.
  - by exists RetFalse, s'.
  - destruct Hit as (Hw' & Hinv' & Hlt). apply IH; auto. lia.
Qed.

Lemma bidi_calm_initial s :
  bidi_calm_inv s (mkBidi [start_node s] [target_node s]
                     {[start s := start_node s]}
                     {[target s := target_node s]}).
Proof.
  pose proof (npos_start_node s) as Hs. pose proof (npos_target_node s) as Ht.
  assert (Hoks : node_ok s (start s) (start_node s)).
  { simpl. by rewrite <- surjective_pairing. }
  assert (Hokt : node_ok s (target s) (target_node s)).
  { simpl. by rewrite <- surjective_pairing. }
  split_and!; cbn [forward_queue forward_visited backward_queue
                   backward_visited].
  - split.
    + intros n ->%list_elem_of_singleton. split; [done|].
      rewrite Hs, dom_singleton_L. set_solver.
    + intros p n [<- <-]%lookup_singleton_Some. done.
    + rewrite dom_singleton_L. set_solver.
  - split.
    + intros n ->%list_elem_of_singleton. split; [done|].
      rewrite Ht, dom_singleton_L. set_solver.
    + intros p n [<- <-]%lookup_singleton_Some. done.
    + rewrite dom_singleton_L. set_solver.
  - intros u Hu. rewrite dom_singleton_L in Hu.
    apply elem_of_singleton in Hu as ->. left. exists (start_node s).
    split; [left|done].
  - intros p Hp _. rewrite dom_singleton_L in Hp.
    apply elem_of_singleton in Hp as ->. left. exists (start_node s).
    split; [left|done].
Qed.

Lemma bidi_measure_initial s :
  (bidi_measure s (mkBidi [start_node s] [target_node s]
                     {[start s := start_node s]}
                     {[target s := target_node s]})
   ≤ 2 * (Z.to_nat (rows s) * Z.to_nat (cols s)) + 2)%nat.
Proof.
  unfold bidi_measure.
  cbn [forward_queue forward_visited backward_queue backward_visited length].
  pose proof (size_all_cells s) as H1.
  pose proof (subseteq_size
    (all_cells s ∖ dom ({[start s := start_node s]} : gmap pos Node))
    (all_cells s)) as H2.
  pose proof (subseteq_size
    (all_cells s ∖ dom ({[target s := target_node s]} : gmap pos Node))
    (all_cells s)) as H3.
  assert (Ha : ∀ X : gset pos, all_cells s ∖ X ⊆ all_cells s) by set_solver.
  specialize (H2 (Ha _)). specialize (H3 (Ha _)). lia.
Qed.

(** X11. [bidirectional_search] under the same conditions, when the cell
    of the target is valid for a move: after at most [2 * rows * cols + 3]
    iterations it returns; [True] comes with a passable path from the
    start to the target, [False] means that no passable path exists. *)
Theorem bidirectional_search_finds (s : Pathfinder) (fuel : nat) :
  calm s → is_valid_position s (target s).1 (target s).2 = true →
  (2 * (Z.to_nat (rows s) * Z.to_nat (cols s)) + 3 ≤ fuel)%nat →
  ∃ r s', bidirectional_search fuel s = Done r s' ∧
    match r with
    | RetTrue path => connects s path (start s) (target s)
    | RetFalse => ¬ ∃ l, connects s l (start s) (target s)
    end.
Proof.
  intros Hcalm Htv Hfuel. unfold bidirectional_search.
  pose proof (bidi_measure_initial s) as Hm.
  apply (bidi_loop_calm s fuel s _ Hcalm Htv (same_world_refl s)
           (bidi_calm_initial s)). lia.
Qed.

(** ** Depth-limited search and iterative deepening *)

Lemma passable_path_ext s s' l :
  (∀ r c, is_valid_position s' r c = is_valid_position s r c) →
  passable_path s' l ↔ passable_path s l.
Proof.
  intros Hv. induction l as [|p [|q l] IH]; [done..|].
  cbn [passable_path] in *. by rewrite Hv, IH.
Qed.

Lemma connects_ext s s' l a b :
  (∀ r c, is_valid_position s' r c = is_valid_position s r c) →
  connects s' l a b ↔ connects s l a b.
Proof. intros Hv. unfold connects. by rewrite (passable_path_ext s s'). Qed.

Lemma same_world_clear_fold s0 ps : ∀ s,
  same_world s0 s → (∀ p, p ∈ ps → in_grid s0 p = true) →
  same_world s0
    (foldl (fun s p =>
              if bool_decide (cell s p ∈ [FRONTIER; EXPLORED; PATH])
              then set_cell p EMPTY s else s) s ps).
Proof.
  induction ps as [|p ps IH]; intros s Hw Hin; [done|]. cbn [foldl].
  apply IH; [|intros q Hq; apply Hin; by right].
  case_bool_decide as Hc; [|done].
  apply same_world_set_cell; try done.
  apply is_valid_position_spec. rewrite <- surjective_pairing.
  split_and!.
  - destruct Hw as ((Hr & Hcl & _) & _).
    specialize (Hin p (list_elem_of_here _ _)). unfold in_grid in *.
    by rewrite Hr, Hcl.
  - intros Heq. rewrite Heq in Hc. set_solver.
  - intros Heq. rewrite Heq in Hc. set_solver.
Qed.

Lemma same_world_clear_search_visualization s0 s :
  same_world s0 s →
  is_valid_position s0 (start s0).1 (start s0).2 = true →
  is_valid_position s0 (target s0).1 (target s0).2 = true →
  same_world s0 (clear_search_visualization s).
Proof.
  intros Hw Hs Ht. unfold clear_search_visualization.
  pose proof (same_world_clear_fold s0 (grid_positions s) s Hw) as Hw1.
  assert (Hpos : grid_positions s = grid_positions s0).
  { destruct Hw as ((Hr & Hc & _) & _). unfold grid_positions.
    by rewrite Hr, Hc. }
  rewrite Hpos in *.
  specialize (Hw1 (fun p => proj1 (elem_of_grid_positions s0 p))).
  set (s1 := foldl _ s (grid_positions s0)) in *.
  destruct (same_world_markers _ _ Hw1) as [Hs1 Ht1].
  assert (Hw2 : same_world s0 (set_cell (start s1) START s1)).
  { apply same_world_set_cell; try done.
    by rewrite Hs1, (same_world_valid s0 s1). }
  change (target (set_cell (start s1) START s1)) with (target s1).
  apply same_world_set_cell; try done.
  by rewrite Ht1, (same_world_valid s0 _).
Qed.

Lemma start_node_same s0 s : start s = start s0 → start_node s = start_node s0.
Proof. unfold start_node. by intros ->. Qed.

(** [depth_limited_search] with a limit of [d] moves, from any state of the
    same world. *)
Lemma depth_limited_search_calm s0 s (d : nat) :
  calm s0 → same_world s0 s →
  match depth_limited_search (Z.of_nat d) s with
  | (RetTrue path, _) =>
      connects s0 path (start s0) (target s0) ∧ (length path ≤ S d)%nat
  | (RetFalse, s') =>
      same_world s0 s' ∧
      ∀ l, connects s0 l (start s0) (target s0) → (S d < length l)%nat
  end.
Proof.
  intros Hcalm Hw. unfold depth_limited_search.
  replace (Z.to_nat (Z.of_nat d + 1)) with (S d) by lia.
  destruct (same_world_markers _ _ Hw) as [Hs Ht].
  rewrite (start_node_same s0 s Hs).
  assert (Hroot : connects s0 ([] ++ [npos (start_node s0)]) (start s0)
                    (npos (start_node s0))).
  { rewrite npos_start_node. by split_and!. }
  pose proof (dls_recursive_sound s0 (S d) s (start_node s0) ∅ [] Hcalm Hw
                Hroot) as Hsound.
  destruct (dls_recursive (S d) s (start_node s0) ∅ []) as [[path|] s'] eqn:Hrun.
  - simpl in Hsound. done.
  - split; [done|]. intros l Hl.
    destruct (decide (length l ≤ S d)%nat) as [Hle|]; [|lia].
    destruct (dls_recursive_complete s0 (S d) s (start_node s0) ∅ [] l
                Hcalm Hw Hroot) as (full & s'' & Hfound); try done.
    + by rewrite npos_start_node.
    + congruence.
Qed.

Lemma iddfs_loop_calm s0 n : ∀ k s,
  calm s0 →
  is_valid_position s0 (start s0).1 (start s0).2 = true →
  is_valid_position s0 (target s0).1 (target s0).2 = true →
  same_world s0 s →
  (∀ l, connects s0 l (start s0) (target s0) → (k < length l)%nat) →
  match iddfs_loop (seq k n) s with
  | (RetTrue path, _) =>
      connects s0 path (start s0) (target s0) ∧ (length path ≤ k + n)%nat ∧
      ∀ l, connects s0 l (start s0) (target s0) → (length path ≤ length l)%nat
  | (RetFalse, s') =>
      same_world s0 s' ∧
      ∀ l, connects s0 l (start s0) (target s0) → (k + n < length l)%nat
  end.
Proof.
  induction n as [|n IH]; intros k s Hcalm Hsv Htv Hw Hlow.
  { cbn [seq iddfs_loop]. split; [done|]. intros l Hl.
    specialize (Hlow l Hl). lia. }
  cbn [seq iddfs_loop].
  pose proof (same_world_clear_search_visualization s0 s Hw Hsv Htv) as Hw1.
  pose proof (depth_limited_search_calm s0 _ k Hcalm Hw1) as Hdls.
  destruct (depth_limited_search (Z.of_nat k) (clear_search_visualization s))
    as [[path|] s2].
  - destruct Hdls as [Hc Hlen]. split_and!; [done|lia|].
    intros l Hl. specialize (Hlow l Hl). lia.
  - destruct Hdls as [Hw2 Hlow2]. rewrite (paused_calm _ _ Hcalm Hw2).
    specialize (IH (S k) s2 Hcalm Hsv Htv Hw2 Hlow2).
    destruct (iddfs_loop (seq (S k) n) s2) as [[path|] s3].
    + destruct IH as (? & ? & ?). split_and!; [done|lia|done].
    + destruct IH as [? Hl3]. split; [done|]. intros l Hl.
      specialize (Hl3 l Hl). lia.
Qed.

(** X12. [iterative_deepening_dfs] under the same conditions, when the
    cells of both markers are valid for a move.  When it returns [True]
    the path is passable, leads from the start to the target, has at most
    30 positions and no passable path has fewer; it returns [False] only
    when every passable path from the start to the target has more than 30
    positions. *)
Theorem iterative_deepening_dfs_shortest (s : Pathfinder) :
  calm s →
  is_valid_position s (start s).1 (start s).2 = true →
  is_valid_position s (target s).1 (target s).2 = true →
  match iterative_deepening_dfs s with
  | (RetTrue path, _) =>
      connects s path (start s) (target s) ∧ (length path ≤ 30)%nat ∧
      ∀ l, connects s l (start s) (target s) → (length path ≤ length l)%nat
  | (RetFalse, _) =>
      ∀ l, connects s l (start s) (target s) → (30 < length l)%nat
  end.
Proof.
  intros Hcalm Hsv Htv. unfold iterative_deepening_dfs.
  pose proof (iddfs_loop_calm s 30 0 s Hcalm Hsv Htv (same_world_refl s))
    as Hrun.
  destruct (iddfs_loop (seq 0 30) s) as [[path|] s'].
  - apply Hrun. intros l (Hhd & _). destruct l; [done|simpl; lia].
  - apply Hrun. intros l (Hhd & _). destruct l; [done|simpl; lia].
Qed.

(** ** The controller *)

Lemma clear_search_visualization_grid s :
  ∃ g, clear_search_visualization s = with_grid g s.
Proof.
  unfold clear_search_visualization.
  destruct (clear_fold_grid
    (fun c => bool_decide (c ∈ [FRONTIER; EXPLORED; PATH]))
    (grid_positions s) s) as [g Hg].
  cbv beta in Hg. rewrite Hg. by eexists.
Qed.

Lemma run_strategy_calm s fuel :
  calm s →
  is_valid_position s (start s).1 (start s).2 = true →
  is_valid_position s (target s).1 (target s).2 = true →
  (8 * (Z.to_nat (rows s) * Z.to_nat (cols s)) + 10 ≤ fuel)%nat →
  ∃ r s', run_strategy fuel s = Some (r, s') ∧
    (success r = true ↔
     ∃ l, connects s l (start s) (target s) ∧
          within_reach (current_algorithm s) l).
Proof.
  intros Hcalm Hsv Htv Hfuel. unfold run_strategy, within_reach.
  destruct (current_algorithm s).
  - pose proof (search_measure_initial s) as Hm.
    destruct (bfs_loop_calm s fuel s [start_node s] {[start s]} Hcalm
                (same_world_refl s) (search_initial s) (bfs_levels_initial s))
      as (r & s' & Hrun & Hres & _); [lia|].
    exists r, s'. unfold breadth_first_search. rewrite Hrun. split; [done|].
    destruct r as [path|]; simpl in *.
    + split; [|done]. intros _. exists path. by destruct Hres.
    + split; [done|]. intros (l & Hl & _). destruct Hres. by exists l.
  - pose proof (search_measure_initial s) as Hm.
    destruct (dfs_loop_calm s fuel s [start_node s] {[start s]} Hcalm
                (same_world_refl s) (search_initial s))
      as (r & s' & Hrun & Hres); [lia|].
    exists r, s'. unfold depth_first_search. rewrite Hrun. split; [done|].
    destruct r as [path|]; simpl in *.
    + split; [|done]. intros _. exists path. by destruct Hres.
    + split; [done|]. intros (l & Hl & _). destruct Hres. by exists l.
  - destruct (ucs_initial s) as [Hf Hc].
    pose proof (ucs_measure_initial s) as Hm.
    destruct (ucs_loop_any s fuel s [start_node s] ∅ {[start s := 0]} Hcalm
                (same_world_refl s) Hf Hc) as (r & s' & Hrun & Hres); [lia|].
    exists r, s'. unfold uniform_cost_search. rewrite Hrun. split; [done|].
    destruct r as [path|]; simpl in *.
    + split; [|done]. intros _. by exists path.
    + split; [done|]. intros (l & Hl & _). destruct Hres. by exists l.
  - pose proof (depth_limited_search_calm s s 15 Hcalm (same_world_refl s))
      as Hrun.
    change (Z.of_nat 15) with 15 in Hrun.
    destruct (depth_limited_search 15 s) as [[path|] s'].
    + eexists _, _. split; [done|]. simpl. split; [|done]. intros _.
      exists path. done.
    + eexists _, _. split; [done|]. simpl. split; [done|].
      intros (l & Hl & Hlen). destruct Hrun as [_ Hlow].
      specialize (Hlow l Hl). lia.
  - pose proof (iddfs_loop_calm s 30 0 s Hcalm Hsv Htv (same_world_refl s))
      as Hrun.
    unfold iterative_deepening_dfs.
    assert (Hlow0 : ∀ l, connects s l (start s) (target s) →
              (0 < length l)%nat).
    { intros l (Hhd & _). destruct l; [done|simpl; lia]. }
    specialize (Hrun Hlow0).
    destruct (iddfs_loop (seq 0 30) s) as [[path|] s'].
    + eexists _, _. split; [done|]. simpl. split; [|done]. intros _.
      exists path. destruct Hrun as (? & ? & _). done.
    + eexists _, _. split; [done|]. simpl. split; [done|].
      intros (l & Hl & Hlen). destruct Hrun as [_ Hlow].
      specialize (Hlow l Hl). lia.
  - pose proof (bidi_measure_initial s) as Hm.
    destruct (bidi_loop_calm s fuel s _ Hcalm Htv (same_world_refl s)
                (bidi_calm_initial s)) as (r & s' & Hrun & Hres); [lia|].
    exists r, s'. unfold bidirectional_search. rewrite Hrun. split; [done|].
    destruct r as [path|]; simpl in *.
    + split; [|done]. intros _. by exists path.
    + split; [done|]. intros (l & Hl & _). destruct Hres. by exists l.
Qed.

(** X13. [run_algorithm] when no search is running, dynamic obstacles are
    disabled, no space key and no window close arrives and the cells of
    both markers are valid for a move: for each of the six algorithms the
    run ends, with [is_searching] off and [search_complete] on, and it
    prints the line for a found path exactly when a passable path from
    the start to the target exists that is within the reach of the
    algorithm: at most 16 positions for DLS, at most 30 for IDDFS, any
    length for the others. *)
Theorem run_algorithm_reports (s : Pathfinder) (fuel : nat) :
  is_searching s = false →
  enable_dynamic_obstacles s = false → (∀ k, quiet (events s k)) →
  is_valid_position s (start s).1 (start s).2 = true →
  is_valid_position s (target s).1 (target s).2 = true →
  (8 * (Z.to_nat (rows s) * Z.to_nat (cols s)) + 10 ≤ fuel)%nat →
  ∃ m s', run_algorithm fuel s = Some (Some m, s') ∧
    (m = Path_found ↔
     ∃ l, connects s l (start s) (target s) ∧
          within_reach (current_algorithm s) l) ∧
    is_searching s' = false ∧ search_complete s' = true.
Proof.
  intros Hidle Hoff Hquiet Hsv Htv Hfuel. unfold run_algorithm.
  rewrite Hidle.
  pose proof (same_world_clear_search_visualization s s (same_world_refl s)
                Hsv Htv) as Hw.
  destruct (clear_search_visualization_grid s) as [g Hg].
  rewrite Hg in *. cbv zeta.
  set (s1 := with_flags true false false (with_grid g s)).
  assert (Hvalid : ∀ r c, is_valid_position s1 r c = is_valid_position s r c).
  { intros r c. apply (same_world_valid s (with_grid g s) r c Hw). }
  assert (Hcalm : calm s1) by (by split_and!).
  destruct (run_strategy_calm s1 fuel Hcalm) as (r & s2 & -> & Hres).
  { rewrite Hvalid. exact Hsv. }
  { rewrite Hvalid. exact Htv. }
  { exact Hfuel. }
  eexists _, _. split; [done|]. split_and!; [|done..].
  change (start s1) with (start s) in Hres.
  change (target s1) with (target s) in Hres.
  change (current_algorithm s1) with (current_algorithm s) in Hres.
  assert (Hiff : (∃ l, connects s1 l (start s) (target s) ∧
                       within_reach (current_algorithm s) l) ↔
                 (∃ l, connects s l (start s) (target s) ∧
                       within_reach (current_algorithm s) l)).
  { split; intros (l & Hl & Hr); exists l; split; try done;
      by apply (connects_ext s s1 l _ _ Hvalid). }
  rewrite <- Hiff, <- Hres. by destruct r.
Qed.

(** ** A reported path is passable, whatever happened during the search *)






















(** *** UCS *)





(** *** Bidirectional search *)









(** *** Depth-limited search and iterative deepening *)






(** ** The control panel *)

Lemma all_buttons_eq s :
  all_buttons s =
  [ Button (panel_x s) 50 120 30; Button (panel_x s) 85 120 30;
    Button (panel_x s) 120 120 30; Button (panel_x s) 155 120 30;
    Button (panel_x s) 190 120 30; Button (panel_x s) 225 120 30;
    Button (panel_x s) 280 80 30; Button (panel_x s + 90) 280 80 30;
    Button (panel_x s) 320 80 30; Button (panel_x s + 90) 320 80 30;
    Button (panel_x s) 380 120 30; Button (panel_x s) 415 120 30;
    Button (panel_x s) 450 120 30;
    Button (panel_x s + 140) 50 80 30; Button (panel_x s + 140) 85 80 30;
    Button (panel_x s + 140) 120 80 30;
    Button (panel_x s) 500 150 30 ].
Proof. reflexivity. Qed.

Lemma is_clicked_spec b pos :
  is_clicked b pos = true ↔
  rect_x b <= pos.1 < rect_x b + rect_w b ∧
  rect_y b <= pos.2 < rect_y b + rect_h b.
Proof. unfold is_clicked, collidepoint. rewrite !andb_true_iff. lia. Qed.

Ltac pick_button i H :=
  cbn [lookup list_lookup] in H;
  first [ discriminate H
        | destruct i as [|i]; [injection H as <-|pick_button i H] ].

Lemma buttons_disjoint s pos i j b1 b2 :
  all_buttons s !! i = Some b1 → all_buttons s !! j = Some b2 →
  is_clicked b1 pos = true → is_clicked b2 pos = true → i = j.
Proof.
  rewrite all_buttons_eq. generalize (panel_x s). intros px Hi Hj H1 H2.
  apply is_clicked_spec in H1. apply is_clicked_spec in H2.
  pick_button i Hi; pick_button j Hj; try done; simpl in *; lia.
Qed.

(** X15. The seventeen buttons that [setup_ui] lays out do not overlap:
    whatever the position of the mouse, [update_button_hover] marks at
    most one of them, and none when the mouse is left of the panel's
    buttons. *)
Theorem buttons_do_not_overlap (s : Pathfinder) (pos : Z * Z) :
  length (update_button_hover s pos) = 17%nat ∧
  (∀ i j, update_button_hover s pos !! i = Some true →
          update_button_hover s pos !! j = Some true → i = j) ∧
  (pos.1 < grid_width s + 10 →
   ∀ h, h ∈ update_button_hover s pos → h = false).
Proof.
  unfold update_button_hover. split_and!.
  - by rewrite length_fmap, all_buttons_eq.
  - intros i j Hi Hj. rewrite list_lookup_fmap in Hi, Hj.
    destruct (all_buttons s !! i) as [b1|] eqn:H1; [|done].
    destruct (all_buttons s !! j) as [b2|] eqn:H2; [|done].
    simpl in Hi, Hj. injection Hi as Hi. injection Hj as Hj.
    by apply (buttons_disjoint s pos i j b1 b2).
  - intros Hleft h (b & -> & Hb)%list_elem_of_fmap.
    apply not_true_is_false. intros Hc%is_clicked_spec.
    rewrite all_buttons_eq in Hb. unfold panel_x in Hb.
    repeat (apply elem_of_cons in Hb as [->|Hb]; [simpl in Hc; lia|]).
    by apply elem_of_nil in Hb.
Qed.

Lemma is_clicked_false b pos :
  ¬ (rect_x b <= pos.1 < rect_x b + rect_w b ∧
     rect_y b <= pos.2 < rect_y b + rect_h b) →
  is_clicked b pos = false.
Proof. intros H. apply not_true_is_false. by rewrite is_clicked_spec. Qed.

Lemma algo_buttons_eq s :
  algo_buttons s =
  [ (Button (panel_x s) 50 120 30, BFS); (Button (panel_x s) 85 120 30, DFS);
    (Button (panel_x s) 120 120 30, UCS); (Button (panel_x s) 155 120 30, DLS);
    (Button (panel_x s) 190 120 30, IDDFS);
    (Button (panel_x s) 225 120 30, Bidirectional) ].
Proof. reflexivity. Qed.

Lemma speed_buttons_eq s :
  speed_buttons s =
  [ (Button (panel_x s + 140) 50 80 30, 200);
    (Button (panel_x s + 140) 85 80 30, 100);
    (Button (panel_x s + 140) 120 80 30, 50) ].
Proof. reflexivity. Qed.

Lemma mode_buttons_eq s :
  mode_buttons s =
  [ (Button (panel_x s) 380 120 30, MODE_WALL);
    (Button (panel_x s) 415 120 30, MODE_START);
    (Button (panel_x s) 450 120 30, MODE_TARGET) ].
Proof. reflexivity. Qed.

(** Decides every test [is_clicked b pos] of the goal from the button that
    is known to be hit. *)
Ltac decide_clicks pos :=
  repeat match goal with
         | |- context [is_clicked ?b pos] =>
             first [ rewrite (proj2 (is_clicked_spec b pos))
                       by (cbn [Button rect_x rect_y rect_w rect_h]; lia)
                   | rewrite (is_clicked_false b pos)
                       by (cbn [Button rect_x rect_y rect_w rect_h]; lia) ]
         end.

Lemma handle_button_click_cases fuel pos a :
  let s := pathfinder a in
  (∀ b algo, (b, algo) ∈ algo_buttons s → is_clicked b pos = true →
     handle_button_click fuel pos a =
       Some (mkApp (clear_search_visualization (with_algorithm algo s))
                   (step_delay a))) ∧
  (∀ b delay, (b, delay) ∈ speed_buttons s → is_clicked b pos = true →
     handle_button_click fuel pos a = Some (mkApp s delay)) ∧
  (is_clicked (start_button s) pos = true → is_searching s = false →
     handle_button_click fuel pos a =
       (fun r => mkApp r.2 (step_delay a)) <$> run_algorithm fuel s) ∧
  (is_clicked (start_button s) pos = true → is_searching s = true →
     handle_button_click fuel pos a = Some a) ∧
  (is_clicked (pause_button s) pos = true →
     handle_button_click fuel pos a =
       Some (mkApp (with_paused (negb (paused s)) s) (step_delay a))) ∧
  (is_clicked (reset_button s) pos = true →
     handle_button_click fuel pos a = Some (mkApp (reset s) (step_delay a))) ∧
  (is_clicked (clear_button s) pos = true →
     handle_button_click fuel pos a =
       Some (mkApp (with_flags false (search_complete (clear_all s)) false
                      (clear_all s)) (step_delay a))) ∧
  (∀ b mode, (b, mode) ∈ mode_buttons s → is_clicked b pos = true →
     handle_button_click fuel pos a =
       Some (mkApp (with_mode mode s) (step_delay a))) ∧
  (is_clicked (dynamic_toggle s) pos = true →
     handle_button_click fuel pos a =
       Some (mkApp (with_dynamic (negb (enable_dynamic_obstacles s)) s)
                   (step_delay a))) ∧
  ((∀ b, b ∈ all_buttons s → is_clicked b pos = false) →
     handle_button_click fuel pos a = Some a).
Proof.
  intros s. subst s. destruct a as [s delay]. cbn [pathfinder step_delay].
  unfold handle_button_click, control_buttons. cbn [pathfinder step_delay].
  rewrite algo_buttons_eq, speed_buttons_eq, mode_buttons_eq.
  unfold start_button, pause_button, reset_button, clear_button, dynamic_toggle.
  split_and!.
  - intros b algo Hb Hc. apply is_clicked_spec in Hc.
    repeat (apply elem_of_cons in Hb as [Hb|Hb];
            [injection Hb as -> ->; cbn [Button rect_x rect_y rect_w rect_h] in Hc;
             cbn [List.find fst]; decide_clicks pos; done|]).
    by apply elem_of_nil in Hb.
  - intros b d Hb Hc. apply is_clicked_spec in Hc.
    repeat (apply elem_of_cons in Hb as [Hb|Hb];
            [injection Hb as -> ->; cbn [Button rect_x rect_y rect_w rect_h] in Hc;
             cbn [List.find fst]; decide_clicks pos; done|]).
    by apply elem_of_nil in Hb.
  - intros Hc%is_clicked_spec Hidle. rewrite Hidle.
    cbn [Button rect_x rect_y rect_w rect_h] in Hc.
    cbn [List.find fst]. decide_clicks pos. cbn [andb negb].
    by destruct (run_algorithm fuel s) as [[m s']|].
  - intros Hc%is_clicked_spec Hbusy. rewrite Hbusy.
    cbn [Button rect_x rect_y rect_w rect_h] in Hc.
    cbn [List.find fst]. decide_clicks pos. done.
  - intros Hc%is_clicked_spec.
    cbn [Button rect_x rect_y rect_w rect_h] in Hc.
    cbn [List.find fst]. decide_clicks pos. done.
  - intros Hc%is_clicked_spec.
    cbn [Button rect_x rect_y rect_w rect_h] in Hc.
    cbn [List.find fst]. decide_clicks pos. done.
  - intros Hc%is_clicked_spec.
    cbn [Button rect_x rect_y rect_w rect_h] in Hc.
    cbn [List.find fst]. decide_clicks pos. done.
  - intros b mode Hb Hc. apply is_clicked_spec in Hc.
    repeat (apply elem_of_cons in Hb as [Hb|Hb];
            [injection Hb as -> ->; cbn [Button rect_x rect_y rect_w rect_h] in Hc;
             cbn [List.find fst]; decide_clicks pos; done|]).
    by apply elem_of_nil in Hb.
  - intros Hc%is_clicked_spec.
    cbn [Button rect_x rect_y rect_w rect_h] in Hc.
    cbn [List.find fst]. decide_clicks pos. done.
  - intros Hnone. rewrite all_buttons_eq in Hnone.
    cbn [List.find fst].
    repeat match goal with
           | |- context [is_clicked ?b pos] =>
               rewrite (Hnone b) by (apply list_elem_of_In; simpl; tauto)
           end.
    done.
Qed.

(** ** The main loop *)

Lemma is_searching_clear_search_visualization s :
  is_searching (clear_search_visualization s) = is_searching s.
Proof.
  unfold clear_search_visualization.
  destruct (clear_fold_grid
              (fun c => bool_decide (c ∈ [FRONTIER; EXPLORED; PATH]))
              (grid_positions s) s) as [g ->].
  done.
Qed.

Lemma is_searching_clear_all s : is_searching (clear_all s) = is_searching s.
Proof.
  unfold clear_all.
  destruct (clear_fold_grid
              (fun c => bool_decide (c ∉ [START; TARGET]))
              (grid_positions s) s) as [g ->].
  done.
Qed.

Lemma is_searching_handle_grid_click click s :
  is_searching (handle_grid_click click s) = is_searching s.
Proof.
  unfold handle_grid_click. destruct (_ >? _); [done|].
  destruct (_ && _); [|done].
  destruct (current_mode s); [|done..].
  by destruct (cell s _).
Qed.

Lemma run_algorithm_idle fuel s r :
  run_algorithm fuel s = Some r → is_searching s = false →
  is_searching r.2 = false.
Proof.
  unfold run_algorithm. intros Hrun Hidle. rewrite Hidle in Hrun.
  destruct (run_strategy _ _) as [[res s']|]; [|done].
  by injection Hrun as <-.
Qed.

Lemma control_buttons_idle fuel pos s s' :
  control_buttons fuel pos s = Some s' → is_searching s = false →
  is_searching s' = false.
Proof.
  unfold control_buttons. intros Hrun Hidle. rewrite Hidle in Hrun.
  destruct (is_clicked (start_button s) pos); cbn [andb negb] in Hrun.
  { destruct (run_algorithm fuel s) as [r|] eqn:Hr; [|done].
    injection Hrun as <-. by apply (run_algorithm_idle fuel s). }
  destruct (is_clicked (pause_button s) pos); [by injection Hrun as <-|].
  destruct (is_clicked (reset_button s) pos); [by injection Hrun as <-|].
  destruct (is_clicked (clear_button s) pos); [by injection Hrun as <-|].
  by injection Hrun as <-.
Qed.

Lemma handle_button_click_idle fuel pos a a' :
  handle_button_click fuel pos a = Some a' →
  is_searching (pathfinder a) = false → is_searching (pathfinder a') = false.
Proof.
  unfold handle_button_click. intros Hrun Hidle.
  destruct (List.find _ (algo_buttons _)) as [[b algo]|].
  { injection Hrun as <-. cbn [pathfinder].
    by rewrite is_searching_clear_search_visualization. }
  destruct (List.find _ (speed_buttons _)) as [[b d]|];
    [by injection Hrun as <-|].
  destruct (control_buttons _ _ _) as [s1|] eqn:Hc; [|done].
  apply control_buttons_idle in Hc; [|done].
  destruct (List.find _ (mode_buttons _)) as [[b m]|];
    [by injection Hrun as <-|].
  destruct (is_clicked _ _); by injection Hrun as <-.
Qed.

Lemma handle_main_event_idle fuel e running a st :
  handle_main_event fuel e (running, a) = Some st →
  is_searching (pathfinder a) = false →
  is_searching (pathfinder st.2) = false.
Proof.
  intros Hrun Hidle. unfold handle_main_event in Hrun.
  destruct e as [|button pos|[| |]|]; try by injection Hrun as <-.
  - destruct (button =? 1); [|by injection Hrun as <-].
    destruct (_ && _).
    { rewrite Hidle in Hrun. cbn [negb] in Hrun. injection Hrun as <-.
      cbn [snd pathfinder]. by rewrite is_searching_handle_grid_click. }
    destruct (_ <=? _); [|by injection Hrun as <-].
    destruct (handle_button_click _ _ _) as [a'|] eqn:Hb; [|done].
    injection Hrun as <-. by apply (handle_button_click_idle fuel pos a).
  - rewrite Hidle in Hrun. cbn [negb] in Hrun.
    destruct (run_algorithm _ _) as [r|] eqn:Hr; [|done].
    injection Hrun as <-. by apply (run_algorithm_idle fuel (pathfinder a)).
Qed.

(** The flag [running] of the state has no part in what an event does to
    the application. *)
Lemma handle_main_event_running fuel e running a :
  handle_main_event fuel e (running, a) =
  (fun st => (running && negb (is_ui_quit e), st.2)) <$>
    handle_main_event fuel e (true, a).
Proof.
  unfold handle_main_event.
  destruct e as [|button pos|[| |]|]; cbn [is_ui_quit negb];
    rewrite ?andb_true_r, ?andb_false_r; try done.
  - destruct (button =? 1); [|done]. destruct (_ && _).
    { by destruct (negb _). }
    destruct (_ <=? _); [|done].
    by destruct (handle_button_click _ _ _).
  - destruct (negb _); [|done]. by destruct (run_algorithm _ _).
Qed.

Lemma handle_main_event_keeps_running fuel e a r a' :
  is_ui_quit e = false → handle_main_event fuel e (true, a) = Some (r, a') →
  r = true.
Proof.
  intros Hq He. pose proof (handle_main_event_running fuel e true a) as Heq.
  rewrite He, Hq in Heq. by injection Heq as ->.
Qed.

Lemma run_frame_running fuel evs : ∀ running a,
  run_frame fuel evs (running, a) =
  (fun st => (running && forallb (fun e => negb (is_ui_quit e)) evs, st.2)) <$>
    run_frame fuel (List.filter (fun e => negb (is_ui_quit e)) evs) (true, a).
Proof.
  induction evs as [|e evs IH]; intros running a.
  { cbn. by rewrite andb_true_r. }
  cbn [run_frame forallb List.filter].
  rewrite handle_main_event_running.
  destruct (is_ui_quit e) eqn:Hq; cbn [negb andb].
  - destruct e; try done. cbn. rewrite andb_false_r, (IH false a).
    by destruct (run_frame _ _ _) as [[r a']|].
  - cbn [run_frame].
    destruct (handle_main_event _ _ (true, a)) as [[r a']|] eqn:He; [|done].
    apply handle_main_event_keeps_running in He as ->; [|done].
    cbn. rewrite andb_true_r. by rewrite (IH running a').
Qed.

Lemma run_frame_idle fuel evs : ∀ st st',
  run_frame fuel evs st = Some st' →
  is_searching (pathfinder st.2) = false →
  is_searching (pathfinder st'.2) = false.
Proof.
  induction evs as [|e evs IH]; intros [running a] st' Hrun Hidle.
  { by injection Hrun as <-. }
  cbn [run_frame] in Hrun.
  destruct (handle_main_event _ _ _) as [st1|] eqn:He; [|done].
  apply (IH st1 st'); [done|].
  by apply (handle_main_event_idle fuel e running a).
Qed.

(** X16. [handle_button_click]: a click on a button does what this button
    is for and nothing else, although the tests of the control buttons, of
    the mode buttons and of the toggle follow each other without a
    [return].  An algorithm button selects the algorithm and clears the
    overlay; a speed button sets the delay; Start runs the search when none
    is running and does nothing otherwise; Pause flips [paused]; Reset
    clears the overlay, Clear the walls too, and both drop [is_searching]
    and [paused]; a mode button sets the mode; the toggle flips
    [enable_dynamic_obstacles]; a click beside the buttons changes
    nothing. *)
Theorem handle_button_click_actions (fuel : nat) (pos : Z * Z) (a : App) :
  let s := pathfinder a in
  (∀ b algo, (b, algo) ∈ algo_buttons s → is_clicked b pos = true →
     handle_button_click fuel pos a =
       Some (mkApp (clear_search_visualization (with_algorithm algo s))
                   (step_delay a))) ∧
  (∀ b delay, (b, delay) ∈ speed_buttons s → is_clicked b pos = true →
     handle_button_click fuel pos a = Some (mkApp s delay)) ∧
  (is_clicked (start_button s) pos = true → is_searching s = false →
     handle_button_click fuel pos a =
       (fun r => mkApp r.2 (step_delay a)) <$> run_algorithm fuel s) ∧
  (is_clicked (start_button s) pos = true → is_searching s = true →
     handle_button_click fuel pos a = Some a) ∧
  (is_clicked (pause_button s) pos = true →
     handle_button_click fuel pos a =
       Some (mkApp (with_paused (negb (paused s)) s) (step_delay a))) ∧
  (is_clicked (reset_button s) pos = true →
     handle_button_click fuel pos a = Some (mkApp (reset s) (step_delay a))) ∧
  (is_clicked (clear_button s) pos = true →
     handle_button_click fuel pos a =
       Some (mkApp (with_flags false (search_complete (clear_all s)) false
                      (clear_all s)) (step_delay a))) ∧
  (∀ b mode, (b, mode) ∈ mode_buttons s → is_clicked b pos = true →
     handle_button_click fuel pos a =
       Some (mkApp (with_mode mode s) (step_delay a))) ∧
  (is_clicked (dynamic_toggle s) pos = true →
     handle_button_click fuel pos a =
       Some (mkApp (with_dynamic (negb (enable_dynamic_obstacles s)) s)
                   (step_delay a))) ∧
  ((∀ b, b ∈ all_buttons s → is_clicked b pos = false) →
     handle_button_click fuel pos a = Some a).
Proof. apply handle_button_click_cases. Qed.

(** X17. The events of the main loop.  A left click on the Start button
    does what the space key does, and one on the Reset button what the key
    [r] does.  A left click on a cell of the grid goes to
    [handle_grid_click] while no search is running; a left click below the
    grid, one in the panel beside the buttons and a click of another mouse
    button change nothing. *)
Theorem main_loop_clicks_and_keys (fuel : nat) (running : bool) (a : App)
    (pos : Z * Z) :
  let s := pathfinder a in
  let click := handle_main_event fuel (UI_MOUSEBUTTONDOWN 1 pos) (running, a) in
  (is_clicked (start_button s) pos = true →
     click = handle_main_event fuel (UI_KEYDOWN K_SPACE) (running, a)) ∧
  (is_clicked (reset_button s) pos = true →
     click = handle_main_event fuel (UI_KEYDOWN K_r) (running, a)) ∧
  (pos.1 < grid_width s → pos.2 < grid_height s → is_searching s = false →
     click = Some (running, mkApp (handle_grid_click pos s) (step_delay a))) ∧
  (pos.1 < grid_width s → grid_height s <= pos.2 →
     click = Some (running, a)) ∧
  (grid_width s <= pos.1 →
     (∀ b, b ∈ all_buttons s → is_clicked b pos = false) →
     click = Some (running, a)) ∧
  (∀ button, button ≠ 1 →
     handle_main_event fuel (UI_MOUSEBUTTONDOWN button pos) (running, a) =
       Some (running, a)).
Proof.
  intros s click. subst click. unfold handle_main_event. fold s.
  destruct (handle_button_click_cases fuel pos a)
    as (_ & _ & Hstart & Hbusy & _ & Hreset & _ & _ & _ & Hnone).
  fold s in Hstart, Hbusy, Hreset, Hnone.
  rewrite Z.eqb_refl. split_and!.
  - intros Hc. pose proof Hc as Hin. apply is_clicked_spec in Hin.
    unfold start_button, panel_x in Hin.
    cbn [Button rect_x rect_y rect_w rect_h] in Hin.
    replace (pos.1 <? grid_width s) with false by lia.
    replace (grid_width s <=? pos.1) with true by lia. cbn [andb].
    destruct (is_searching s) eqn:Hs; cbn [negb].
    + by rewrite Hbusy.
    + rewrite Hstart by done. by destruct (run_algorithm fuel s).
  - intros Hc. pose proof Hc as Hin. apply is_clicked_spec in Hin.
    unfold reset_button, panel_x in Hin.
    cbn [Button rect_x rect_y rect_w rect_h] in Hin.
    replace (pos.1 <? grid_width s) with false by lia.
    replace (grid_width s <=? pos.1) with true by lia. cbn [andb].
    by rewrite Hreset.
  - intros H1 H2 ->.
    replace (pos.1 <? grid_width s) with true by lia.
    by replace (pos.2 <? grid_height s) with true by lia.
  - intros H1 H2.
    replace (pos.1 <? grid_width s) with true by lia.
    replace (pos.2 <? grid_height s) with false by lia.
    by replace (grid_width s <=? pos.1) with false by lia.
  - intros H1 Hb.
    replace (pos.1 <? grid_width s) with false by lia.
    replace (grid_width s <=? pos.1) with true by lia. cbn [andb].
    by rewrite Hnone.
  - intros button Hb. by replace (button =? 1) with false by lia.
Qed.

(** X18. One pass of the main loop over a batch of events.  A window
    close does nothing but clear [running]: the events before and after it
    are handled as if it were not there, and [running] is never set again.
    And when no search is running before the batch, none is running after
    it, so that the tests [not self.is_searching] of the loop always
    hold. *)
Theorem run_frame_quit_and_idle (fuel : nat) (evs : list UIEvent)
    (running : bool) (a : App) :
  run_frame fuel evs (running, a) =
    (fun st => (running && forallb (fun e => negb (is_ui_quit e)) evs, st.2))
      <$> run_frame fuel (List.filter (fun e => negb (is_ui_quit e)) evs)
            (true, a) ∧
  (is_searching (pathfinder a) = false →
   ∀ st, run_frame fuel evs (running, a) = Some st →
         is_searching (pathfinder st.2) = false).
Proof.
  split; [apply run_frame_running|].
  intros Hidle st Hrun. by apply (run_frame_idle fuel evs (running, a)).
Qed.

(** ** Examples of the properties above *)

Ltac solve_calm :=
  split_and!; try reflexivity; intros k; split; apply not_elem_of_nil.

(** The open 3 x 3 grid after a breadth-first search: the cell [(1, 1)] of
    the path is empty again. *)
Lemma clear_search_visualization_cells_witness :
  let s := run_state (breadth_first_search 20 (small_grid no_events)) in
  grid_wf s ∧ in_grid s (start s) = true ∧ in_grid s (target s) = true ∧
  cell s (1, 1) = PATH ∧ cell (clear_search_visualization s) (1, 1) = EMPTY ∧
  cell (clear_search_visualization s) (0, 0) = START.
Proof.
  intros s.
  assert (Hwf : grid_wf s) by solve_grid_wf.
  assert (Hs : in_grid s (start s) = true) by (vm_compute; reflexivity).
  assert (Ht : in_grid s (target s) = true) by (vm_compute; reflexivity).
  destruct (clear_search_visualization_cells s Hwf Hs Ht) as [Hcell _].
  split; [exact Hwf|]. split; [exact Hs|]. split; [exact Ht|].
  split; [vm_compute; reflexivity|]. split.
  - transitivity
      (if decide ((1, 1) = target s) then TARGET
       else if decide ((1, 1) = start s) then START
       else if decide (cell s (1, 1) ∈ [FRONTIER; EXPLORED; PATH]) then EMPTY
       else cell s (1, 1)); [exact (Hcell (1, 1))|vm_compute; reflexivity].
  - transitivity
      (if decide ((0, 0) = target s) then TARGET
       else if decide ((0, 0) = start s) then START
       else if decide (cell s (0, 0) ∈ [FRONTIER; EXPLORED; PATH]) then EMPTY
       else cell s (0, 0)); [exact (Hcell (0, 0))|vm_compute; reflexivity].
Defined.

(** The sample maze: the wall at [(5, 8)] is gone, the markers stay. *)
Lemma clear_all_cells_witness :
  grid_wf maze ∧ cell maze (5, 8) = WALL ∧
  cell (clear_all maze) (5, 8) = EMPTY ∧ cell (clear_all maze) (1, 1) = START ∧
  is_valid_position (clear_all maze) 5 8 = true.
Proof.
  assert (Hwf : grid_wf maze) by solve_grid_wf.
  destruct (clear_all_cells maze Hwf) as (Hcell & Hvalid & _).
  split; [exact Hwf|]. split; [vm_compute; reflexivity|].
  rewrite !Hcell, Hvalid. split_and!; vm_compute; reflexivity.
Defined.

(** The diagonal of the open 3 x 3 grid. *)
Lemma visualize_path_cells_witness :
  let s := small_grid no_events in
  let path := [(0, 0); (1, 1); (2, 2)] in
  grid_wf s ∧ (∀ p, p ∈ path → in_grid s p = true) ∧
  cell (visualize_path path s) (1, 1) = PATH ∧
  cell (visualize_path path s) (0, 0) = START ∧
  cell (visualize_path path s) (2, 2) = TARGET.
Proof.
  intros s path.
  assert (Hwf : grid_wf s) by solve_grid_wf.
  assert (Hin : ∀ p, p ∈ path → in_grid s p = true).
  { intros p Hp. unfold path in Hp.
    repeat (apply elem_of_cons in Hp as [->|Hp]; [vm_compute; reflexivity|]).
    by apply elem_of_nil in Hp. }
  destruct (visualize_path_cells s path Hwf Hin) as [Hcell _].
  split; [exact Hwf|]. split; [exact Hin|].
  rewrite !Hcell. split_and!; vm_compute; reflexivity.
Defined.

(** A click on the wall at [(5, 8)] of the sample maze removes it, and a
    second click puts it back. *)
Lemma handle_grid_click_toggles_wall_witness :
  let s' := handle_grid_click (203, 128) maze in
  grid_wf maze ∧ 0 < grid_size maze ∧ current_mode maze = MODE_WALL ∧
  in_grid maze (5, 8) = true ∧ cell maze (5, 8) = WALL ∧
  cell s' (5, 8) = EMPTY ∧ handle_grid_click (203, 128) s' = maze.
Proof.
  intros s'.
  assert (Hwf : grid_wf maze) by solve_grid_wf.
  assert (Hsize : 0 < grid_size maze) by (vm_compute; reflexivity).
  assert (Hmode : current_mode maze = MODE_WALL) by reflexivity.
  assert (Hin : in_grid maze (5, 8) = true) by (vm_compute; reflexivity).
  destruct (handle_grid_click_toggles_wall maze (203, 128) Hwf Hsize Hmode Hin)
    as (Hcell & _ & _ & _ & Hback).
  split; [exact Hwf|]. split; [exact Hsize|]. split; [exact Hmode|].
  split; [exact Hin|]. split; [vm_compute; reflexivity|].
  split; [exact Hcell|exact Hback].
Defined.

(** A click into the panel, right of the 625 pixels of the grid. *)
Lemma handle_grid_click_outside_witness :
  0 < grid_size maze ∧ grid_width maze <= 700 ∧
  handle_grid_click (700, 128) maze = maze.
Proof.
  assert (Hsize : 0 < grid_size maze) by (vm_compute; reflexivity).
  assert (Hout : grid_width maze <= 700) by (vm_compute; discriminate).
  split; [exact Hsize|]. split; [exact Hout|].
  apply (handle_grid_click_outside maze (700, 128) Hsize).
  right. left. exact Hout.
Defined.

(** The open 5 x 5 grid from corner to corner. *)
Lemma breadth_first_search_shortest_witness :
  let s := open_grid 5 (0, 0) (4, 4) in
  calm s ∧
  ∃ r s', breadth_first_search 30 s = Done r s' ∧
    match r with
    | RetTrue path =>
        connects s path (start s) (target s) ∧ NoDup path ∧
        ∀ l, connects s l (start s) (target s) → (length path ≤ length l)%nat
    | RetFalse => ¬ ∃ l, connects s l (start s) (target s)
    end.
Proof.
  intros s.
  assert (Hcalm : calm s) by solve_calm.
  split; [exact Hcalm|].
  apply (breadth_first_search_shortest s 30 Hcalm). vm_compute. lia.
Defined.

(** The grid whose middle row is a wall: the search gives up, and no path
    exists. *)
Lemma depth_first_search_finds_witness :
  calm walled_grid ∧
  ∃ r s', depth_first_search 20 walled_grid = Done r s' ∧
    match r with
    | RetTrue path =>
        connects walled_grid path (start walled_grid) (target walled_grid) ∧
        NoDup path
    | RetFalse =>
        ¬ ∃ l, connects walled_grid l (start walled_grid) (target walled_grid)
    end.
Proof.
  assert (Hcalm : calm walled_grid) by solve_calm.
  split; [exact Hcalm|].
  apply (depth_first_search_finds walled_grid 20 Hcalm). vm_compute. lia.
Defined.


(** The open 5 x 5 grid from corner to corner. *)
Lemma bidirectional_search_finds_witness :
  let s := open_grid 5 (0, 0) (4, 4) in
  calm s ∧ is_valid_position s (target s).1 (target s).2 = true ∧
  ∃ r s', bidirectional_search 60 s = Done r s' ∧
    match r with
    | RetTrue path => connects s path (start s) (target s)
    | RetFalse => ¬ ∃ l, connects s l (start s) (target s)
    end.
Proof.
  intros s.
  assert (Hcalm : calm s) by solve_calm.
  assert (Hvalid : is_valid_position s (target s).1 (target s).2 = true)
    by (vm_compute; reflexivity).
  split; [exact Hcalm|]. split; [exact Hvalid|].
  apply (bidirectional_search_finds s 60 Hcalm Hvalid). vm_compute. lia.
Defined.

(** The corridor of six cells. *)
Lemma iterative_deepening_dfs_shortest_witness :
  calm corridor ∧
  is_valid_position corridor (start corridor).1 (start corridor).2 = true ∧
  is_valid_position corridor (target corridor).1 (target corridor).2 = true ∧
  match iterative_deepening_dfs corridor with
  | (RetTrue path, _) =>
      connects corridor path (start corridor) (target corridor) ∧
      (length path ≤ 30)%nat ∧
      ∀ l, connects corridor l (start corridor) (target corridor) →
           (length path ≤ length l)%nat
  | (RetFalse, _) =>
      ∀ l, connects corridor l (start corridor) (target corridor) →
           (30 < length l)%nat
  end.
Proof.
  assert (Hcalm : calm corridor) by solve_calm.
  assert (Hs : is_valid_position corridor (start corridor).1
                 (start corridor).2 = true) by (vm_compute; reflexivity).
  assert (Ht : is_valid_position corridor (target corridor).1
                 (target corridor).2 = true) by (vm_compute; reflexivity).
  split; [exact Hcalm|]. split; [exact Hs|]. split; [exact Ht|].
  exact (iterative_deepening_dfs_shortest corridor Hcalm Hs Ht).
Defined.

(** Depth-limited search on the open 5 x 5 grid. *)
Lemma run_algorithm_reports_witness :
  let s := with_algorithm DLS (open_grid 5 (0, 0) (4, 4)) in
  is_searching s = false ∧ enable_dynamic_obstacles s = false ∧
  (∀ k, quiet (events s k)) ∧
  ∃ m s', run_algorithm 210 s = Some (Some m, s') ∧
    (m = Path_found ↔
     ∃ l, connects s l (start s) (target s) ∧
          within_reach (current_algorithm s) l) ∧
    is_searching s' = false ∧ search_complete s' = true.
Proof.
  intros s.
  assert (Hquiet : ∀ k, quiet (events s k)).
  { intros k. split; apply not_elem_of_nil. }
  split; [reflexivity|]. split; [reflexivity|]. split; [exact Hquiet|].
  apply (run_algorithm_reports s 210 eq_refl eq_refl Hquiet).
  - vm_compute; reflexivity.
  - vm_compute; reflexivity.
  - vm_compute. lia.
Defined.


(** Two space keys, a window close and one more space key in a batch:
    the call returns [False] and [paused] is what it was. *)
Lemma handle_events_during_search_spaces_witness :
  let s := small_grid (fun _ => [KEYDOWN K_SPACE; KEYDOWN K_SPACE; QUIT;
                                 KEYDOWN K_SPACE]) in
  (handle_events_during_search s).1 = false ∧
  paused (handle_events_during_search s).2 = false.
Proof.
  intros s.
  destruct (handle_events_during_search_spaces s) as (_ & Hquit & _).
  apply (Hquit [KEYDOWN K_SPACE; KEYDOWN K_SPACE] [KEYDOWN K_SPACE]).
  - reflexivity.
  - intros Hin.
    repeat (apply elem_of_cons in Hin as [Hin|Hin]; [discriminate Hin|]).
    by apply elem_of_nil in Hin.
Defined.


(** The mouse over the BFS button of the application: no other button is
    marked. *)
Lemma buttons_do_not_overlap_witness :
  update_button_hover maze (640, 60) !! 0%nat = Some true ∧
  ∀ j, update_button_hover maze (640, 60) !! j = Some true → j = 0%nat.
Proof.
  assert (H0 : update_button_hover maze (640, 60) !! 0%nat = Some true)
    by (vm_compute; reflexivity).
  split; [exact H0|]. intros j Hj.
  destruct (buttons_do_not_overlap maze (640, 60)) as (_ & Hone & _).
  exact (Hone j 0%nat Hj H0).
Defined.

(** A click on the Pause button of the open 3 x 3 grid. *)
Lemma handle_button_click_actions_witness :
  let s := small_grid no_events in
  is_clicked (pause_button s) (180, 290) = true ∧
  handle_button_click 0 (180, 290) (mkApp s 50) =
    Some (mkApp (with_paused true s) 50).
Proof.
  intros s.
  assert (Hc : is_clicked (pause_button s) (180, 290) = true)
    by (vm_compute; reflexivity).
  split; [exact Hc|].
  destruct (handle_button_click_actions 0 (180, 290) (mkApp s 50))
    as (_ & _ & _ & _ & Hpause & _).
  exact (Hpause Hc).
Defined.

(** A click on the Start button of the open 3 x 3 grid and the space
    key. *)
Lemma main_loop_clicks_and_keys_witness :
  let a := mkApp (small_grid no_events) 50 in
  is_clicked (start_button (small_grid no_events)) (90, 290) = true ∧
  handle_main_event 50 (UI_MOUSEBUTTONDOWN 1 (90, 290)) (true, a) =
    handle_main_event 50 (UI_KEYDOWN K_SPACE) (true, a).
Proof.
  intros a.
  assert (Hc : is_clicked (start_button (small_grid no_events)) (90, 290)
               = true) by (vm_compute; reflexivity).
  split; [exact Hc|].
  destruct (main_loop_clicks_and_keys 50 true a (90, 290)) as (Hstart & _).
  exact (Hstart Hc).
Defined.

(** A window close followed by the key [r]: the key is handled, and
    [running] is off. *)
Lemma run_frame_quit_and_idle_witness :
  let a := mkApp (small_grid no_events) 50 in
  run_frame 0 [UI_QUIT; UI_KEYDOWN K_r] (true, a) =
    (fun st => (false, st.2)) <$> run_frame 0 [UI_KEYDOWN K_r] (true, a).
Proof.
  intros a.
  exact (proj1 (run_frame_quit_and_idle 0 [UI_QUIT; UI_KEYDOWN K_r] true a)).
Defined.
